(** * A shallow embedding of the cache simulator of [C++/cache.cpp]

    The simulator is a set of C++ classes ([CacheEntry], [CacheSet], [LruSet],
    [VictimSet], [Prefetcher]) and the global function [cache_init].  Every
    class becomes a record inside a module of the same name and every method a
    function on that record.  Unsigned 64-bit integers are integers in
    [0, 2^64) with the wrap-around written out; an operation whose behaviour
    the C++ standard leaves undefined (a shift by 64 or more, [back()] on an
    empty list, a float-to-integer conversion of an infinity) yields [None]. *)

From Stdlib Require Import String Ascii ZArith List Bool Lia.
Import ListNotations.

Local Open Scope Z_scope.

(** ** Partial results *)

Definition bind {A B : Type} (m : option A) (f : A -> option B) : option B :=
  match m with
  | Some a => f a
  | None => None
  end.

Notation "x <- m ;; f" := (bind m (fun x => f))
  (at level 61, m at next level, right associativity).
Notation "' p <- m ;; f" := (bind m (fun p => f))
  (at level 61, p pattern, m at next level, right associativity).

(** ** [uint64_t] *)

Module U64.

Definition width : Z := 64.
Definition modulus : Z := 2 ^ width.

Definition wrap (x : Z) : Z := x mod modulus.

Definition add (x y : Z) : Z := wrap (x + y).
Definition sub (x y : Z) : Z := wrap (x - y).
Definition not (x : Z) : Z := wrap (Z.lnot x).

(** [x << n] and [x >> n] on an unsigned 64-bit [x]: undefined when the
    count is not smaller than the width. *)
Definition shl (x n : Z) : option Z :=
  if (0 <=? n) && (n <? width) then Some (wrap (Z.shiftl x n)) else None.

Definition shr (x n : Z) : option Z :=
  if (0 <=? n) && (n <? width) then Some (Z.shiftr x n) else None.

Definition in_range (x : Z) : Prop := 0 <= x < modulus.

End U64.

(** ** [class CacheEntry] *)

Module CacheEntry.

Record t : Type := mk {
  addr : Z;
  dirty : bool;
  c : Z;
  b : Z;
  s : Z;
  blank : bool;
  prefetched : bool
}.

Definition ADDR_WIDTH : Z := 64.

Definition tagSize (e : t) : Z := U64.add (U64.sub ADDR_WIDTH (c e)) (s e).
Definition byteOffsetSize (e : t) : Z := b e.
Definition indexSize (e : t) : Z := U64.sub (U64.sub (c e) (s e)) (b e).

(** [(val >> shiftAmount) & ((2UL << bitCount) - 1UL)] *)
Definition shiftAndMask (val bitCount shiftAmount : Z) : option Z :=
  shifted <- U64.shr val shiftAmount ;;
  top <- U64.shl 2 bitCount ;;
  Some (Z.land shifted (U64.sub top 1)).

(** The default constructor sets [blank] and leaves [addr], [dirty], [c],
    [b] and [s] uninitialised.  The model fills them with zeros; nothing
    below reads them from a blank entry, and no statement depends on them. *)
Definition default : t :=
  mk 0 false 0 0 0 true false.

(** [CacheEntry(addr_i, dirty_i, c_i, b_i, s_i)]; [blank] and [prefetched]
    take their default member initialisers. *)
Definition make (addr_i : Z) (dirty_i : bool) (c_i b_i s_i : Z) : t :=
  mk addr_i dirty_i c_i b_i s_i false false.

(** The copy constructor assigns [addr], [dirty], [c], [b], [s] in its body
    and has no initialiser list, so [blank] and [prefetched] take their
    default member initialisers. *)
Definition copy (alt : t) : t :=
  mk (addr alt) (dirty alt) (c alt) (b alt) (s alt) false false.

Definition setDirty (dirty_i : bool) (e : t) : t :=
  mk (addr e) dirty_i (c e) (b e) (s e) (blank e) (prefetched e).

Definition setPrefetched (prefetched_i : bool) (e : t) : t :=
  mk (addr e) (dirty e) (c e) (b e) (s e) (blank e) prefetched_i.

Definition setAddr (addr_i : Z) (e : t) : t :=
  mk addr_i (dirty e) (c e) (b e) (s e) (blank e) (prefetched e).

(** [blockAddressMask = ((1UL << (ADDR_WIDTH - b)) - 1UL) << b;
    addr &= ~blockAddressMask; addr |= blockAddress_i << b;] *)
Definition setBlockAddress (blockAddress_i : Z) (e : t) : option t :=
  one <- U64.shl 1 (U64.sub ADDR_WIDTH (b e)) ;;
  blockAddressMask <- U64.shl (U64.sub one 1) (b e) ;;
  let cleared := Z.land (addr e) (U64.not blockAddressMask) in
  moved <- U64.shl blockAddress_i (b e) ;;
  Some (setAddr (Z.lor cleared moved) e).

Definition getTag (e : t) : option Z :=
  shiftAndMask (addr e) (tagSize e) (U64.add (indexSize e) (byteOffsetSize e)).

Definition getIndex (e : t) : option Z :=
  shiftAndMask (addr e) (indexSize e) (byteOffsetSize e).

Definition getByteOffset (e : t) : option Z :=
  shiftAndMask (addr e) (byteOffsetSize e) 0.

Definition getBlockAddress (e : t) : option Z :=
  shiftAndMask (addr e) (U64.add (indexSize e) (tagSize e)) (byteOffsetSize e).

Definition isBlank (e : t) : bool := blank e.
Definition isDirty (e : t) : bool := dirty e.
Definition isPrefetched (e : t) : bool := prefetched e.

(** [operator==(const CacheEntry&)] and [operator==(const uint64_t&)] *)
Definition eq_entry (e rhs : t) : option bool :=
  t1 <- getTag e ;;
  t2 <- getTag rhs ;;
  Some (t1 =? t2).

Definition eq_tag (e : t) (compareTag : Z) : option bool :=
  t1 <- getTag e ;;
  Some (t1 =? compareTag).

(** The address rebuilt from the three decoded fields:
    [(tag << (index_bits + b)) | (index << b) | byte_offset]. *)
Definition compose (e : t) : option Z :=
  tag <- getTag e ;;
  index <- getIndex e ;;
  offset <- getByteOffset e ;;
  hi <- U64.shl tag (U64.add (indexSize e) (byteOffsetSize e)) ;;
  mid <- U64.shl index (byteOffsetSize e) ;;
  Some (Z.lor (Z.lor hi mid) offset).

End CacheEntry.

(** ** [class CacheSet] *)

Module CacheSet.

Record t : Type := mk {
  ways : Z;
  c : Z;
  b : Z;
  s : Z;
  set : list CacheEntry.t
}.

Definition with_set (l : list CacheEntry.t) (cs : t) : t :=
  mk (ways cs) (c cs) (b cs) (s cs) l.

(** [CacheSet(c_i, b_i, s_i) : ways(1UL << s_i), ...] with an empty list *)
Definition new (c_i b_i s_i : Z) : option t :=
  w <- U64.shl 1 s_i ;;
  Some (mk w c_i b_i s_i []).

Definition init (c_i b_i s_i : Z) (cs : t) : option t :=
  w <- U64.shl 1 s_i ;;
  Some (mk w c_i b_i s_i (set cs)).

Definition getWays (cs : t) : Z := ways cs.
Definition getSize (cs : t) : Z := Z.of_nat (length (set cs)).

(** An iterator into the list is the element it points to together with
    the elements before and after it; [end()] is [None]. *)
Definition cursor : Type :=
  (list CacheEntry.t * CacheEntry.t * list CacheEntry.t)%type.

Definition step_cursor (x : CacheEntry.t) (it : option cursor) : option cursor :=
  match it with
  | Some (before, found, after) => Some (x :: before, found, after)
  | None => None
  end.

(** [std::find(set.begin(), set.end(), tag)]: the first element that
    compares equal to [tag] under [operator==(const uint64_t&)]. *)
Fixpoint find (tag : Z) (l : list CacheEntry.t) : option (option cursor) :=
  match l with
  | [] => Some None
  | x :: rest =>
      same <- CacheEntry.eq_tag x tag ;;
      if same then Some (Some ([], x, rest))
      else it <- find tag rest ;; Some (step_cursor x it)
  end.

(** [std::list::remove(value)]: erases every element that compares equal
    to [value] under [operator==(const CacheEntry&)]. *)
Fixpoint remove (value : CacheEntry.t) (l : list CacheEntry.t)
  : option (list CacheEntry.t) :=
  match l with
  | [] => Some []
  | x :: rest =>
      same <- CacheEntry.eq_entry x value ;;
      rest' <- remove value rest ;;
      Some (if same then rest' else x :: rest')
  end.

(** [back()]; undefined on an empty list.  [pop_back()] is [removelast]
    and is only ever called after [back()]. *)
Fixpoint back (l : list CacheEntry.t) : option CacheEntry.t :=
  match l with
  | [] => None
  | [x] => Some x
  | _ :: rest => back rest
  end.

Definition retrieve (tag : Z) (cs : t) : option (CacheEntry.t * t) :=
  foundEntryIt <- find tag (set cs) ;;
  match foundEntryIt with
  | None => Some (CacheEntry.default, cs)
  | Some (_, x, _) =>
      let found := CacheEntry.copy x in
      l <- remove x (set cs) ;;
      Some (found, with_set l cs)
  end.

Definition seek (tag : Z) (cs : t) : option (CacheEntry.t * t) :=
  foundEntryIt <- find tag (set cs) ;;
  match foundEntryIt with
  | None => Some (CacheEntry.default, cs)
  | Some (_, x, _) => Some (CacheEntry.copy x, cs)
  end.

Definition contains (tag : Z) (cs : t) : option bool :=
  foundEntryIt <- find tag (set cs) ;;
  match foundEntryIt with
  | None => Some false
  | Some _ => Some true
  end.

End CacheSet.

(** ** [class LruSet : public CacheSet]

    The head of the list is the MRU position, the tail the LRU position.
    The methods take their [CacheEntry] argument by value, so the parameter
    is copy-constructed from the caller's object, and [push_front] /
    [push_back] copy-construct the list node from the parameter. *)

Module LruSet.

Definition t : Type := CacheSet.t.

Definition new (c_i b_i s_i : Z) : option t := CacheSet.new c_i b_i s_i.

Definition insertLru (arg : CacheEntry.t) (cs : t) : option (CacheEntry.t * t) :=
  let entry := CacheEntry.copy arg in
  if CacheSet.getSize cs <? CacheSet.ways cs then
    Some (CacheEntry.default,
          CacheSet.with_set (CacheSet.set cs ++ [CacheEntry.copy entry]) cs)
  else
    last <- CacheSet.back (CacheSet.set cs) ;;
    let lru := CacheEntry.copy last in
    Some (lru,
          CacheSet.with_set
            (removelast (CacheSet.set cs) ++ [CacheEntry.copy entry]) cs).

Definition inserMru (arg : CacheEntry.t) (cs : t) : option (CacheEntry.t * t) :=
  let entry := CacheEntry.copy arg in
  if CacheSet.getSize cs <? CacheSet.ways cs then
    Some (CacheEntry.default,
          CacheSet.with_set (CacheEntry.copy entry :: CacheSet.set cs) cs)
  else
    last <- CacheSet.back (CacheSet.set cs) ;;
    let lru := CacheEntry.copy last in
    Some (lru,
          CacheSet.with_set
            (CacheEntry.copy entry :: removelast (CacheSet.set cs)) cs).

Definition read (tag : Z) (cs : t) : option (CacheEntry.t * t) :=
  foundEntryIt <- CacheSet.find tag (CacheSet.set cs) ;;
  match foundEntryIt with
  | None => Some (CacheEntry.default, cs)
  | Some (_, x, _) =>
      let newMru := CacheEntry.copy x in
      l <- CacheSet.remove newMru (CacheSet.set cs) ;;
      Some (newMru, CacheSet.with_set (CacheEntry.copy newMru :: l) cs)
  end.

Definition writeBack (tag : Z) (cs : t) : option (CacheEntry.t * t) :=
  foundEntryIt <- CacheSet.find tag (CacheSet.set cs) ;;
  match foundEntryIt with
  | None => Some (CacheEntry.default, cs)
  | Some (before, x, after) =>
      let marked := CacheEntry.setDirty true x in
      let newMru := CacheEntry.copy marked in
      l <- CacheSet.remove newMru (before ++ marked :: after) ;;
      Some (newMru, CacheSet.with_set (CacheEntry.copy newMru :: l) cs)
  end.

End LruSet.

(** [clog2(num) = static_cast<uint64_t>(std::ceil(std::log2(num)))].  For
    [num = 0] the logarithm is minus infinity and the conversion undefined.
    Otherwise the model takes the exact ceiling of the binary logarithm.  The
    double-precision computation yields it for [num] up to [2^32] at the
    least: the logarithm of a number above [2^n] exceeds [n] by at least
    [2^-n], thousands of times the spacing of the doubles below 64, which is
    [2^-47] at most.  For large [num] the rounding of [std::log2] loses the
    excess ([2^49 + 1] gives 49), so what is stated about the value of
    [clog2] is stated up to [clog2_exact]. *)
Definition clog2 (num : Z) : option Z :=
  if num =? 0 then None else Some (Z.log2_up num).

(** ** [class VictimSet : public CacheSet] *)

Module VictimSet.

Record t : Type := mk {
  super : CacheSet.t;
  v : Z
}.

(** The zero-initialised, default-constructed global object. *)
Definition default : t := mk (CacheSet.mk 0 0 0 0 []) 0.

Definition new (v_i b_i : Z) : option t :=
  bits <- clog2 v_i ;;
  base <- CacheSet.new (U64.add bits b_i) b_i bits ;;
  Some (mk base v_i).

Definition init (v_i b_i : Z) (vs : t) : option t :=
  bits <- clog2 v_i ;;
  base <- CacheSet.init (U64.add bits b_i) b_i bits (super vs) ;;
  Some (mk base v_i).

Definition insert (arg : CacheEntry.t) (vs : t) : option (CacheEntry.t * t) :=
  let entry := CacheEntry.copy arg in
  let cs := super vs in
  if CacheSet.getSize cs <? CacheSet.ways cs then
    Some (CacheEntry.default,
          mk (CacheSet.with_set (CacheEntry.copy entry :: CacheSet.set cs) cs) (v vs))
  else
    last <- CacheSet.back (CacheSet.set cs) ;;
    let fifo := CacheEntry.copy last in
    Some (fifo,
          mk (CacheSet.with_set
                (CacheEntry.copy entry :: removelast (CacheSet.set cs)) cs) (v vs)).

(** The inherited [CacheSet] methods. *)
Definition lift (f : CacheSet.t -> option (CacheEntry.t * CacheSet.t)) (vs : t)
  : option (CacheEntry.t * t) :=
  '(r, cs) <- f (super vs) ;;
  Some (r, mk cs (v vs)).

Definition retrieve (tag : Z) : t -> option (CacheEntry.t * t) :=
  lift (CacheSet.retrieve tag).
Definition seek (tag : Z) : t -> option (CacheEntry.t * t) :=
  lift (CacheSet.seek tag).
Definition contains (tag : Z) (vs : t) : option bool :=
  CacheSet.contains tag (super vs).
Definition entries (vs : t) : list CacheEntry.t := CacheSet.set (super vs).

End VictimSet.

(** ** Exceptions

    A call either returns, or leaves by a C++ exception with the state it had
    reached, or has no defined behaviour. *)

Inductive exn : Type :=
| out_of_range
| c_string (msg : string).

Inductive outcome (A : Type) : Type :=
| Normal (a : A)
| Raised (e : exn) (a : A)
| Undef.

Arguments Normal {A} a.
Arguments Raised {A} e a.
Arguments Undef {A}.

Definition defined {A B : Type} (m : option A) (f : A -> outcome B) : outcome B :=
  match m with
  | Some a => f a
  | None => Undef
  end.

Notation "x <-! m ;; f" := (defined m (fun x => f))
  (at level 61, m at next level, right associativity).
Notation "' p <-! m ;; f" := (defined m (fun p => f))
  (at level 61, p pattern, m at next level, right associativity).

(** [vec[i] = x] on a [std::vector] element reached through a reference. *)
Fixpoint assign {A : Type} (i : nat) (x : A) (vec : list A) {struct vec}
  : list A :=
  match vec, i with
  | [], _ => []
  | _ :: rest, O => x :: rest
  | y :: rest, S j => y :: assign j x rest
  end.

(** ** [class Prefetcher]

    [prefCache] is a reference to the vector of L2 sets; the model passes the
    vector in and out next to the prefetcher's own fields. *)

Module Prefetcher.

Record t : Type := mk {
  evictions : list CacheEntry.t;
  k : Z;
  c : Z;
  b : Z;
  s : Z
}.

Definition with_evictions (l : list CacheEntry.t) (p : t) : t :=
  mk l (k p) (c p) (b p) (s p).

Definition init (k_i c_i b_i s_i : Z) (p : t) : t :=
  mk (evictions p) k_i c_i b_i s_i.

(** The variables live across the loop of [prefetch]. *)
Record frame : Type := mk_frame {
  tmp_entry : CacheEntry.t;
  tmp_blockAddress : Z;
  prefCache : list LruSet.t;
  buffer : list CacheEntry.t
}.

(** One iteration of [for (auto i = 0UL; i < k; ++i)]. *)
Definition body (f : frame) : outcome frame :=
  let blockAddress := U64.add (tmp_blockAddress f) 1 in
  entry <-! CacheEntry.setBlockAddress blockAddress (tmp_entry f) ;;
  index <-! CacheEntry.getIndex entry ;;
  match nth_error (prefCache f) (Z.to_nat index) with
  | None =>
      Raised out_of_range (mk_frame entry blockAddress (prefCache f) (buffer f))
  | Some prefEntrySet =>
      tag <-! CacheEntry.getTag entry ;;
      present <-! CacheSet.contains tag prefEntrySet ;;
      if present then
        Normal (mk_frame entry blockAddress (prefCache f) (buffer f))
      else
        '(evicted, updated) <-! LruSet.insertLru entry prefEntrySet ;;
        Normal (mk_frame entry blockAddress
                  (assign (Z.to_nat index) updated (prefCache f))
                  (if CacheEntry.isBlank evicted then buffer f
                   else buffer f ++ [CacheEntry.copy evicted]))
  end.

Fixpoint loop (n : nat) (f : frame) : outcome frame :=
  match n with
  | O => Normal f
  | S n' =>
      match body f with
      | Normal f' => loop n' f'
      | Raised e f' => Raised e f'
      | Undef => Undef
      end
  end.

Definition finish (p : t) (f : frame) : list LruSet.t * t :=
  (prefCache f, with_evictions (buffer f) p).

Definition prefetch (startEntry : CacheEntry.t) (cache : list LruSet.t) (p : t)
  : outcome (list LruSet.t * t) :=
  let tmp :=
    CacheEntry.setPrefetched true
      (CacheEntry.setDirty false (CacheEntry.copy startEntry)) in
  start <-! CacheEntry.getBlockAddress startEntry ;;
  match loop (Z.to_nat (k p)) (mk_frame tmp start cache []) with
  | Normal f => Normal (finish p f)
  | Raised e f => Raised e (finish p f)
  | Undef => Undef
  end.

(** [front()] and [pop_front()] are undefined on an empty list. *)
Definition popEviction (p : t) : option (CacheEntry.t * t) :=
  match evictions p with
  | [] => None
  | first :: rest => Some (CacheEntry.copy first, with_evictions rest p)
  end.

Definition checkEmpty (p : t) : bool :=
  match evictions p with
  | [] => true
  | _ :: _ => false
  end.

End Prefetcher.

(** ** Globals and [cache_init] *)

Module cache_config_t.

(** Modelled from the spec: [struct cache_config_t] is declared in
    [cache.hpp], which is not among the sources.  The fields are the ones
    [cache_init] reads ([c], [s] for L1, [C], [S] for L2, [b], [v], [k]);
    the configuration of the specification names them [l1_c], [l1_s],
    [l2_c], [l2_s], [b], [v], [k], all non-negative integers. *)
Record t : Type := mk {
  c : Z;
  s : Z;
  C : Z;
  S : Z;
  b : Z;
  v : Z;
  k : Z
}.

End cache_config_t.

Record globals : Type := mk_globals {
  L1_C : Z;
  L1_S : Z;
  L2_C : Z;
  L2_S : Z;
  B : Z;
  V : Z;
  K : Z;
  L1_NUM_SETS : Z;
  L2_NUM_SETS : Z;
  l1 : list LruSet.t;
  l2 : list LruSet.t;
  l2Prefetch : Prefetcher.t;
  vc : VictimSet.t
}.

(** The objects with static storage duration before [cache_init] runs:
    zero-initialised scalars, empty vectors. *)
Definition startup : globals :=
  mk_globals 0 0 0 0 0 0 0 0 0 [] [] (Prefetcher.mk [] 0 0 0 0) VictimSet.default.

(** [for (auto i = 0UL; i < n; ++i) vec.push_back(LruSet(c, b, s));] *)
Fixpoint push_sets (n : nat) (c_i b_i s_i : Z) (vec : list LruSet.t)
  : option (list LruSet.t) :=
  match n with
  | O => Some vec
  | Datatypes.S n' =>
      fresh <- LruSet.new c_i b_i s_i ;;
      push_sets n' c_i b_i s_i (vec ++ [fresh])
  end.

Definition done_message : string :=
  String.append "done initializing!!!" (String (ascii_of_nat 10) EmptyString).

Definition cache_init (conf : cache_config_t.t) (g : globals) : outcome globals :=
  let L1_C := cache_config_t.c conf in
  let L1_S := cache_config_t.s conf in
  let L2_C := cache_config_t.C conf in
  let L2_S := cache_config_t.S conf in
  let B := cache_config_t.b conf in
  let V := cache_config_t.v conf in
  let K := cache_config_t.k conf in
  L1_NUM_SETS <-! U64.shl 1 (U64.sub (U64.sub L1_C L1_S) B) ;;
  L2_NUM_SETS <-! U64.shl 1 (U64.sub (U64.sub L2_C L2_S) B) ;;
  (* [reserve] changes the capacity of a vector, not its contents, as long
     as the count is within [max_size()]; [std::length_error] above it and
     running out of memory are not modelled, see [modelled_sets] *)
  first <-! push_sets (Z.to_nat L1_NUM_SETS) L1_C B L1_S (l1 g) ;;
  second <-! push_sets (Z.to_nat L2_NUM_SETS) L2_C B L2_S first ;;
  let pref := Prefetcher.init K L2_C B L2_S (l2Prefetch g) in
  victim <-! VictimSet.init V B (vc g) ;;
  Raised (c_string done_message)
    (mk_globals L1_C L1_S L2_C L2_S B V K L1_NUM_SETS L2_NUM_SETS
       second (l2 g) pref victim).

(** ** Sequences of calls on one set *)

Inductive lru_call : Type :=
| call_insertLru (entry : CacheEntry.t)
| call_inserMru (entry : CacheEntry.t)
| call_read (tag : Z)
| call_writeBack (tag : Z)
| call_retrieve (tag : Z)
| call_seek (tag : Z)
| call_contains (tag : Z).

Definition lru_step (call : lru_call) (cs : LruSet.t) : option LruSet.t :=
  match call with
  | call_insertLru e => '(_, cs') <- LruSet.insertLru e cs ;; Some cs'
  | call_inserMru e => '(_, cs') <- LruSet.inserMru e cs ;; Some cs'
  | call_read tag => '(_, cs') <- LruSet.read tag cs ;; Some cs'
  | call_writeBack tag => '(_, cs') <- LruSet.writeBack tag cs ;; Some cs'
  | call_retrieve tag => '(_, cs') <- CacheSet.retrieve tag cs ;; Some cs'
  | call_seek tag => '(_, cs') <- CacheSet.seek tag cs ;; Some cs'
  | call_contains tag => _ <- CacheSet.contains tag cs ;; Some cs
  end.

Fixpoint lru_run (calls : list lru_call) (cs : LruSet.t) : option LruSet.t :=
  match calls with
  | [] => Some cs
  | call :: rest => cs' <- lru_step call cs ;; lru_run rest cs'
  end.

Inductive victim_call : Type :=
| victim_insert (entry : CacheEntry.t)
| victim_retrieve (tag : Z)
| victim_seek (tag : Z)
| victim_contains (tag : Z).

Definition victim_step (call : victim_call) (vs : VictimSet.t) : option VictimSet.t :=
  match call with
  | victim_insert e => '(_, vs') <- VictimSet.insert e vs ;; Some vs'
  | victim_retrieve tag => '(_, vs') <- VictimSet.retrieve tag vs ;; Some vs'
  | victim_seek tag => '(_, vs') <- VictimSet.seek tag vs ;; Some vs'
  | victim_contains tag => _ <- VictimSet.contains tag vs ;; Some vs
  end.

Fixpoint victim_run (calls : list victim_call) (vs : VictimSet.t)
  : option VictimSet.t :=
  match calls with
  | [] => Some vs
  | call :: rest => vs' <- victim_step call vs ;; victim_run rest vs'
  end.

(** The shifts of [getTag] are defined exactly for these geometries. *)
Definition tag_defined (e : CacheEntry.t) : bool :=
  (U64.add (CacheEntry.indexSize e) (CacheEntry.byteOffsetSize e) <? 64)
  && (CacheEntry.tagSize e <? 64).

Definition call_defined (call : lru_call) : bool :=
  match call with
  | call_insertLru e | call_inserMru e => tag_defined e
  | _ => true
  end.

Definition victim_call_defined (call : victim_call) : bool :=
  match call with
  | victim_insert e => tag_defined e
  | _ => true
  end.

(** ** Recency stamps

    The calls that count as a reference to a line are [read], [writeBack]
    and [inserMru].  The stamped set pairs every stored line with the number
    of the call that last inserted or hit it; the stamps are ghost state, the
    lines evolve exactly as in [LruSet]. *)

Module Recency.

Inductive call : Type :=
| ref_read (tag : Z)
| ref_writeBack (tag : Z)
| ref_inserMru (entry : CacheEntry.t).

Definition step (cl : call) (cs : LruSet.t) : option (CacheEntry.t * LruSet.t) :=
  match cl with
  | ref_read tag => LruSet.read tag cs
  | ref_writeBack tag => LruSet.writeBack tag cs
  | ref_inserMru e => LruSet.inserMru e cs
  end.

Fixpoint run (calls : list call) (cs : LruSet.t) : option LruSet.t :=
  match calls with
  | [] => Some cs
  | cl :: rest => '(_, cs') <- step cl cs ;; run rest cs'
  end.

Definition call_ok (cl : call) : bool :=
  match cl with
  | ref_inserMru e => tag_defined e
  | _ => true
  end.

Definition stamped : Type := (CacheEntry.t * nat)%type.

Fixpoint remove (value : CacheEntry.t) (l : list stamped) : option (list stamped) :=
  match l with
  | [] => Some []
  | x :: rest =>
      same <- CacheEntry.eq_entry (fst x) value ;;
      rest' <- remove value rest ;;
      Some (if same then rest' else x :: rest')
  end.

Definition stamped_step (cl : call) (now : nat) (ways : Z) (l : list stamped)
  : option (list stamped) :=
  match cl with
  | ref_read tag =>
      it <- CacheSet.find tag (map fst l) ;;
      match it with
      | None => Some l
      | Some (_, x, _) =>
          let newMru := CacheEntry.copy x in
          l' <- remove newMru l ;;
          Some ((CacheEntry.copy newMru, now) :: l')
      end
  | ref_writeBack tag =>
      it <- CacheSet.find tag (map fst l) ;;
      match it with
      | None => Some l
      | Some (_, x, _) =>
          let newMru := CacheEntry.copy (CacheEntry.setDirty true x) in
          l' <- remove newMru l ;;
          Some ((CacheEntry.copy newMru, now) :: l')
      end
  | ref_inserMru arg =>
      let entry := CacheEntry.copy arg in
      if Z.of_nat (length l) <? ways then
        Some ((CacheEntry.copy entry, now) :: l)
      else
        match l with
        | [] => None
        | _ :: _ => Some ((CacheEntry.copy entry, now) :: removelast l)
        end
  end.

Fixpoint stamped_run (calls : list call) (now : nat) (ways : Z) (l : list stamped)
  : option (list stamped) :=
  match calls with
  | [] => Some l
  | cl :: rest =>
      l' <- stamped_step cl now ways l ;;
      stamped_run rest (Datatypes.S now) ways l'
  end.

End Recency.

(** ** The prefetcher as the specification words it

    For [i = 1..K] the candidate is the line whose block address is the
    trigger's block address plus [i], with the trigger's byte offset and
    geometry, clean and marked prefetched.  Its set is the one numbered by
    its index bits, [bits[b : b + index_bits)] of the address with
    [index_bits = c - s - b]; its tag is [bits[b + index_bits : 64)].  Only
    when that set holds no line of the candidate's tag is the candidate
    inserted: under capacity nothing is evicted, in a full set the
    least-recently-used member, the last line of the list, is removed and
    returned, and the new line takes the position asked for.  An eviction is
    appended to the buffer, which starts empty.  The specification asks for
    the MRU position.  A set stores the line it is given as a copy.  A level
    has one set for each index; were there none at the index of a candidate,
    nothing would be done with it. *)

Module PrefetchSpec.

Definition candidate (trigger : CacheEntry.t) (i : Z) : CacheEntry.t :=
  let bits := CacheEntry.b trigger in
  let block_address := Z.shiftr (CacheEntry.addr trigger) bits in
  let byte_offset := Z.land (CacheEntry.addr trigger) (Z.ones bits) in
  CacheEntry.mk
    (Z.lor (U64.wrap (Z.shiftl (U64.add block_address i) bits)) byte_offset)
    false (CacheEntry.c trigger) (CacheEntry.b trigger) (CacheEntry.s trigger)
    false true.

Definition state : Type := (list LruSet.t * list CacheEntry.t)%type.

Definition candidates (trigger : CacheEntry.t) (K : Z) : list CacheEntry.t :=
  map (fun i => candidate trigger (Z.of_nat i)) (seq 1 (Z.to_nat K)).

Definition index_bits (line : CacheEntry.t) : Z :=
  CacheEntry.c line - CacheEntry.s line - CacheEntry.b line.

Definition index (line : CacheEntry.t) : Z :=
  (CacheEntry.addr line / 2 ^ CacheEntry.b line) mod 2 ^ index_bits line.

Definition tag (line : CacheEntry.t) : Z :=
  CacheEntry.addr line / 2 ^ (CacheEntry.b line + index_bits line).

Definition holds (t : Z) (set : LruSet.t) : bool :=
  existsb (fun line => tag line =? t) (CacheSet.set set).

Inductive position : Type :=
| mru_end
| lru_end.

Definition place (pos : position) (line : CacheEntry.t) (lines : list CacheEntry.t)
  : list CacheEntry.t :=
  match pos with
  | mru_end => line :: lines
  | lru_end => lines ++ [line]
  end.

Definition insert (pos : position) (line : CacheEntry.t) (set : LruSet.t)
  : option CacheEntry.t * LruSet.t :=
  let lines := CacheSet.set set in
  if Z.of_nat (length lines) <? CacheSet.ways set then
    (None, CacheSet.with_set (place pos (CacheEntry.copy line) lines) set)
  else
    (hd_error (rev lines),
     CacheSet.with_set (place pos (CacheEntry.copy line) (removelast lines)) set).

Definition offer (pos : position) (line : CacheEntry.t) (st : state) : state :=
  let '(cache, buffer) := st in
  match nth_error cache (Z.to_nat (index line)) with
  | None => st
  | Some target =>
      if holds (tag line) target then st
      else
        let '(evicted, updated) := insert pos line target in
        (assign (Z.to_nat (index line)) updated cache,
         match evicted with
         | Some lru => buffer ++ [lru]
         | None => buffer
         end)
  end.

Definition prefetch (pos : position) (K : Z) (trigger : CacheEntry.t)
    (cache : list LruSet.t) : state :=
  fold_left (fun st line => offer pos line st) (candidates trigger K) (cache, []).

End PrefetchSpec.

(** ** The loop of [Prefetcher::prefetch] over the candidate lines

    What one iteration of the loop does with its candidate, once the
    candidate is known: [getIndex], [vector::at], [contains] and the
    insertion method, with the exception and the undefined cases of the
    program.  [insert] is [LruSet.insertLru] in the program. *)

Module PrefetchLoop.

Definition offer
    (insert : CacheEntry.t -> LruSet.t -> option (CacheEntry.t * LruSet.t))
    (line : CacheEntry.t) (st : PrefetchSpec.state) : outcome PrefetchSpec.state :=
  let '(cache, buffer) := st in
  index <-! CacheEntry.getIndex line ;;
  match nth_error cache (Z.to_nat index) with
  | None => Raised out_of_range st
  | Some target =>
      tag <-! CacheEntry.getTag line ;;
      present <-! CacheSet.contains tag target ;;
      if present then Normal st
      else
        '(evicted, updated) <-! insert line target ;;
        Normal (assign (Z.to_nat index) updated cache,
                if CacheEntry.isBlank evicted then buffer
                else buffer ++ [evicted])
  end.

Fixpoint offer_all
    (insert : CacheEntry.t -> LruSet.t -> option (CacheEntry.t * LruSet.t))
    (lines : list CacheEntry.t) (st : PrefetchSpec.state)
  : outcome PrefetchSpec.state :=
  match lines with
  | [] => Normal st
  | line :: rest =>
      match offer insert line st with
      | Normal st' => offer_all insert rest st'
      | Raised e st' => Raised e st'
      | Undef => Undef
      end
  end.

Definition prefetch
    (insert : CacheEntry.t -> LruSet.t -> option (CacheEntry.t * LruSet.t))
    (K : Z) (trigger : CacheEntry.t) (cache : list LruSet.t)
  : outcome PrefetchSpec.state :=
  offer_all insert (PrefetchSpec.candidates trigger K) (cache, []).

End PrefetchLoop.

(** The tags of the lines of a set, as [operator==] computes them. *)
Definition tags (cs : CacheSet.t) : list (option Z) :=
  map CacheEntry.getTag (CacheSet.set cs).

(** The configurations the specification accepts: [c >= s + b] for L1, for
    L2, and for the geometry derived for a configured victim cache. *)
Definition geometry_ok (c_i b_i s_i : Z) : bool := s_i + b_i <=? c_i.

Definition config_ok (conf : cache_config_t.t) : bool :=
  geometry_ok (cache_config_t.c conf) (cache_config_t.b conf) (cache_config_t.s conf)
  && geometry_ok (cache_config_t.C conf) (cache_config_t.b conf) (cache_config_t.S conf)
  && ((cache_config_t.v conf =? 0)
      || match clog2 (cache_config_t.v conf) with
         | Some bits => geometry_ok (bits + cache_config_t.b conf) (cache_config_t.b conf) bits
         | None => false
         end).

(** Two lines compare equal under [operator==(const CacheEntry&)]. *)
Definition same_tag (x y : CacheEntry.t) : bool :=
  match CacheEntry.getTag x, CacheEntry.getTag y with
  | Some t1, Some t2 => t1 =? t2
  | _, _ => false
  end.

(** The list with every line of [value]'s tag erased, the others in order. *)
Definition without (value : CacheEntry.t) (l : list CacheEntry.t)
  : list CacheEntry.t :=
  filter (fun x => negb (same_tag x value)) l.

(** Lines as the sets store them: every stored line went through the copy
    constructor. *)
Definition stored (e : CacheEntry.t) : Prop :=
  CacheEntry.blank e = false /\ CacheEntry.prefetched e = false.

(** The invariant of a set between two calls: room for at least one line,
    no more lines than ways, and only copy-constructed lines whose tag can
    be computed. *)
Definition within_capacity (cs : CacheSet.t) : Prop :=
  Z.of_nat (length (CacheSet.set cs)) <= CacheSet.ways cs.

Definition set_inv (cs : CacheSet.t) : Prop :=
  1 <= CacheSet.ways cs
  /\ within_capacity cs
  /\ Forall (fun e => tag_defined e = true) (CacheSet.set cs)
  /\ Forall stored (CacheSet.set cs).

(** The number of lines of a set that are not blank. *)
Definition occupancy (cs : CacheSet.t) : Z :=
  Z.of_nat (length (filter (fun e => negb (CacheEntry.isBlank e)) (CacheSet.set cs))).

(** What [std::find] returns on a list of lines: [end()] when no line has
    the tag, otherwise the position of the first line that has it. *)
Definition found (tag : Z) (l : list CacheEntry.t) (it : option CacheSet.cursor)
  : Prop :=
  match it with
  | None => Forall (fun y => CacheEntry.getTag y <> Some tag) l
  | Some (before, x, after) =>
      l = before ++ x :: after
      /\ CacheEntry.getTag x = Some tag
      /\ Forall (fun y => CacheEntry.getTag y <> Some tag) before
  end.

(** The inherited and the own methods of a [VictimSet] as calls on the
    underlying list: [insert] has the body of [LruSet::inserMru]. *)
Definition as_lru_call (call : victim_call) : lru_call :=
  match call with
  | victim_insert e => call_inserMru e
  | victim_retrieve tag => call_retrieve tag
  | victim_seek tag => call_seek tag
  | victim_contains tag => call_contains tag
  end.

(** Stamps decrease from the head of the list to its tail: every line was
    referenced after all the lines behind it. *)
Fixpoint newest_first (l : list Recency.stamped) : Prop :=
  match l with
  | [] => True
  | p :: rest => Forall (fun q => (snd q < snd p)%nat) rest /\ newest_first rest
  end.

Definition stamp_inv (now : nat) (l : list Recency.stamped) : Prop :=
  newest_first l /\ Forall (fun p => (snd p < now)%nat) l.

(** How an outcome of the loop over the candidates reads as an outcome of
    [Prefetcher::prefetch], and as the state of its loop. *)
Definition deliver (p : Prefetcher.t) (o : outcome PrefetchSpec.state)
  : outcome (list LruSet.t * Prefetcher.t) :=
  match o with
  | Normal (cache, buffer) => Normal (cache, Prefetcher.with_evictions buffer p)
  | Raised e (cache, buffer) => Raised e (cache, Prefetcher.with_evictions buffer p)
  | Undef => Undef
  end.

Definition frame_of (entry : CacheEntry.t) (blockAddress : Z)
    (o : outcome PrefetchSpec.state) : outcome Prefetcher.frame :=
  match o with
  | Normal (cache, buffer) =>
      Normal (Prefetcher.mk_frame entry blockAddress cache buffer)
  | Raised e (cache, buffer) =>
      Raised e (Prefetcher.mk_frame entry blockAddress cache buffer)
  | Undef => Undef
  end.


Definition returns {A : Type} (o : outcome A) : bool :=
  match o with
  | Normal _ => true
  | _ => false
  end.

(** ** Example data *)

(** The L1 of the worked example of the specification (1 KiB, 32-byte
    blocks, 2 ways) with a 4 KiB 4-way L2, two victim blocks and a prefetch
    distance of two. *)
Definition example_config : cache_config_t.t :=
  cache_config_t.mk 10 1 12 2 5 2 2.

(** A cache of four two-way sets of 32-byte blocks, one line in set 1. *)
Definition example_set (lines : list CacheEntry.t) : LruSet.t :=
  CacheSet.mk 2 8 5 1 lines.

Definition example_cache : list LruSet.t :=
  [example_set []; example_set [CacheEntry.make 160 false 8 5 1];
   example_set []; example_set []].

Definition example_prefetcher (k_i : Z) : Prefetcher.t :=
  Prefetcher.mk [CacheEntry.make 7 true 8 5 1] k_i 8 5 1.

(** Block [n] as a line of a fully associative set of four 32-byte blocks
    (the geometry [VictimSet] derives for three or four blocks): its tag is
    [n]. *)
Definition example_line (n : Z) : CacheEntry.t :=
  CacheEntry.make (n * 32) false 7 5 2.

(** Arguments up to this one are certain to have their [clog2] computed
    exactly. *)
Definition clog2_exact : Z := 2 ^ 32.

(** [cache_init] reserves and fills the vectors of sets.  The model has
    neither [std::length_error], which [reserve] throws for a count above
    [max_size()], nor allocation failure; it is the program for
    configurations of at most [2^16] sets per cache. *)
Definition modelled_sets (conf : cache_config_t.t) : Prop :=
  U64.sub (U64.sub (cache_config_t.c conf) (cache_config_t.s conf))
    (cache_config_t.b conf) <= 16
  /\ U64.sub (U64.sub (cache_config_t.C conf) (cache_config_t.S conf))
       (cache_config_t.b conf) <= 16.





(** ** Further observations on the classes *)

(** A line compares equal to [tag] under [operator==(const uint64_t&)]. *)
Definition has_tag (tag : Z) (y : CacheEntry.t) : bool :=
  match CacheEntry.getTag y with
  | Some t => t =? tag
  | None => false
  end.

(** The lines of a list that do not have the tag, in order. *)
Definition others (tag : Z) (l : list CacheEntry.t) : list CacheEntry.t :=
  filter (fun y => negb (has_tag tag y)) l.

(** Successive calls of [VictimSet::insert], collecting the entries that
    come back non-blank, in the order of the calls. *)
Fixpoint victim_inserts (lines : list CacheEntry.t) (vs : VictimSet.t)
  : option (list CacheEntry.t * VictimSet.t) :=
  match lines with
  | [] => Some ([], vs)
  | line :: rest =>
      '(evicted, vs') <- VictimSet.insert line vs ;;
      '(later, vs'') <- victim_inserts rest vs' ;;
      Some (if CacheEntry.isBlank evicted then later else evicted :: later, vs'')
  end.

(** [n] successive calls of [Prefetcher::popEviction], collecting what they
    return. *)
Fixpoint pop_all (n : nat) (p : Prefetcher.t)
  : option (list CacheEntry.t * Prefetcher.t) :=
  match n with
  | O => Some ([], p)
  | Datatypes.S n' =>
      '(eviction, p') <- Prefetcher.popEviction p ;;
      '(later, p'') <- pop_all n' p' ;;
      Some (eviction :: later, p'')
  end.

(** What a set may become while lines are prefetched into it: the same
    ways, no fewer lines. *)
Definition kept (cs cs' : CacheSet.t) : Prop :=
  CacheSet.ways cs' = CacheSet.ways cs
  /\ (length (CacheSet.set cs) <= length (CacheSet.set cs'))%nat.

(** * Proofs *)

(** * Facts about 64-bit arithmetic *)

Section Words.

Lemma modulus_value : U64.modulus = 18446744073709551616.
Proof. reflexivity. Qed.

Lemma wrap_in_range (x : Z) : U64.in_range (U64.wrap x).
Proof.
  unfold U64.in_range, U64.wrap. rewrite modulus_value.
  apply Z.mod_pos_bound. lia.
Qed.

Lemma wrap_small (x : Z) : U64.in_range x -> U64.wrap x = x.
Proof.
  unfold U64.in_range, U64.wrap. intros H. now apply Z.mod_small.
Qed.

Lemma wrap_testbit (x n : Z) :
  Z.testbit (U64.wrap x) n = (n <? 64) && Z.testbit x n.
Proof.
  unfold U64.wrap, U64.modulus, U64.width.
  now rewrite Z.testbit_mod_pow2 by lia.
Qed.

Lemma in_range_testbit (x n : Z) :
  U64.in_range x -> 64 <= n -> Z.testbit x n = false.
Proof.
  intros Hx Hn. rewrite <- (wrap_small x Hx), wrap_testbit.
  destruct (Z.ltb_spec n 64); [lia | reflexivity].
Qed.

Lemma shl_defined (x n : Z) :
  0 <= n < 64 -> U64.shl x n = Some (U64.wrap (Z.shiftl x n)).
Proof.
  intros [H0 H1]. unfold U64.shl, U64.width.
  destruct (Z.leb_spec 0 n); [|lia].
  destruct (Z.ltb_spec n 64); [reflexivity | lia].
Qed.

Lemma shr_defined (x n : Z) :
  0 <= n < 64 -> U64.shr x n = Some (Z.shiftr x n).
Proof.
  intros [H0 H1]. unfold U64.shr, U64.width.
  destruct (Z.leb_spec 0 n); [|lia].
  destruct (Z.ltb_spec n 64); [reflexivity | lia].
Qed.

(** [(2UL << k) - 1UL] has its [k + 1] low bits set. *)
Lemma two_shl_mask (k : Z) :
  0 <= k < 64 -> U64.sub (U64.wrap (Z.shiftl 2 k)) 1 = Z.ones (k + 1).
Proof.
  intros Hk. destruct (Z.eq_dec k 63) as [-> | Hne]; [reflexivity|].
  unfold U64.sub, U64.wrap. rewrite Zminus_mod_idemp_l.
  rewrite Z.shiftl_mul_pow2 by lia.
  rewrite Z.ones_equiv, Z.pow_add_r, Z.pow_1_r by lia.
  rewrite modulus_value.
  assert (0 < 2 ^ k) by (apply Z.pow_pos_nonneg; lia).
  assert (2 ^ k <= 2 ^ 62) by (apply Z.pow_le_mono_r; lia).
  change (2 ^ 62) with 4611686018427387904 in *.
  rewrite Z.mod_small; lia.
Qed.

(** [(1UL << k) - 1UL] has its [k] low bits set. *)
Lemma one_shl_mask (k : Z) :
  0 <= k < 64 -> U64.sub (U64.wrap (Z.shiftl 1 k)) 1 = Z.ones k.
Proof.
  intros Hk. unfold U64.sub, U64.wrap. rewrite Zminus_mod_idemp_l.
  rewrite Z.shiftl_mul_pow2, Z.mul_1_l by lia.
  rewrite Z.ones_equiv. apply Z.mod_small.
  rewrite modulus_value.
  assert (0 < 2 ^ k) by (apply Z.pow_pos_nonneg; lia).
  assert (2 ^ k <= 2 ^ 63) by (apply Z.pow_le_mono_r; lia).
  change (2 ^ 63) with 9223372036854775808 in *. lia.
Qed.

End Words.

(** * Address decoding *)

Section Decoding.

(** The bits of a field that was shifted down, masked to [k] bits and
    shifted back up to its place. *)
Lemma field_bit (a sh k n : Z) :
  0 <= sh -> 0 <= k -> 0 <= n ->
  Z.testbit (Z.shiftl (Z.land (Z.shiftr a sh) (Z.ones k)) sh) n
  = (sh <=? n) && (n <? sh + k) && Z.testbit a n.
Proof.
  intros Hsh Hk Hn. rewrite Z.shiftl_spec by lia.
  destruct (Z.leb_spec sh n) as [Hle | Hgt].
  - rewrite Z.land_spec, Z.shiftr_spec, Z.testbit_ones_nonneg by lia.
    replace (n - sh + sh) with n by lia.
    destruct (Z.ltb_spec (n - sh) k), (Z.ltb_spec n (sh + k));
      try lia; destruct (Z.testbit a n); reflexivity.
  - now rewrite Z.testbit_neg_r by lia.
Qed.

Lemma shiftAndMask_defined (val bitCount shiftAmount : Z) :
  0 <= bitCount < 64 -> 0 <= shiftAmount < 64 ->
  CacheEntry.shiftAndMask val bitCount shiftAmount
  = Some (Z.land (Z.shiftr val shiftAmount) (Z.ones (bitCount + 1))).
Proof.
  intros Hk Hs. unfold CacheEntry.shiftAndMask.
  rewrite shr_defined, shl_defined by assumption. simpl.
  now rewrite two_shl_mask.
Qed.

Variable e : CacheEntry.t.

Let c := CacheEntry.c e.
Let b := CacheEntry.b e.
Let s := CacheEntry.s e.

Hypothesis b_nonneg : 0 <= b.
Hypothesis s_nonneg : 0 <= s.
Hypothesis geometry : s + b <= c.
Hypothesis tag_shift : s < c < s + 64.

Lemma indexSize_value : CacheEntry.indexSize e = c - s - b.
Proof.
  unfold CacheEntry.indexSize, U64.sub, U64.wrap. fold c b s.
  rewrite modulus_value.
  rewrite (Z.mod_small (c - s)) by lia. rewrite Z.mod_small; lia.
Qed.

Lemma tagSize_value : CacheEntry.tagSize e = 64 - (c - s).
Proof.
  unfold CacheEntry.tagSize, CacheEntry.ADDR_WIDTH, U64.add, U64.sub, U64.wrap.
  fold c s. rewrite Zplus_mod_idemp_l, modulus_value.
  rewrite Z.mod_small; lia.
Qed.

Lemma tag_shift_value :
  U64.add (CacheEntry.indexSize e) (CacheEntry.byteOffsetSize e) = c - s.
Proof.
  rewrite indexSize_value. unfold CacheEntry.byteOffsetSize, U64.add, U64.wrap.
  fold b. rewrite modulus_value, Z.mod_small; lia.
Qed.

Hypothesis addr_range : U64.in_range (CacheEntry.addr e).

Ltac bit_cases :=
  repeat match goal with
         | |- context [?x <? ?y] => destruct (Z.ltb_spec x y)
         | |- context [?x <=? ?y] => destruct (Z.leb_spec x y)
         end;
  simpl; rewrite ?andb_false_r, ?andb_true_r, ?orb_false_r, ?orb_true_r;
  try reflexivity; try lia.

(** Decomposing an address and putting the three fields back together
    gives the address again. *)
Lemma compose_decode : CacheEntry.compose e = Some (CacheEntry.addr e).
Proof.
  unfold CacheEntry.compose, CacheEntry.getTag, CacheEntry.getIndex,
    CacheEntry.getByteOffset.
  rewrite tag_shift_value, tagSize_value, indexSize_value.
  unfold CacheEntry.byteOffsetSize. fold b.
  rewrite !shiftAndMask_defined by lia. cbn [bind].
  rewrite !shl_defined by lia. cbn [bind]. f_equal.
  apply Z.bits_inj'. intros n Hn.
  rewrite !Z.lor_spec, !wrap_testbit, !field_bit by lia.
  rewrite Z.land_spec, Z.shiftr_spec, Z.add_0_r by lia.
  rewrite Z.testbit_ones_nonneg by lia.
  destruct (Z.ltb_spec n 64) as [Hlt | Hge].
  2:{ rewrite (in_range_testbit _ n addr_range Hge).
      now rewrite !andb_false_r. }
  destruct (Z.testbit (CacheEntry.addr e) n);
    [rewrite !andb_true_r | now rewrite !andb_false_r].
  bit_cases.
Qed.

End Decoding.

Section BlockAddress.

Variable e : CacheEntry.t.
Hypothesis block_bits : 1 <= CacheEntry.b e <= 63.
Hypothesis addr_range : U64.in_range (CacheEntry.addr e).

(** For block sizes of 2 up to 2^63 bytes [setBlockAddress] keeps the low
    [b] bits and replaces the others by the new block address. *)
Lemma setBlockAddress_defined (blockAddress_i : Z) :
  CacheEntry.setBlockAddress blockAddress_i e
  = Some (CacheEntry.setAddr
            (Z.lor (U64.wrap (Z.shiftl blockAddress_i (CacheEntry.b e)))
                   (Z.land (CacheEntry.addr e) (Z.ones (CacheEntry.b e))))
            e).
Proof.
  unfold CacheEntry.setBlockAddress, CacheEntry.ADDR_WIDTH.
  set (b := CacheEntry.b e) in *.
  assert (Hsub : U64.sub 64 b = 64 - b).
  { unfold U64.sub, U64.wrap. rewrite modulus_value, Z.mod_small; lia. }
  rewrite Hsub, !shl_defined by lia. cbn [bind].
  rewrite one_shl_mask by lia.
  rewrite shl_defined by lia. cbn [bind]. do 2 f_equal.
  apply Z.bits_inj'. intros n Hn.
  rewrite !Z.lor_spec, !Z.land_spec. unfold U64.not.
  rewrite !wrap_testbit, Z.lnot_spec, wrap_testbit by lia.
  rewrite !Z.shiftl_spec, (Z.testbit_ones_nonneg b n) by lia.
  destruct (Z.ltb_spec n 64) as [Hlt | Hge]; cbn [andb].
  2:{ rewrite (in_range_testbit _ n addr_range Hge). reflexivity. }
  destruct (Z.ltb_spec n b) as [Hb | Hb].
  - rewrite !(Z.testbit_neg_r _ (n - b)) by lia. cbn [negb orb].
    now rewrite !andb_true_r, orb_false_r.
  - rewrite Z.testbit_ones_nonneg by lia.
    destruct (Z.ltb_spec (n - b) (64 - b)); [|lia].
    cbn [negb]. now rewrite !andb_false_r, orb_comm.
Qed.

End BlockAddress.

(** * Facts about the entries a set stores *)

Section Entries.

Lemma copy_idempotent (e : CacheEntry.t) :
  CacheEntry.copy (CacheEntry.copy e) = CacheEntry.copy e.
Proof. reflexivity. Qed.

Lemma copy_stored (e : CacheEntry.t) : stored (CacheEntry.copy e).
Proof. split; reflexivity. Qed.

Lemma copy_of_stored (e : CacheEntry.t) : stored e -> CacheEntry.copy e = e.
Proof.
  destruct e as [a d c b s bl pf]. unfold stored. cbn.
  intros [-> ->]. reflexivity.
Qed.

Lemma getTag_copy (e : CacheEntry.t) :
  CacheEntry.getTag (CacheEntry.copy e) = CacheEntry.getTag e.
Proof. reflexivity. Qed.

Lemma getTag_setDirty (d : bool) (e : CacheEntry.t) :
  CacheEntry.getTag (CacheEntry.setDirty d e) = CacheEntry.getTag e.
Proof. reflexivity. Qed.

Lemma tag_defined_copy (e : CacheEntry.t) :
  tag_defined (CacheEntry.copy e) = tag_defined e.
Proof. reflexivity. Qed.

Lemma tag_defined_setDirty (d : bool) (e : CacheEntry.t) :
  tag_defined (CacheEntry.setDirty d e) = tag_defined e.
Proof. reflexivity. Qed.

Lemma getTag_defined (e : CacheEntry.t) :
  tag_defined e = true -> exists tag, CacheEntry.getTag e = Some tag.
Proof.
  unfold tag_defined. intros H. apply andb_true_iff in H as [H1 H2].
  apply Z.ltb_lt in H1, H2.
  unfold CacheEntry.getTag. eexists. apply shiftAndMask_defined.
  - split; [|assumption]. apply wrap_in_range.
  - split; [|assumption]. apply wrap_in_range.
Qed.

Lemma same_tag_copy_l (x v : CacheEntry.t) :
  same_tag (CacheEntry.copy x) v = same_tag x v.
Proof. reflexivity. Qed.

Lemma same_tag_copy_r (x v : CacheEntry.t) :
  same_tag x (CacheEntry.copy v) = same_tag x v.
Proof. reflexivity. Qed.

Lemma same_tag_setDirty_r (d : bool) (x v : CacheEntry.t) :
  same_tag x (CacheEntry.setDirty d v) = same_tag x v.
Proof. reflexivity. Qed.

Lemma eq_entry_defined (x v : CacheEntry.t) :
  tag_defined x = true -> tag_defined v = true ->
  CacheEntry.eq_entry x v = Some (same_tag x v).
Proof.
  intros Hx Hv. destruct (getTag_defined x Hx) as [tx Ex].
  destruct (getTag_defined v Hv) as [tv Ev].
  unfold CacheEntry.eq_entry, same_tag. now rewrite Ex, Ev.
Qed.

End Entries.

(** * The list operations of a set *)

Section ListOperations.

Lemma remove_defined (value : CacheEntry.t) (l : list CacheEntry.t) :
  Forall (fun e => tag_defined e = true) l -> tag_defined value = true ->
  CacheSet.remove value l = Some (without value l).
Proof.
  intros Hl Hv. induction Hl as [| x rest Hx Hrest IH]; [reflexivity|].
  cbn [CacheSet.remove without filter].
  rewrite (eq_entry_defined x value Hx Hv). cbn [bind].
  rewrite IH. cbn [bind]. unfold without.
  now destruct (same_tag x value).
Qed.

Lemma without_length (value : CacheEntry.t) (l : list CacheEntry.t) :
  (length (without value l) <= length l)%nat.
Proof. apply filter_length_le. Qed.

Lemma without_app (value : CacheEntry.t) (l1 l2 : list CacheEntry.t) :
  without value (l1 ++ l2) = without value l1 ++ without value l2.
Proof. apply filter_app. Qed.

Lemma without_Forall (P : CacheEntry.t -> Prop) value l :
  Forall P l -> Forall P (without value l).
Proof.
  intros H. apply Forall_forall. intros x Hx.
  apply filter_In in Hx as [Hx _]. revert x Hx. now apply Forall_forall.
Qed.

Lemma without_absent (value : CacheEntry.t) (l : list CacheEntry.t) :
  Forall (fun y => same_tag y value = false) l -> without value l = l.
Proof.
  induction 1 as [| x rest Hx _ IH]; [reflexivity|].
  cbn [without filter]. rewrite Hx. cbn [negb]. f_equal. exact IH.
Qed.

Lemma same_tag_refl (x : CacheEntry.t) :
  tag_defined x = true -> same_tag x x = true.
Proof.
  intros Hx. destruct (getTag_defined x Hx) as [t Et].
  unfold same_tag. rewrite Et. apply Z.eqb_refl.
Qed.

Lemma find_defined (tag : Z) (l : list CacheEntry.t) :
  Forall (fun e => tag_defined e = true) l -> exists it, CacheSet.find tag l = Some it /\ found tag l it.
Proof.
  intros Hl. induction Hl as [| x rest Hx Hrest IH].
  - exists None. split; [reflexivity | constructor].
  - destruct (getTag_defined x Hx) as [t Et].
    cbn [CacheSet.find]. unfold CacheEntry.eq_tag. rewrite Et. cbn [bind].
    destruct (Z.eqb_spec t tag) as [-> | Hne].
    + exists (Some ([], x, rest)). split; [reflexivity|].
      repeat split; [assumption | constructor].
    + destruct IH as [it [Eit Hit]]. rewrite Eit. cbn [bind].
      exists (CacheSet.step_cursor x it). split; [reflexivity|].
      assert (Hx' : CacheEntry.getTag x <> Some tag) by congruence.
      destruct it as [[[before y] after] |]; cbn [CacheSet.step_cursor found] in *.
      * destruct Hit as [-> [Hy Hb]]. repeat split; [assumption|].
        now constructor.
      * now constructor.
Qed.

Lemma absent_same_tag (tag : Z) (x : CacheEntry.t) (l : list CacheEntry.t) :
  CacheEntry.getTag x = Some tag ->
  Forall (fun y => CacheEntry.getTag y <> Some tag) l ->
  Forall (fun y => same_tag y x = false) l.
Proof.
  intros Hx Hl. apply Forall_forall. intros y Hy.
  rewrite Forall_forall in Hl. specialize (Hl y Hy).
  unfold same_tag. rewrite Hx. destruct (CacheEntry.getTag y) as [ty|]; [|reflexivity].
  apply Z.eqb_neq. congruence.
Qed.

Lemma back_defined (l : list CacheEntry.t) :
  l <> [] -> exists x, CacheSet.back l = Some x /\ l = removelast l ++ [x].
Proof.
  induction l as [| a rest IH]; [congruence|]. intros _.
  destruct rest as [| a' rest'].
  - exists a. split; reflexivity.
  - destruct IH as [x [Hx Hl]]; [congruence|].
    exists x. split; [exact Hx|].
    change (removelast (a :: a' :: rest')) with (a :: removelast (a' :: rest')).
    cbn [app]. f_equal. exact Hl.
Qed.

Lemma removelast_length (l : list CacheEntry.t) :
  l <> [] -> S (length (removelast l)) = length l.
Proof.
  intros Hl. destruct (back_defined l Hl) as [y [_ E]].
  rewrite E at 2. rewrite length_app. cbn. lia.
Qed.

Lemma removelast_Forall (P : CacheEntry.t -> Prop) (l : list CacheEntry.t) :
  Forall P l -> Forall P (removelast l).
Proof.
  intros H. destruct l as [| a rest]; [constructor|].
  destruct (back_defined (a :: rest)) as [y [_ E]]; [congruence|].
  rewrite E in H. now apply Forall_app in H as [H _].
Qed.

Lemma back_Forall (P : CacheEntry.t -> Prop) (l : list CacheEntry.t) x :
  Forall P l -> CacheSet.back l = Some x -> P x.
Proof.
  intros H Hx. destruct l as [| a rest]; [discriminate|].
  destruct (back_defined (a :: rest)) as [y [Ey E]]; [congruence|].
  rewrite E in H. apply Forall_app in H as [_ H].
  inversion H; subst. congruence.
Qed.

End ListOperations.

(** * The methods of the sets in closed form *)

Section Insertion.

Variable cs : CacheSet.t.
Variable arg : CacheEntry.t.

Lemma insertLru_room :
  CacheSet.getSize cs < CacheSet.ways cs ->
  LruSet.insertLru arg cs
  = Some (CacheEntry.default,
          CacheSet.with_set (CacheSet.set cs ++ [CacheEntry.copy arg]) cs).
Proof.
  intros H. unfold LruSet.insertLru.
  destruct (Z.ltb_spec (CacheSet.getSize cs) (CacheSet.ways cs)); [reflexivity | lia].
Qed.

Lemma inserMru_room :
  CacheSet.getSize cs < CacheSet.ways cs ->
  LruSet.inserMru arg cs
  = Some (CacheEntry.default,
          CacheSet.with_set (CacheEntry.copy arg :: CacheSet.set cs) cs).
Proof.
  intros H. unfold LruSet.inserMru.
  destruct (Z.ltb_spec (CacheSet.getSize cs) (CacheSet.ways cs)); [reflexivity | lia].
Qed.

Hypothesis inv : set_inv cs.
Hypothesis full : CacheSet.ways cs <= CacheSet.getSize cs.

Lemma full_nonempty : CacheSet.set cs <> [].
Proof.
  destruct inv as [Hw _]. unfold CacheSet.getSize in full.
  destruct (CacheSet.set cs); [cbn in full; lia | congruence].
Qed.

Lemma full_back :
  exists last,
    CacheSet.back (CacheSet.set cs) = Some last
    /\ CacheSet.set cs = removelast (CacheSet.set cs) ++ [last]
    /\ CacheEntry.copy last = last.
Proof.
  destruct (back_defined _ full_nonempty) as [last [Hb Hl]].
  exists last. repeat split; try assumption.
  apply copy_of_stored. destruct inv as [_ [_ [_ Hs]]].
  exact (back_Forall _ _ _ Hs Hb).
Qed.

Lemma insertLru_full :
  exists last,
    CacheSet.set cs = removelast (CacheSet.set cs) ++ [last]
    /\ LruSet.insertLru arg cs
       = Some (last,
               CacheSet.with_set
                 (removelast (CacheSet.set cs) ++ [CacheEntry.copy arg]) cs).
Proof.
  destruct full_back as [last [Hb [Hl Hc]]]. exists last. split; [exact Hl|].
  unfold LruSet.insertLru.
  destruct (Z.ltb_spec (CacheSet.getSize cs) (CacheSet.ways cs)); [lia|].
  rewrite Hb. cbn [bind]. now rewrite Hc.
Qed.

Lemma inserMru_full :
  exists last,
    CacheSet.set cs = removelast (CacheSet.set cs) ++ [last]
    /\ LruSet.inserMru arg cs
       = Some (last,
               CacheSet.with_set
                 (CacheEntry.copy arg :: removelast (CacheSet.set cs)) cs).
Proof.
  destruct full_back as [last [Hb [Hl Hc]]]. exists last. split; [exact Hl|].
  unfold LruSet.inserMru.
  destruct (Z.ltb_spec (CacheSet.getSize cs) (CacheSet.ways cs)); [lia|].
  rewrite Hb. cbn [bind]. now rewrite Hc.
Qed.

End Insertion.

Section Lookup.

Variable cs : CacheSet.t.
Variable tag : Z.
Hypothesis inv : set_inv cs.

Let lines_defined : Forall (fun e => tag_defined e = true) (CacheSet.set cs).
Proof. now destruct inv as [_ [_ [H _]]]. Qed.

Let lines_stored : Forall stored (CacheSet.set cs).
Proof. now destruct inv as [_ [_ [_ H]]]. Qed.

(** A miss: every method returns a blank entry and leaves the set alone. *)
Lemma lookup_miss :
  CacheSet.find tag (CacheSet.set cs) = Some None ->
  LruSet.read tag cs = Some (CacheEntry.default, cs)
  /\ LruSet.writeBack tag cs = Some (CacheEntry.default, cs)
  /\ CacheSet.retrieve tag cs = Some (CacheEntry.default, cs)
  /\ CacheSet.seek tag cs = Some (CacheEntry.default, cs)
  /\ CacheSet.contains tag cs = Some false.
Proof.
  intros H. unfold LruSet.read, LruSet.writeBack, CacheSet.retrieve,
    CacheSet.seek, CacheSet.contains. rewrite H. now cbn [bind].
Qed.

Variables (before after : list CacheEntry.t) (x : CacheEntry.t).
Hypothesis hit : CacheSet.find tag (CacheSet.set cs) = Some (Some (before, x, after)).
Hypothesis position : found tag (CacheSet.set cs) (Some (before, x, after)).

Let x_defined : tag_defined x = true.
Proof.
  destruct position as [E _]. pose proof lines_defined as H. rewrite E in H.
  apply Forall_app in H as [_ H]. now inversion H.
Qed.

Let x_stored : CacheEntry.copy x = x.
Proof.
  apply copy_of_stored.
  destruct position as [E _]. pose proof lines_stored as H. rewrite E in H.
  apply Forall_app in H as [_ H]. now inversion H.
Qed.

Lemma without_hit :
  without x (CacheSet.set cs) = before ++ without x after.
Proof.
  destruct position as [E [Hx Hb]]. rewrite E, without_app.
  rewrite (without_absent x before) by (now apply absent_same_tag with tag).
  f_equal. cbn [without filter]. now rewrite (same_tag_refl x x_defined).
Qed.

Lemma read_hit :
  LruSet.read tag cs
  = Some (x, CacheSet.with_set (x :: before ++ without x after) cs).
Proof.
  unfold LruSet.read. rewrite hit. cbn [bind]. rewrite x_stored.
  rewrite remove_defined by (exact lines_defined || exact x_defined).
  cbn [bind]. now rewrite x_stored, without_hit.
Qed.

Lemma retrieve_hit :
  CacheSet.retrieve tag cs
  = Some (x, CacheSet.with_set (before ++ without x after) cs).
Proof.
  unfold CacheSet.retrieve. rewrite hit. cbn [bind].
  rewrite remove_defined by (exact lines_defined || exact x_defined).
  cbn [bind]. now rewrite x_stored, without_hit.
Qed.

Lemma seek_hit : CacheSet.seek tag cs = Some (x, cs).
Proof.
  unfold CacheSet.seek. rewrite hit. cbn [bind]. now rewrite x_stored.
Qed.

Lemma contains_hit : CacheSet.contains tag cs = Some true.
Proof. unfold CacheSet.contains. now rewrite hit. Qed.

Lemma setDirty_stored :
  CacheEntry.copy (CacheEntry.setDirty true x) = CacheEntry.setDirty true x.
Proof.
  apply copy_of_stored. rewrite <- x_stored. split; reflexivity.
Qed.

Lemma writeBack_hit :
  LruSet.writeBack tag cs
  = Some (CacheEntry.setDirty true x,
          CacheSet.with_set
            (CacheEntry.setDirty true x :: before ++ without x after) cs).
Proof.
  unfold LruSet.writeBack. rewrite hit. cbn [bind].
  rewrite setDirty_stored.
  destruct position as [E [Hx Hb]].
  assert (Hd : Forall (fun e => tag_defined e = true)
                 (before ++ CacheEntry.setDirty true x :: after)).
  { pose proof lines_defined as H. rewrite E in H.
    apply Forall_app in H as [H1 H2]. apply Forall_app. split; [exact H1|].
    inversion H2; subst. constructor; assumption. }
  rewrite remove_defined by (exact Hd || exact x_defined).
  cbn [bind]. rewrite setDirty_stored. do 3 f_equal.
  rewrite without_app. cbn [without filter].
  change (same_tag (CacheEntry.setDirty true x) (CacheEntry.setDirty true x))
    with (same_tag x x).
  rewrite (same_tag_refl x x_defined). cbn [negb].
  f_equal. change (filter _ after) with (without x after). f_equal.
  apply (without_absent (CacheEntry.setDirty true x) before).
  now apply absent_same_tag with tag.
Qed.

End Lookup.

(** * Invariants of a set under any sequence of calls *)

Section Invariant.

Lemma set_inv_with_set (cs : CacheSet.t) (l : list CacheEntry.t) :
  1 <= CacheSet.ways cs ->
  Z.of_nat (length l) <= CacheSet.ways cs ->
  Forall (fun e => tag_defined e = true) l ->
  Forall stored l ->
  set_inv (CacheSet.with_set l cs).
Proof. intros H1 H2 H3 H4. repeat split; assumption. Qed.

Lemma new_defined (c b s : Z) :
  0 <= s < 64 -> CacheSet.new c b s = Some (CacheSet.mk (2 ^ s) c b s []).
Proof.
  intros Hs. unfold CacheSet.new. rewrite shl_defined by assumption.
  cbn [bind]. rewrite Z.shiftl_mul_pow2, Z.mul_1_l by lia.
  rewrite wrap_small; [reflexivity|].
  unfold U64.in_range. rewrite modulus_value.
  assert (0 < 2 ^ s) by (apply Z.pow_pos_nonneg; lia).
  assert (2 ^ s <= 2 ^ 63) by (apply Z.pow_le_mono_r; lia).
  change (2 ^ 63) with 9223372036854775808 in *. lia.
Qed.

Lemma new_inv (c b s : Z) :
  0 <= s < 64 -> set_inv (CacheSet.mk (2 ^ s) c b s []).
Proof.
  intros Hs. assert (0 < 2 ^ s) by (apply Z.pow_pos_nonneg; lia).
  unfold set_inv, within_capacity. cbn.
  repeat split; try apply Forall_nil; lia.
Qed.

Lemma stored_setDirty (d : bool) (x : CacheEntry.t) :
  stored x -> stored (CacheEntry.setDirty d x).
Proof. intros [H1 H2]. split; assumption. Qed.

(** The part of the invariant that an insertion has to re-establish. *)
Lemma insertion_inv (cs : CacheSet.t) (e : CacheEntry.t) :
  set_inv cs -> tag_defined e = true ->
  (CacheSet.getSize cs < CacheSet.ways cs ->
   set_inv (CacheSet.with_set (CacheEntry.copy e :: CacheSet.set cs) cs)
   /\ set_inv (CacheSet.with_set (CacheSet.set cs ++ [CacheEntry.copy e]) cs))
  /\ (CacheSet.ways cs <= CacheSet.getSize cs ->
      set_inv (CacheSet.with_set (CacheEntry.copy e :: removelast (CacheSet.set cs)) cs)
      /\ set_inv (CacheSet.with_set (removelast (CacheSet.set cs) ++ [CacheEntry.copy e]) cs)).
Proof.
  intros Hinv He. pose proof Hinv as [Hw [Hc [Hd Hs]]].
  unfold within_capacity, CacheSet.getSize in *. split; intros Hsize.
  - split; apply set_inv_with_set; try assumption.
    + cbn [length]. lia.
    + now constructor.
    + constructor; [apply copy_stored | assumption].
    + rewrite length_app. cbn [length]. lia.
    + apply Forall_app. split; [assumption | now repeat constructor].
    + apply Forall_app. split; [assumption|].
      constructor; [apply copy_stored | constructor].
  - assert (Hne : CacheSet.set cs <> []) by exact (full_nonempty cs Hinv Hsize).
    pose proof (removelast_length _ Hne) as Hlen.
    split; apply set_inv_with_set; try assumption.
    + cbn [length]. lia.
    + constructor; [assumption | now apply removelast_Forall].
    + constructor; [apply copy_stored | now apply removelast_Forall].
    + rewrite length_app. cbn [length]. lia.
    + apply Forall_app. split; [now apply removelast_Forall | now repeat constructor].
    + apply Forall_app. split; [now apply removelast_Forall|].
      constructor; [apply copy_stored | constructor].
Qed.

(** The part of the invariant that a hit has to re-establish. *)
Lemma hit_inv (cs : CacheSet.t) (tag : Z) before x after :
  set_inv cs -> found tag (CacheSet.set cs) (Some (before, x, after)) ->
  forall y, tag_defined y = tag_defined x -> stored y ->
  set_inv (CacheSet.with_set (y :: before ++ without x after) cs)
  /\ set_inv (CacheSet.with_set (before ++ without x after) cs).
Proof.
  intros [Hw [Hc [Hd Hs]]] [E _] y Hy Hsy.
  unfold within_capacity in Hc. rewrite E in Hc, Hd, Hs.
  rewrite length_app in Hc. cbn [length] in Hc.
  pose proof (without_length x after) as Hlen.
  apply Forall_app in Hd as [Hd1 Hd2]. inversion Hd2 as [| ? ? Hdx Hda]; subst.
  apply Forall_app in Hs as [Hs1 Hs2]. inversion Hs2 as [| ? ? Hsx Hsa]; subst.
  assert (Forall (fun e => tag_defined e = true) (before ++ without x after)).
  { apply Forall_app. split; [assumption | now apply without_Forall]. }
  assert (Forall stored (before ++ without x after)).
  { apply Forall_app. split; [assumption | now apply without_Forall]. }
  split; apply set_inv_with_set; try assumption.
  - cbn [length]. rewrite length_app. lia.
  - constructor; [congruence | assumption].
  - now constructor.
  - rewrite length_app. lia.
Qed.

Lemma lru_step_inv (call : lru_call) (cs : CacheSet.t) :
  set_inv cs -> call_defined call = true ->
  exists cs',
    lru_step call cs = Some cs'
    /\ set_inv cs'
    /\ CacheSet.ways cs' = CacheSet.ways cs
    /\ CacheSet.s cs' = CacheSet.s cs.
Proof.
  intros Hinv Hcall.
  assert (Hfind : forall tag, exists it,
             CacheSet.find tag (CacheSet.set cs) = Some it
             /\ found tag (CacheSet.set cs) it).
  { intros tag. apply find_defined. now destruct Hinv as [_ [_ [H _]]]. }
  destruct call as [e | e | tag | tag | tag | tag | tag]; cbn [lru_step call_defined] in *.
  - destruct (insertion_inv cs e Hinv Hcall) as [Hroom Hfull].
    destruct (Z.lt_ge_cases (CacheSet.getSize cs) (CacheSet.ways cs)) as [Hlt | Hge].
    + rewrite insertLru_room by assumption. cbn [bind].
      eexists. split; [reflexivity|]. split; [now apply Hroom | split; reflexivity].
    + destruct (insertLru_full cs e Hinv Hge) as [last [_ ->]]. cbn [bind].
      eexists. split; [reflexivity|]. split; [now apply Hfull | split; reflexivity].
  - destruct (insertion_inv cs e Hinv Hcall) as [Hroom Hfull].
    destruct (Z.lt_ge_cases (CacheSet.getSize cs) (CacheSet.ways cs)) as [Hlt | Hge].
    + rewrite inserMru_room by assumption. cbn [bind].
      eexists. split; [reflexivity|]. split; [now apply Hroom | split; reflexivity].
    + destruct (inserMru_full cs e Hinv Hge) as [last [_ ->]]. cbn [bind].
      eexists. split; [reflexivity|]. split; [now apply Hfull | split; reflexivity].
  - destruct (Hfind tag) as [[[[before x] after] |] [Hit Hpos]].
    + rewrite (read_hit cs tag Hinv before after x Hit Hpos). cbn [bind].
      eexists. split; [reflexivity|]. split; [|split; reflexivity].
      apply (hit_inv cs tag before x after Hinv Hpos x eq_refl).
      destruct Hinv as [_ [_ [_ Hs]]]. destruct Hpos as [E _]. rewrite E in Hs.
      apply Forall_app in Hs as [_ Hs]. now inversion Hs.
    + destruct (lookup_miss cs tag Hit) as [-> _]. cbn [bind].
      exists cs. repeat split; try reflexivity; apply Hinv.
  - destruct (Hfind tag) as [[[[before x] after] |] [Hit Hpos]].
    + rewrite (writeBack_hit cs tag Hinv before after x Hit Hpos). cbn [bind].
      eexists. split; [reflexivity|]. split; [|split; reflexivity].
      apply (hit_inv cs tag before x after Hinv Hpos _ (tag_defined_setDirty true x)).
      apply stored_setDirty.
      destruct Hinv as [_ [_ [_ Hs]]]. destruct Hpos as [E _]. rewrite E in Hs.
      apply Forall_app in Hs as [_ Hs]. now inversion Hs.
    + destruct (lookup_miss cs tag Hit) as [_ [-> _]]. cbn [bind].
      exists cs. repeat split; try reflexivity; apply Hinv.
  - destruct (Hfind tag) as [[[[before x] after] |] [Hit Hpos]].
    + rewrite (retrieve_hit cs tag Hinv before after x Hit Hpos). cbn [bind].
      eexists. split; [reflexivity|]. split; [|split; reflexivity].
      apply (hit_inv cs tag before x after Hinv Hpos x eq_refl).
      destruct Hinv as [_ [_ [_ Hs]]]. destruct Hpos as [E _]. rewrite E in Hs.
      apply Forall_app in Hs as [_ Hs]. now inversion Hs.
    + destruct (lookup_miss cs tag Hit) as [_ [_ [-> _]]]. cbn [bind].
      exists cs. repeat split; try reflexivity; apply Hinv.
  - destruct (Hfind tag) as [[[[before x] after] |] [Hit Hpos]].
    + rewrite (seek_hit cs tag Hinv before after x Hit Hpos). cbn [bind].
      exists cs. repeat split; try reflexivity; apply Hinv.
    + destruct (lookup_miss cs tag Hit) as [_ [_ [_ [-> _]]]]. cbn [bind].
      exists cs. repeat split; try reflexivity; apply Hinv.
  - destruct (Hfind tag) as [[[[before x] after] |] [Hit Hpos]].
    + rewrite (contains_hit cs tag before after x Hit). cbn [bind].
      exists cs. repeat split; try reflexivity; apply Hinv.
    + destruct (lookup_miss cs tag Hit) as [_ [_ [_ [_ ->]]]]. cbn [bind].
      exists cs. repeat split; try reflexivity; apply Hinv.
Qed.

Lemma lru_run_inv (calls : list lru_call) :
  forall cs,
    set_inv cs -> Forall (fun call => call_defined call = true) calls ->
    exists cs',
      lru_run calls cs = Some cs'
      /\ set_inv cs'
      /\ CacheSet.ways cs' = CacheSet.ways cs
      /\ CacheSet.s cs' = CacheSet.s cs.
Proof.
  induction calls as [| call rest IH]; intros cs Hinv Hcalls.
  - exists cs. repeat split; try reflexivity; apply Hinv.
  - inversion Hcalls as [| ? ? Hcall Hrest]; subst.
    destruct (lru_step_inv call cs Hinv Hcall) as [cs1 [E1 [Hinv1 [Hw1 Hs1]]]].
    destruct (IH cs1 Hinv1 Hrest) as [cs2 [E2 [Hinv2 [Hw2 Hs2]]]].
    exists cs2. cbn [lru_run]. rewrite E1. cbn [bind].
    repeat split; try assumption; try apply Hinv2; congruence.
Qed.

End Invariant.

Section Victim.

(** [VictimSet::insert] is [LruSet::inserMru] on the inherited list. *)
Lemma victim_insert_inserMru (arg : CacheEntry.t) (vs : VictimSet.t) :
  VictimSet.insert arg vs = VictimSet.lift (LruSet.inserMru arg) vs.
Proof.
  unfold VictimSet.insert, VictimSet.lift, LruSet.inserMru.
  destruct (CacheSet.getSize (VictimSet.super vs) <? CacheSet.ways (VictimSet.super vs));
    [reflexivity|].
  now destruct (CacheSet.back (CacheSet.set (VictimSet.super vs))).
Qed.

Lemma victim_step_lru (call : victim_call) (vs : VictimSet.t) :
  victim_step call vs
  = match call with
    | victim_insert e =>
        cs <- lru_step (call_inserMru e) (VictimSet.super vs) ;;
        Some (VictimSet.mk cs (VictimSet.v vs))
    | victim_retrieve tag =>
        cs <- lru_step (call_retrieve tag) (VictimSet.super vs) ;;
        Some (VictimSet.mk cs (VictimSet.v vs))
    | victim_seek tag =>
        cs <- lru_step (call_seek tag) (VictimSet.super vs) ;;
        Some (VictimSet.mk cs (VictimSet.v vs))
    | victim_contains tag =>
        cs <- lru_step (call_contains tag) (VictimSet.super vs) ;;
        Some vs
    end.
Proof.
  destruct call as [e | tag | tag | tag]; cbn [victim_step lru_step].
  - rewrite victim_insert_inserMru. unfold VictimSet.lift.
    now destruct (LruSet.inserMru e (VictimSet.super vs)) as [[r cs] |].
  - unfold VictimSet.retrieve, VictimSet.lift.
    now destruct (CacheSet.retrieve tag (VictimSet.super vs)) as [[r cs] |].
  - unfold VictimSet.seek, VictimSet.lift.
    now destruct (CacheSet.seek tag (VictimSet.super vs)) as [[r cs] |].
  - unfold VictimSet.contains.
    now destruct (CacheSet.contains tag (VictimSet.super vs)).
Qed.

Lemma victim_step_inv (call : victim_call) (vs : VictimSet.t) :
  set_inv (VictimSet.super vs) -> victim_call_defined call = true ->
  exists vs',
    victim_step call vs = Some vs'
    /\ set_inv (VictimSet.super vs')
    /\ CacheSet.ways (VictimSet.super vs') = CacheSet.ways (VictimSet.super vs)
    /\ CacheSet.s (VictimSet.super vs') = CacheSet.s (VictimSet.super vs).
Proof.
  intros Hinv Hcall.
  assert (Hc : call_defined (as_lru_call call) = true) by now destruct call.
  destruct (lru_step_inv _ _ Hinv Hc) as [cs [E [Hinv' [Hw Hs]]]].
  rewrite victim_step_lru.
  destruct call as [e | tag | tag | tag]; cbn [as_lru_call] in E;
    rewrite E; cbn [bind]; eexists; (split; [reflexivity|]);
    cbn [VictimSet.super];
    (split; [assumption | split; (assumption || reflexivity)]).
Qed.

Lemma victim_run_inv (calls : list victim_call) :
  forall vs,
    set_inv (VictimSet.super vs) ->
    Forall (fun call => victim_call_defined call = true) calls ->
    exists vs',
      victim_run calls vs = Some vs'
      /\ set_inv (VictimSet.super vs')
      /\ CacheSet.ways (VictimSet.super vs') = CacheSet.ways (VictimSet.super vs)
      /\ CacheSet.s (VictimSet.super vs') = CacheSet.s (VictimSet.super vs).
Proof.
  induction calls as [| call rest IH]; intros vs Hinv Hcalls.
  - exists vs. repeat split; try reflexivity; apply Hinv.
  - inversion Hcalls as [| ? ? Hcall Hrest]; subst.
    destruct (victim_step_inv call vs Hinv Hcall) as [vs1 [E1 [Hinv1 [Hw1 Hs1]]]].
    destruct (IH vs1 Hinv1 Hrest) as [vs2 [E2 [Hinv2 [Hw2 Hs2]]]].
    exists vs2. cbn [victim_run]. rewrite E1. cbn [bind].
    repeat split; try assumption; try apply Hinv2; congruence.
Qed.

Lemma clog2_defined (v : Z) :
  0 < v <= 2 ^ 63 ->
  clog2 v = Some (Z.log2_up v) /\ 0 <= Z.log2_up v < 64.
Proof.
  intros [Hpos Hle]. unfold clog2.
  destruct (Z.eqb_spec v 0); [lia|]. split; [reflexivity|].
  split; [apply Z.log2_up_nonneg|].
  apply Z.log2_up_le_pow2 in Hle; lia.
Qed.

Lemma victim_new_defined (v b : Z) :
  0 < v <= 2 ^ 63 ->
  VictimSet.new v b
  = Some (VictimSet.mk
            (CacheSet.mk (2 ^ Z.log2_up v) (U64.add (Z.log2_up v) b) b (Z.log2_up v) [])
            v).
Proof.
  intros Hv. destruct (clog2_defined v Hv) as [E Hbits].
  unfold VictimSet.new. rewrite E. cbn [bind].
  now rewrite new_defined by assumption.
Qed.

Lemma occupancy_le_size (cs : CacheSet.t) :
  occupancy cs <= Z.of_nat (length (CacheSet.set cs)).
Proof.
  unfold occupancy. apply Nat2Z.inj_le. apply filter_length_le.
Qed.

End Victim.

(** C7: from its construction on, and through any sequence of calls, an
    [LruSet] built for associativity [2^s] and a [VictimSet] built for [v]
    blocks (so for [s = clog2 v]) hold at most [ways = 2^s] lines, blank or
    not. *)
Theorem capacity_never_exceeded
    (c b s : Z) (calls : list lru_call)
    (v vb : Z) (vcalls : list victim_call) :
  0 <= s < 64 ->
  Forall (fun call => call_defined call = true) calls ->
  0 < v <= 2 ^ 63 ->
  Forall (fun call => victim_call_defined call = true) vcalls ->
  (exists cs0 cs,
      LruSet.new c b s = Some cs0
      /\ lru_run calls cs0 = Some cs
      /\ CacheSet.ways cs = 2 ^ s
      /\ Z.of_nat (length (CacheSet.set cs)) <= CacheSet.ways cs
      /\ occupancy cs <= CacheSet.ways cs)
  /\ (exists vs0 vs bits,
         clog2 v = Some bits
         /\ VictimSet.new v vb = Some vs0
         /\ victim_run vcalls vs0 = Some vs
         /\ CacheSet.ways (VictimSet.super vs) = 2 ^ bits
         /\ Z.of_nat (length (VictimSet.entries vs)) <= CacheSet.ways (VictimSet.super vs)
         /\ occupancy (VictimSet.super vs) <= CacheSet.ways (VictimSet.super vs)).
Proof.
  intros Hs Hcalls Hv Hvcalls. split.
  - destruct (lru_run_inv calls _ (new_inv c b s Hs) Hcalls)
      as [cs [Erun [Hinv [Hw _]]]].
    exists (CacheSet.mk (2 ^ s) c b s []), cs.
    split; [now apply new_defined|]. split; [exact Erun|].
    split; [exact Hw|]. destruct Hinv as [_ [Hc _]].
    split; [exact Hc|]. pose proof (occupancy_le_size cs).
    unfold within_capacity in Hc. lia.
  - destruct (clog2_defined v Hv) as [Ebits Hbits].
    set (vs0 := VictimSet.mk
                  (CacheSet.mk (2 ^ Z.log2_up v) (U64.add (Z.log2_up v) vb) vb
                     (Z.log2_up v) []) v).
    destruct (victim_run_inv vcalls vs0 (new_inv _ _ _ Hbits) Hvcalls)
      as [vs [Erun [Hinv [Hw _]]]].
    exists vs0, vs, (Z.log2_up v).
    split; [exact Ebits|]. split; [now apply victim_new_defined|].
    split; [exact Erun|]. split; [exact Hw|]. destruct Hinv as [_ [Hc _]].
    split; [exact Hc|]. pose proof (occupancy_le_size (VictimSet.super vs)).
    unfold within_capacity in Hc. lia.
Qed.

(** * Recency order of an [LruSet] *)

Section Stamps.

Lemma map_removelast {A B : Type} (f : A -> B) (l : list A) :
  map f (removelast l) = removelast (map f l).
Proof.
  induction l as [| a [| a' rest] IH]; try reflexivity.
  change (f a :: map f (removelast (a' :: rest))
          = f a :: removelast (map f (a' :: rest))).
  now rewrite IH.
Qed.

Lemma newest_first_filter (f : Recency.stamped -> bool) (l : list Recency.stamped) :
  newest_first l -> newest_first (filter f l).
Proof.
  induction l as [| p rest IH]; [trivial|]. intros [Hp Hrest].
  cbn [filter]. destruct (f p); [|now apply IH].
  split; [|now apply IH].
  apply Forall_forall. intros q Hq. apply filter_In in Hq as [Hq _].
  rewrite Forall_forall in Hp. now apply Hp.
Qed.

Lemma newest_first_app (l1 l2 : list Recency.stamped) :
  newest_first (l1 ++ l2) ->
  newest_first l1
  /\ Forall (fun p => Forall (fun q => (snd q < snd p)%nat) l2) l1.
Proof.
  induction l1 as [| p rest IH]; [now split|]. intros [Hp Hrest].
  apply Forall_app in Hp as [Hp1 Hp2]. destruct (IH Hrest) as [H1 H2].
  split; [now split | now constructor].
Qed.

Lemma newest_first_push (now : nat) (x : CacheEntry.t) (l : list Recency.stamped) :
  stamp_inv now l -> stamp_inv (S now) ((x, now) :: l).
Proof.
  intros [Hn Hb]. split.
  - split; assumption.
  - constructor; [cbn; lia|]. eapply Forall_impl; [|exact Hb]. cbn. intros; lia.
Qed.

Lemma stamp_inv_filter (f : Recency.stamped -> bool) now l :
  stamp_inv now l -> stamp_inv now (filter f l).
Proof.
  intros [Hn Hb]. split; [now apply newest_first_filter|].
  apply Forall_forall. intros q Hq. apply filter_In in Hq as [Hq _].
  rewrite Forall_forall in Hb. now apply Hb.
Qed.

Lemma stamp_inv_removelast now l :
  stamp_inv now l -> stamp_inv now (removelast l).
Proof.
  intros [Hn Hb]. destruct l as [| p rest]; [now split|].
  assert (E : p :: rest = removelast (p :: rest) ++ [last (p :: rest) p])
    by (apply app_removelast_last; congruence).
  rewrite E in Hn, Hb. split.
  - now apply newest_first_app in Hn as [Hn _].
  - now apply Forall_app in Hb as [Hb _].
Qed.

Lemma stamped_remove_defined (value : CacheEntry.t) (l : list Recency.stamped) :
  Forall (fun e => tag_defined e = true) (map fst l) ->
  tag_defined value = true ->
  Recency.remove value l
  = Some (filter (fun p => negb (same_tag (fst p) value)) l).
Proof.
  intros Hl Hv. induction l as [| p rest IH]; [reflexivity|].
  inversion Hl as [| ? ? Hp Hrest]; subst.
  cbn [Recency.remove filter].
  rewrite (eq_entry_defined (fst p) value Hp Hv). cbn [bind].
  rewrite (IH Hrest). cbn [bind].
  now destruct (same_tag (fst p) value).
Qed.

Lemma stamped_without (value : CacheEntry.t) (l : list Recency.stamped) :
  map fst (filter (fun p => negb (same_tag (fst p) value)) l)
  = without value (map fst l).
Proof.
  unfold without. symmetry.
  apply (filter_map_swap (fun e => negb (same_tag e value)) fst l).
Qed.

(** [std::find] on a list whose first line of tag [tag] is [x]. *)
Lemma find_first (tag : Z) (before after : list CacheEntry.t) (x : CacheEntry.t) :
  Forall (fun e => tag_defined e = true) before ->
  Forall (fun y => CacheEntry.getTag y <> Some tag) before ->
  CacheEntry.getTag x = Some tag ->
  CacheSet.find tag (before ++ x :: after) = Some (Some (before, x, after)).
Proof.
  intros Hd Hb Hx. induction before as [| y rest IH]; cbn [app CacheSet.find].
  - unfold CacheEntry.eq_tag. rewrite Hx. cbn [bind]. now rewrite Z.eqb_refl.
  - inversion Hd as [| ? ? Hdy Hdrest]; subst.
    inversion Hb as [| ? ? Hby Hbrest]; subst.
    destruct (getTag_defined y Hdy) as [t Et].
    unfold CacheEntry.eq_tag. rewrite Et. cbn [bind].
    destruct (Z.eqb_spec t tag) as [-> | Hne]; [congruence|].
    rewrite (IH Hdrest Hbrest). reflexivity.
Qed.

(** The stamped set follows the set of the program call by call. *)
Lemma stamped_step_follows (cl : Recency.call) (now : nat)
    (cs : CacheSet.t) (l : list Recency.stamped) :
  set_inv cs -> map fst l = CacheSet.set cs -> stamp_inv now l ->
  Recency.call_ok cl = true ->
  exists r cs' l',
    Recency.step cl cs = Some (r, cs')
    /\ Recency.stamped_step cl now (CacheSet.ways cs) l = Some l'
    /\ map fst l' = CacheSet.set cs'
    /\ stamp_inv (S now) l'
    /\ set_inv cs'
    /\ CacheSet.ways cs' = CacheSet.ways cs.
Proof.
  intros Hinv Hl Hst Hcl.
  assert (Hdef : Forall (fun e => tag_defined e = true) (map fst l))
    by (rewrite Hl; now destruct Hinv as [_ [_ [H _]]]).
  assert (Hfind : forall tag, exists it,
             CacheSet.find tag (CacheSet.set cs) = Some it
             /\ found tag (CacheSet.set cs) it).
  { intros tag. apply find_defined. now destruct Hinv as [_ [_ [H _]]]. }
  assert (Hx : forall tag before x after,
             found tag (CacheSet.set cs) (Some (before, x, after)) ->
             tag_defined x = true /\ stored x).
  { intros tag before x after [E _]. destruct Hinv as [_ [_ [Hd Hs]]].
    rewrite E in Hd, Hs. apply Forall_app in Hd as [_ Hd], Hs as [_ Hs].
    inversion Hd; inversion Hs; now subst. }
  destruct cl as [tag | tag | e]; cbn [Recency.step Recency.stamped_step Recency.call_ok] in *.
  - destruct (Hfind tag) as [[[[before x] after] |] [Hit Hpos]].
    + destruct (Hx _ _ _ _ Hpos) as [Hdx Hsx].
      destruct (lru_step_inv (call_read tag) cs Hinv eq_refl) as [cs1 [E1 [Hinv1 [Hw1 _]]]].
      cbn [lru_step] in E1.
      rewrite (read_hit cs tag Hinv before after x Hit Hpos) in *.
      cbn [bind] in E1. injection E1 as <-.
      rewrite Hl, Hit. cbn [bind].
      rewrite stamped_remove_defined by assumption. cbn [bind].
      do 3 eexists. split; [reflexivity|]. split; [reflexivity|].
      split; [|split; [|split; [exact Hinv1 | reflexivity]]].
      * cbn [map fst]. rewrite !(copy_of_stored x Hsx), stamped_without, Hl.
        cbn [CacheSet.with_set CacheSet.set]. f_equal.
        apply (without_hit cs tag Hinv before after x Hpos).
      * apply newest_first_push. now apply stamp_inv_filter.
    + destruct (lookup_miss cs tag Hit) as [-> _].
      rewrite Hl, Hit. cbn [bind].
      do 3 eexists. split; [reflexivity|]. split; [reflexivity|].
      split; [exact Hl|]. split; [|split; [exact Hinv | reflexivity]].
      destruct Hst as [Hn Hb]. split; [exact Hn|].
      eapply Forall_impl; [|exact Hb]. cbn. intros; lia.
  - destruct (Hfind tag) as [[[[before x] after] |] [Hit Hpos]].
    + destruct (Hx _ _ _ _ Hpos) as [Hdx Hsx].
      destruct (lru_step_inv (call_writeBack tag) cs Hinv eq_refl)
        as [cs1 [E1 [Hinv1 [Hw1 _]]]].
      cbn [lru_step] in E1.
      rewrite (writeBack_hit cs tag Hinv before after x Hit Hpos) in *.
      cbn [bind] in E1. injection E1 as <-.
      rewrite Hl, Hit. cbn [bind].
      rewrite stamped_remove_defined by assumption. cbn [bind].
      do 3 eexists. split; [reflexivity|]. split; [reflexivity|].
      split; [|split; [|split; [exact Hinv1 | reflexivity]]].
      * cbn [map fst]. rewrite stamped_without, Hl.
        cbn [CacheSet.with_set CacheSet.set].
        rewrite !(setDirty_stored cs tag Hinv before after x Hpos). f_equal.
        apply (without_hit cs tag Hinv before after x Hpos).
      * apply newest_first_push. now apply stamp_inv_filter.
    + destruct (lookup_miss cs tag Hit) as [_ [-> _]].
      rewrite Hl, Hit. cbn [bind].
      do 3 eexists. split; [reflexivity|]. split; [reflexivity|].
      split; [exact Hl|]. split; [|split; [exact Hinv | reflexivity]].
      destruct Hst as [Hn Hb]. split; [exact Hn|].
      eapply Forall_impl; [|exact Hb]. cbn. intros; lia.
  - destruct (insertion_inv cs e Hinv Hcl) as [Hroom Hfull].
    assert (Hlen : Z.of_nat (length l) = CacheSet.getSize cs).
    { unfold CacheSet.getSize. now rewrite <- Hl, length_map. }
    rewrite Hlen.
    destruct (Z.lt_ge_cases (CacheSet.getSize cs) (CacheSet.ways cs)) as [Hlt | Hge].
    + rewrite inserMru_room by assumption.
      destruct (Z.ltb_spec (CacheSet.getSize cs) (CacheSet.ways cs)); [|lia].
      do 3 eexists. split; [reflexivity|]. split; [reflexivity|].
      split; [|split; [|split; [now apply Hroom | reflexivity]]].
      * cbn [map fst CacheSet.with_set CacheSet.set]. now rewrite Hl.
      * now apply newest_first_push.
    + destruct (inserMru_full cs e Hinv Hge) as [last [_ ->]].
      destruct (Z.ltb_spec (CacheSet.getSize cs) (CacheSet.ways cs)); [lia|].
      pose proof (full_nonempty cs Hinv Hge) as Hne.
      destruct l as [| p rest]; [now rewrite <- Hl in Hne|].
      do 3 eexists. split; [reflexivity|]. split; [reflexivity|].
      split; [|split; [|split; [now apply Hfull | reflexivity]]].
      * cbn [map fst CacheSet.with_set CacheSet.set].
        now rewrite map_removelast, Hl.
      * apply newest_first_push. now apply stamp_inv_removelast.
Qed.

Lemma stamped_run_follows (calls : list Recency.call) :
  forall now cs l,
    set_inv cs -> map fst l = CacheSet.set cs -> stamp_inv now l ->
    Forall (fun cl => Recency.call_ok cl = true) calls ->
    exists cs' l',
      Recency.run calls cs = Some cs'
      /\ Recency.stamped_run calls now (CacheSet.ways cs) l = Some l'
      /\ map fst l' = CacheSet.set cs'
      /\ newest_first l'
      /\ set_inv cs'
      /\ CacheSet.ways cs' = CacheSet.ways cs.
Proof.
  induction calls as [| cl rest IH]; intros now cs l Hinv Hl Hst Hcalls.
  - exists cs, l. split; [reflexivity|]. split; [reflexivity|].
    split; [exact Hl|]. split; [apply Hst|]. split; [exact Hinv | reflexivity].
  - inversion Hcalls as [| ? ? Hcl Hrest]; subst.
    destruct (stamped_step_follows cl now cs l Hinv Hl Hst Hcl)
      as [r [cs1 [l1 [E1 [G1 [Hl1 [Hst1 [Hinv1 Hw1]]]]]]]].
    destruct (IH (S now) cs1 l1 Hinv1 Hl1 Hst1 Hrest)
      as [cs2 [l2 [E2 [G2 [Hl2 [Hn2 [Hinv2 Hw2]]]]]]].
    exists cs2, l2. cbn [Recency.run Recency.stamped_run].
    rewrite E1, G1. cbn [bind]. rewrite <- Hw1, G2.
    split; [exact E2|]. split; [reflexivity|]. split; [exact Hl2|].
    split; [exact Hn2|]. split; [exact Hinv2 | congruence].
Qed.

End Stamps.

(** C5: after any sequence of [read], [writeBack] and [inserMru] calls on a
    fresh [LruSet], the list is ordered by the time of the last reference:
    pairing each line with the number of the call that last inserted or hit
    it gives stamps that decrease from head to tail.  So [inserMru] on a full
    set returns the line with the smallest stamp, and puts the new line at
    the head; with room left it puts the new line at the head and returns a
    blank entry; a hit by [read] or [writeBack] moves the line to the head
    ([writeBack] marking it dirty). *)
Theorem lru_evicts_least_recently_referenced
    (c b s : Z) (calls : list Recency.call) :
  0 <= s < 64 ->
  Forall (fun cl => Recency.call_ok cl = true) calls ->
  exists cs0 cs stamps,
    LruSet.new c b s = Some cs0
    /\ Recency.run calls cs0 = Some cs
    /\ Recency.stamped_run calls 0 (2 ^ s) [] = Some stamps
    /\ map fst stamps = CacheSet.set cs
    /\ (forall e,
          CacheSet.ways cs <= CacheSet.getSize cs ->
          exists rest victim t,
            stamps = rest ++ [(victim, t)]
            /\ Forall (fun p => (t < snd p)%nat) rest
            /\ LruSet.inserMru e cs
               = Some (victim,
                       CacheSet.with_set (CacheEntry.copy e :: map fst rest) cs))
    /\ (forall e,
          CacheSet.getSize cs < CacheSet.ways cs ->
          exists r,
            CacheEntry.isBlank r = true
            /\ LruSet.inserMru e cs
               = Some (r, CacheSet.with_set
                            (CacheEntry.copy e :: CacheSet.set cs) cs))
    /\ (forall tag before x after,
          CacheSet.set cs = before ++ x :: after ->
          CacheEntry.getTag x = Some tag ->
          Forall (fun y => CacheEntry.getTag y <> Some tag) before ->
          LruSet.read tag cs
          = Some (x, CacheSet.with_set (x :: before ++ without x after) cs)
          /\ LruSet.writeBack tag cs
             = Some (CacheEntry.setDirty true x,
                     CacheSet.with_set
                       (CacheEntry.setDirty true x :: before ++ without x after)
                       cs)).
Proof.
  intros Hs Hcalls.
  destruct (stamped_run_follows calls 0%nat (CacheSet.mk (2 ^ s) c b s []) []
              (new_inv c b s Hs) eq_refl (conj I (Forall_nil _)) Hcalls)
    as [cs [stamps [Erun [Gst [Hl [Hn [Hinv Hw]]]]]]].
  exists (CacheSet.mk (2 ^ s) c b s []), cs, stamps.
  split; [now apply new_defined|]. split; [exact Erun|].
  split; [exact Gst|]. split; [exact Hl|]. split; [|split].
  - intros e Hfull.
    destruct (inserMru_full cs e Hinv Hfull) as [last [Eset Eins]].
    pose proof (full_nonempty cs Hinv Hfull) as Hne.
    assert (Hne' : stamps <> []).
    { intros ->. now rewrite <- Hl in Hne. }
    destruct (exists_last Hne') as [rest [[victim t] Est]].
    subst stamps. rewrite map_app in Hl. cbn [map fst] in Hl.
    rewrite Eset in Hl. apply app_inj_tail in Hl as [Hrest Hv].
    exists rest, victim, t. split; [reflexivity|]. split.
    + apply newest_first_app in Hn as [_ Hn].
      eapply Forall_impl; [|exact Hn]. intros q Hq. now inversion Hq.
    + rewrite Eins. subst victim. do 4 f_equal. symmetry. exact Hrest.
  - intros e Hroom. exists CacheEntry.default. split; [reflexivity|].
    now apply inserMru_room.
  - intros tag before x after Eset Hx Hb.
    assert (Hit : CacheSet.find tag (CacheSet.set cs) = Some (Some (before, x, after))).
    { rewrite Eset. apply find_first; try assumption.
      destruct Hinv as [_ [_ [Hd _]]]. rewrite Eset in Hd.
      now apply Forall_app in Hd as [Hd _]. }
    assert (Hpos : found tag (CacheSet.set cs) (Some (before, x, after)))
      by (repeat split; assumption).
    split.
    + exact (read_hit cs tag Hinv before after x Hit Hpos).
    + exact (writeBack_hit cs tag Hinv before after x Hit Hpos).
Qed.

(** Four calls on a two-way set: insert A, insert B, read A, and the set is
    full with B the least recently referenced line. *)
Lemma lru_evicts_least_recently_referenced_witness :
  exists cs stamps,
    Recency.run
      [Recency.ref_inserMru (CacheEntry.make 0 false 10 5 1);
       Recency.ref_inserMru (CacheEntry.make 1024 false 10 5 1);
       Recency.ref_read 0]
      (CacheSet.mk 2 10 5 1 []) = Some cs
    /\ map fst stamps = CacheSet.set cs
    /\ map snd stamps = [2%nat; 1%nat].
Proof.
  destruct (lru_evicts_least_recently_referenced 10 5 1
              [Recency.ref_inserMru (CacheEntry.make 0 false 10 5 1);
               Recency.ref_inserMru (CacheEntry.make 1024 false 10 5 1);
               Recency.ref_read 0])
    as [cs0 [cs [stamps [E0 [Erun [Est [Hl _]]]]]]].
  - lia.
  - repeat constructor.
  - exists cs, stamps. vm_compute in E0. injection E0 as <-.
    split; [exact Erun|]. split; [exact Hl|].
    vm_compute in Est. injection Est as <-. reflexivity.
Defined.

(** * Stored lines are copies *)

Section Copies.

Lemma find_split (tag : Z) (l : list CacheEntry.t) before x after :
  CacheSet.find tag l = Some (Some (before, x, after)) -> l = before ++ x :: after.
Proof.
  revert before. induction l as [| y rest IH]; intros before H; [discriminate|].
  cbn [CacheSet.find] in H.
  destruct (CacheEntry.eq_tag y tag) as [[|]|]; cbn [bind] in H; try discriminate.
  - now injection H as <- <- <-.
  - destruct (CacheSet.find tag rest) as [[[[b' x'] a'] |] |];
      cbn [bind CacheSet.step_cursor] in H; try discriminate.
    injection H as <- <- <-. cbn [app]. f_equal. now apply IH.
Qed.

Lemma remove_sublist (P : CacheEntry.t -> Prop) value l l' :
  CacheSet.remove value l = Some l' -> Forall P l -> Forall P l'.
Proof.
  revert l'. induction l as [| y rest IH]; intros l' H Hl.
  - injection H as <-. constructor.
  - inversion Hl as [| ? ? Hy Hrest]; subst. cbn [CacheSet.remove] in H.
    destruct (CacheEntry.eq_entry y value) as [same|]; cbn [bind] in H; [|discriminate].
    destruct (CacheSet.remove value rest) as [rest'|]; cbn [bind] in H; [|discriminate].
    injection H as <-. specialize (IH rest' eq_refl Hrest).
    destruct same; [assumption | now constructor].
Qed.

Lemma lru_step_stored (call : lru_call) (cs cs' : CacheSet.t) :
  lru_step call cs = Some cs' ->
  Forall stored (CacheSet.set cs) -> Forall stored (CacheSet.set cs').
Proof.
  intros H Hs.
  destruct call as [e | e | tag | tag | tag | tag | tag]; cbn [lru_step] in H.
  - unfold LruSet.insertLru in H.
    destruct (CacheSet.getSize cs <? CacheSet.ways cs).
    + injection H as <-. cbn. apply Forall_app. split; [assumption|].
      constructor; [apply copy_stored | constructor].
    + destruct (CacheSet.back (CacheSet.set cs)); [|discriminate].
      injection H as <-. cbn. apply Forall_app.
      split; [now apply removelast_Forall|].
      constructor; [apply copy_stored | constructor].
  - unfold LruSet.inserMru in H.
    destruct (CacheSet.getSize cs <? CacheSet.ways cs).
    + injection H as <-. cbn. constructor; [apply copy_stored | assumption].
    + destruct (CacheSet.back (CacheSet.set cs)); [|discriminate].
      injection H as <-. cbn.
      constructor; [apply copy_stored | now apply removelast_Forall].
  - unfold LruSet.read in H.
    destruct (CacheSet.find tag (CacheSet.set cs)) as [[[[before x] after] |] |];
      cbn [bind] in H; try discriminate.
    + destruct (CacheSet.remove _ (CacheSet.set cs)) as [l|] eqn:E;
        cbn [bind] in H; [|discriminate].
      injection H as <-. cbn.
      constructor; [apply copy_stored | exact (remove_sublist _ _ _ _ E Hs)].
    + now injection H as <-.
  - unfold LruSet.writeBack in H.
    destruct (CacheSet.find tag (CacheSet.set cs)) as [[[[before x] after] |] |] eqn:F;
      cbn [bind] in H; try discriminate.
    + destruct (CacheSet.remove _ (before ++ _ :: after)) as [l|] eqn:E;
        cbn [bind] in H; [|discriminate].
      injection H as <-. cbn.
      constructor; [apply copy_stored|].
      apply (remove_sublist _ _ _ _ E).
      apply find_split in F. rewrite F in Hs.
      apply Forall_app in Hs as [H1 H2]. inversion H2; subst.
      apply Forall_app. split; [assumption|].
      constructor; [now apply stored_setDirty | assumption].
    + now injection H as <-.
  - unfold CacheSet.retrieve in H.
    destruct (CacheSet.find tag (CacheSet.set cs)) as [[[[before x] after] |] |];
      cbn [bind] in H; try discriminate.
    + destruct (CacheSet.remove _ (CacheSet.set cs)) as [l|] eqn:E;
        cbn [bind] in H; [|discriminate].
      injection H as <-. cbn. exact (remove_sublist _ _ _ _ E Hs).
    + now injection H as <-.
  - unfold CacheSet.seek in H.
    destruct (CacheSet.find tag (CacheSet.set cs)) as [[[[before x] after] |] |];
      cbn [bind] in H; try discriminate; now injection H as <-.
  - destruct (CacheSet.contains tag cs); cbn [bind] in H; [|discriminate].
    now injection H as <-.
Qed.

Lemma lru_run_stored (calls : list lru_call) :
  forall cs cs',
    lru_run calls cs = Some cs' ->
    Forall stored (CacheSet.set cs) -> Forall stored (CacheSet.set cs').
Proof.
  induction calls as [| call rest IH]; intros cs cs' H Hs; cbn [lru_run] in H.
  - now injection H as <-.
  - destruct (lru_step call cs) as [cs1|] eqn:E; cbn [bind] in H; [|discriminate].
    apply (IH cs1 cs' H). exact (lru_step_stored call cs cs1 E Hs).
Qed.

Lemma victim_run_stored (calls : list victim_call) :
  forall vs vs',
    victim_run calls vs = Some vs' ->
    Forall stored (VictimSet.entries vs) -> Forall stored (VictimSet.entries vs').
Proof.
  induction calls as [| call rest IH]; intros vs vs' H Hs; cbn [victim_run] in H.
  - now injection H as <-.
  - destruct (victim_step call vs) as [vs1|] eqn:E; cbn [bind] in H; [|discriminate].
    apply (IH vs1 vs' H). rewrite victim_step_lru in E.
    unfold VictimSet.entries in *.
    destruct call as [e | tag | tag | tag];
      (destruct (lru_step _ (VictimSet.super vs)) as [cs1|] eqn:E1;
       cbn [bind] in E; [|discriminate]);
      injection E as <-; cbn [VictimSet.super];
      try exact (lru_step_stored _ _ _ E1 Hs).
    exact Hs.
Qed.

Lemma new_empty (c b s : Z) (cs : CacheSet.t) :
  CacheSet.new c b s = Some cs -> CacheSet.set cs = [].
Proof.
  unfold CacheSet.new. destruct (U64.shl 1 s); cbn [bind]; [|discriminate].
  now intros [= <-].
Qed.

Lemma victim_new_empty (v b : Z) (vs : VictimSet.t) :
  VictimSet.new v b = Some vs -> VictimSet.entries vs = [].
Proof.
  unfold VictimSet.new. destruct (clog2 v); cbn [bind]; [|discriminate].
  destruct (CacheSet.new _ b _) as [cs|] eqn:E; cbn [bind]; [|discriminate].
  intros [= <-]. exact (new_empty _ _ _ _ E).
Qed.

End Copies.

(** C10: the copy constructor copies the address, the dirty bit and the
    geometry and resets [blank] and [prefetched]; an insertion stores a copy
    of its argument; so whatever calls were made on a set since it was
    constructed, no stored line is blank or marked prefetched. *)
Theorem copies_drop_prefetched (e : CacheEntry.t) :
  (CacheEntry.blank (CacheEntry.copy e) = false
   /\ CacheEntry.prefetched (CacheEntry.copy e) = false
   /\ CacheEntry.addr (CacheEntry.copy e) = CacheEntry.addr e
   /\ CacheEntry.dirty (CacheEntry.copy e) = CacheEntry.dirty e
   /\ CacheEntry.c (CacheEntry.copy e) = CacheEntry.c e
   /\ CacheEntry.b (CacheEntry.copy e) = CacheEntry.b e
   /\ CacheEntry.s (CacheEntry.copy e) = CacheEntry.s e)
  /\ (forall cs r cs',
         LruSet.insertLru e cs = Some (r, cs') \/ LruSet.inserMru e cs = Some (r, cs') ->
         In (CacheEntry.copy e) (CacheSet.set cs'))
  /\ (forall vs r vs',
         VictimSet.insert e vs = Some (r, vs') ->
         In (CacheEntry.copy e) (VictimSet.entries vs'))
  /\ (forall c b s calls cs0 cs,
         LruSet.new c b s = Some cs0 ->
         lru_run calls cs0 = Some cs ->
         Forall (fun line => CacheEntry.prefetched line = false
                             /\ CacheEntry.blank line = false)
           (CacheSet.set cs))
  /\ (forall v b calls vs0 vs,
         VictimSet.new v b = Some vs0 ->
         victim_run calls vs0 = Some vs ->
         Forall (fun line => CacheEntry.prefetched line = false
                             /\ CacheEntry.blank line = false)
           (VictimSet.entries vs)).
Proof.
  split; [repeat split|]. split; [|split; [|split]].
  - intros cs r cs' [H | H].
    + unfold LruSet.insertLru in H.
      destruct (CacheSet.getSize cs <? CacheSet.ways cs).
      * injection H as _ <-. cbn. apply in_or_app. right. now left.
      * destruct (CacheSet.back (CacheSet.set cs)); [|discriminate].
        injection H as _ <-. cbn. apply in_or_app. right. now left.
    + unfold LruSet.inserMru in H.
      destruct (CacheSet.getSize cs <? CacheSet.ways cs).
      * injection H as _ <-. now left.
      * destruct (CacheSet.back (CacheSet.set cs)); [|discriminate].
        injection H as _ <-. now left.
  - intros vs r vs' H. unfold VictimSet.insert in H.
    destruct (CacheSet.getSize _ <? CacheSet.ways _).
    + injection H as _ <-. now left.
    + destruct (CacheSet.back _); [|discriminate].
      injection H as _ <-. now left.
  - intros c b s calls cs0 cs Hnew Hrun.
    assert (Hs : Forall stored (CacheSet.set cs)).
    { apply (lru_run_stored calls cs0 cs Hrun).
      rewrite (new_empty c b s cs0 Hnew). constructor. }
    eapply Forall_impl; [|exact Hs]. intros line [H1 H2]. now split.
  - intros v b calls vs0 vs Hnew Hrun.
    assert (Hs : Forall stored (VictimSet.entries vs)).
    { apply (victim_run_stored calls vs0 vs Hrun).
      rewrite (victim_new_empty v b vs0 Hnew). constructor. }
    eapply Forall_impl; [|exact Hs]. intros line [H1 H2]. now split.
Qed.

(** A line marked prefetched, inserted at the LRU end of an empty two-way
    set: the stored line is not marked. *)
Lemma copies_drop_prefetched_witness :
  let e := CacheEntry.setPrefetched true (CacheEntry.make 64 false 10 5 1) in
  CacheEntry.prefetched e = true
  /\ Forall (fun line => CacheEntry.prefetched line = false
                         /\ CacheEntry.blank line = false)
       [CacheEntry.copy e].
Proof.
  intros e. split; [reflexivity|].
  exact (proj1 (proj2 (proj2 (proj2 (copies_drop_prefetched e))))
           10 5 1 [call_insertLru e] (CacheSet.mk 2 10 5 1 [])
           (CacheSet.mk 2 10 5 1 [CacheEntry.copy e]) eq_refl eq_refl).
Defined.

(** * The prefetcher *)

Section Candidates.

Variable trigger : CacheEntry.t.
Hypothesis block_bits : 1 <= CacheEntry.b trigger <= 63.
Hypothesis addr_range : U64.in_range (CacheEntry.addr trigger).

Let bits := CacheEntry.b trigger.
Let start := Z.shiftr (CacheEntry.addr trigger) bits.

Lemma candidate_testbit (i n : Z) :
  0 <= n ->
  Z.testbit (CacheEntry.addr (PrefetchSpec.candidate trigger i)) n
  = if n <? bits then Z.testbit (CacheEntry.addr trigger) n
    else (n <? 64) && Z.testbit (U64.add start i) (n - bits).
Proof.
  intros Hn. unfold PrefetchSpec.candidate. cbn [CacheEntry.addr].
  fold bits. fold start.
  rewrite Z.lor_spec, wrap_testbit, Z.shiftl_spec, Z.land_spec,
    Z.testbit_ones_nonneg by (unfold bits; lia).
  destruct (Z.ltb_spec n bits) as [Hlt | Hge].
  - rewrite (Z.testbit_neg_r _ (n - bits)) by lia.
    now rewrite andb_false_r, andb_true_r.
  - now rewrite andb_false_r, orb_false_r.
Qed.

Lemma candidate_addr_range (i : Z) :
  U64.in_range (CacheEntry.addr (PrefetchSpec.candidate trigger i)).
Proof.
  replace (CacheEntry.addr (PrefetchSpec.candidate trigger i))
    with (U64.wrap (CacheEntry.addr (PrefetchSpec.candidate trigger i)));
    [apply wrap_in_range|].
  apply Z.bits_inj'. intros n Hn. rewrite wrap_testbit, candidate_testbit by lia.
  destruct (Z.ltb_spec n 64) as [Hlt | Hge]; [reflexivity|].
  destruct (Z.ltb_spec n bits); [unfold bits in *; lia | reflexivity].
Qed.

Lemma candidate_offset (i : Z) :
  Z.land (CacheEntry.addr (PrefetchSpec.candidate trigger i)) (Z.ones bits)
  = Z.land (CacheEntry.addr trigger) (Z.ones bits).
Proof.
  apply Z.bits_inj'. intros n Hn.
  rewrite !Z.land_spec, candidate_testbit, Z.testbit_ones_nonneg
    by (unfold bits; lia).
  destruct (Z.ltb_spec n bits); [reflexivity | now rewrite !andb_false_r].
Qed.

(** The candidate "plus zero" is the local copy the loop starts from. *)
Lemma candidate_zero :
  PrefetchSpec.candidate trigger 0
  = CacheEntry.setPrefetched true
      (CacheEntry.setDirty false (CacheEntry.copy trigger)).
Proof.
  unfold CacheEntry.setPrefetched, CacheEntry.setDirty, CacheEntry.copy.
  cbn [CacheEntry.addr CacheEntry.dirty CacheEntry.c CacheEntry.b CacheEntry.s
         CacheEntry.blank CacheEntry.prefetched].
  transitivity
    (CacheEntry.mk (CacheEntry.addr (PrefetchSpec.candidate trigger 0)) false
       (CacheEntry.c trigger) (CacheEntry.b trigger) (CacheEntry.s trigger)
       false true); [reflexivity|].
  f_equal. apply Z.bits_inj'. intros n Hn. rewrite candidate_testbit by lia.
  destruct (Z.ltb_spec n bits) as [Hlt | Hge]; [reflexivity|].
  unfold U64.add. rewrite Z.add_0_r, wrap_testbit.
  unfold start. rewrite Z.shiftr_spec by lia.
  replace (n - bits + bits) with n by lia.
  destruct (Z.ltb_spec n 64) as [H64 | H64].
  - destruct (Z.ltb_spec (n - bits) 64); [reflexivity | unfold bits in *; lia].
  - cbn [andb]. symmetry. now apply in_range_testbit.
Qed.

Lemma add_step (i : Z) : U64.add (U64.add start i) 1 = U64.add start (i + 1).
Proof.
  unfold U64.add, U64.wrap. rewrite Zplus_mod_idemp_l. f_equal. lia.
Qed.

(** Advancing the block address of one candidate gives the next one. *)
Lemma candidate_next (i : Z) :
  CacheEntry.setBlockAddress (U64.add (U64.add start i) 1)
    (PrefetchSpec.candidate trigger i)
  = Some (PrefetchSpec.candidate trigger (i + 1)).
Proof.
  rewrite setBlockAddress_defined;
    [| exact block_bits | apply candidate_addr_range].
  f_equal. change (CacheEntry.b (PrefetchSpec.candidate trigger i)) with bits.
  rewrite candidate_offset, add_step. reflexivity.
Qed.

Lemma start_block :
  CacheEntry.getBlockAddress trigger = Some start.
Proof.
  unfold CacheEntry.getBlockAddress, CacheEntry.byteOffsetSize. fold bits.
  assert (Hcount : U64.add (CacheEntry.indexSize trigger) (CacheEntry.tagSize trigger)
                   = 64 - bits).
  { unfold CacheEntry.indexSize, CacheEntry.tagSize, CacheEntry.ADDR_WIDTH,
      U64.add, U64.sub, U64.wrap.
    rewrite Zminus_mod_idemp_l, Zplus_mod_idemp_l, Zplus_mod_idemp_l,
      Zplus_mod_idemp_r.
    fold bits.
    replace (CacheEntry.c trigger - CacheEntry.s trigger - bits
             + (64 - CacheEntry.c trigger + CacheEntry.s trigger))
      with (64 - bits) by lia.
    rewrite modulus_value. apply Z.mod_small. unfold bits. lia. }
  rewrite Hcount, shiftAndMask_defined by (unfold bits; lia).
  f_equal. fold start. rewrite Z.land_ones by (unfold bits; lia).
  apply Z.mod_small. unfold start.
  rewrite Z.shiftr_div_pow2 by (unfold bits; lia).
  destruct addr_range as [H0 H1]. unfold U64.modulus, U64.width in H1.
  assert (0 < 2 ^ bits) by (apply Z.pow_pos_nonneg; unfold bits; lia).
  split; [apply Z.div_pos; lia|].
  apply Z.div_lt_upper_bound; [lia|].
  rewrite <- Z.pow_add_r by (unfold bits; lia).
  replace (bits + (64 - bits + 1)) with 65 by lia.
  change (2 ^ 65) with (2 * 2 ^ 64). lia.
Qed.

End Candidates.

Section Loop.

Variable trigger : CacheEntry.t.
Hypothesis block_bits : 1 <= CacheEntry.b trigger <= 63.
Hypothesis addr_range : U64.in_range (CacheEntry.addr trigger).

Let start := Z.shiftr (CacheEntry.addr trigger) (CacheEntry.b trigger).

Lemma insertLru_evicted (e : CacheEntry.t) (cs : CacheSet.t) r cs' :
  LruSet.insertLru e cs = Some (r, cs') ->
  CacheEntry.isBlank r = false -> CacheEntry.copy r = r.
Proof.
  unfold LruSet.insertLru.
  destruct (CacheSet.getSize cs <? CacheSet.ways cs).
  - intros [= <- _]. discriminate.
  - destruct (CacheSet.back (CacheSet.set cs)); [|discriminate].
    intros [= <- _] _. reflexivity.
Qed.

(** One iteration of the loop offers the next candidate to the cache. *)
Lemma body_offer (i : Z) (f : Prefetcher.frame) :
  Prefetcher.tmp_entry f = PrefetchSpec.candidate trigger i ->
  Prefetcher.tmp_blockAddress f = U64.add start i ->
  Prefetcher.body f
  = frame_of (PrefetchSpec.candidate trigger (i + 1)) (U64.add start (i + 1))
      (PrefetchLoop.offer LruSet.insertLru (PrefetchSpec.candidate trigger (i + 1))
         (Prefetcher.prefCache f, Prefetcher.buffer f)).
Proof.
  destruct f as [entry blk cache buf].
  cbn [Prefetcher.tmp_entry Prefetcher.tmp_blockAddress Prefetcher.prefCache
         Prefetcher.buffer].
  intros -> ->. unfold Prefetcher.body, PrefetchLoop.offer.
  cbn [Prefetcher.tmp_entry Prefetcher.tmp_blockAddress Prefetcher.prefCache
         Prefetcher.buffer].
  unfold start. rewrite (candidate_next trigger block_bits i).
  cbn [defined]. rewrite (add_step trigger i). fold start.
  set (cand := PrefetchSpec.candidate trigger (i + 1)).
  destruct (CacheEntry.getIndex cand) as [index|]; cbn [defined frame_of];
    [|reflexivity].
  destruct (nth_error cache (Z.to_nat index)) as [target|]; [|reflexivity].
  destruct (CacheEntry.getTag cand) as [tag|]; cbn [defined frame_of]; [|reflexivity].
  destruct (CacheSet.contains tag target) as [[|]|]; cbn [defined frame_of];
    try reflexivity.
  destruct (LruSet.insertLru cand target) as [[evicted updated]|] eqn:E;
    cbn [defined frame_of]; [|reflexivity].
  destruct (CacheEntry.isBlank evicted) eqn:B; [reflexivity|].
  now rewrite (insertLru_evicted _ _ _ _ E B).
Qed.

Lemma loop_offer_all (n : nat) :
  forall (i : nat) (f : Prefetcher.frame),
    Prefetcher.tmp_entry f = PrefetchSpec.candidate trigger (Z.of_nat i) ->
    Prefetcher.tmp_blockAddress f = U64.add start (Z.of_nat i) ->
    exists entry blk,
      Prefetcher.loop n f
      = frame_of entry blk
          (PrefetchLoop.offer_all LruSet.insertLru
             (map (fun j => PrefetchSpec.candidate trigger (Z.of_nat j))
                (seq (S i) n))
             (Prefetcher.prefCache f, Prefetcher.buffer f)).
Proof.
  induction n as [| n IH]; intros i f He Hb.
  - exists (Prefetcher.tmp_entry f), (Prefetcher.tmp_blockAddress f).
    now destruct f.
  - cbn [Prefetcher.loop seq map PrefetchLoop.offer_all].
    rewrite (body_offer (Z.of_nat i) f He Hb).
    replace (Z.of_nat i + 1) with (Z.of_nat (S i)) by lia.
    destruct (PrefetchLoop.offer LruSet.insertLru _ _) as [[cache buf] | e [cache buf] |];
      cbn [frame_of].
    + apply (IH (S i) (Prefetcher.mk_frame _ _ cache buf)); reflexivity.
    + do 2 eexists. reflexivity.
    + exists (Prefetcher.tmp_entry f), 0. reflexivity.
Qed.

(** [Prefetcher::prefetch] offers the candidates [1..k] in turn to the
    cache, starting from an empty buffer, each one at the LRU end. *)
Lemma prefetch_refines (cache : list LruSet.t) (p : Prefetcher.t) :
  Prefetcher.prefetch trigger cache p
  = deliver p
      (PrefetchLoop.prefetch LruSet.insertLru (Prefetcher.k p) trigger cache).
Proof.
  unfold Prefetcher.prefetch, PrefetchLoop.prefetch, PrefetchSpec.candidates.
  rewrite (start_block trigger block_bits addr_range). cbn [defined].
  rewrite <- (candidate_zero trigger block_bits addr_range).
  destruct (loop_offer_all (Z.to_nat (Prefetcher.k p)) 0
              (Prefetcher.mk_frame (PrefetchSpec.candidate trigger 0)
                 (Z.shiftr (CacheEntry.addr trigger) (CacheEntry.b trigger))
                 cache []))
    as [entry [blk E]].
  - reflexivity.
  - cbn [Prefetcher.tmp_blockAddress]. unfold start, U64.add.
    rewrite Z.add_0_r. symmetry. apply wrap_small.
    destruct addr_range as [H0 H1]. unfold U64.in_range.
    rewrite Z.shiftr_div_pow2 by lia.
    assert (0 < 2 ^ CacheEntry.b trigger) by (apply Z.pow_pos_nonneg; lia).
    split; [apply Z.div_pos; lia|].
    apply Z.le_lt_trans with (CacheEntry.addr trigger); [|exact H1].
    apply Z.div_le_upper_bound; nia.
  - rewrite E. cbn [Prefetcher.prefCache Prefetcher.buffer].
    now destruct (PrefetchLoop.offer_all _ _ _) as [[c' b'] | e [c' b'] |].
Qed.

End Loop.

Section Offers.


Lemma assign_Forall2 {A : Type} (R : A -> A -> Prop) (i : nat) (x y : A)
    (vec : list A) :
  (forall z, R z z) -> nth_error vec i = Some y -> R y x ->
  Forall2 R vec (assign i x vec).
Proof.
  intros Hrefl. revert i. induction vec as [| z rest IH]; intros i Hi Hx.
  - cbn [assign]. constructor.
  - destruct i as [| j]; cbn [assign nth_error] in *.
    + injection Hi as ->. constructor; [assumption|].
      clear IH. induction rest; constructor; auto.
    + constructor; [apply Hrefl | now apply IH].
Qed.

Lemma Forall2_refl {A : Type} (R : A -> A -> Prop) (l : list A) :
  (forall z, R z z) -> Forall2 R l l.
Proof. intros H. induction l; constructor; auto. Qed.

Lemma Forall2_chain {A : Type} (R1 R2 R3 : A -> A -> Prop) (l1 l2 l3 : list A) :
  (forall x y z, R1 x y -> R2 y z -> R3 x z) ->
  Forall2 R1 l1 l2 -> Forall2 R2 l2 l3 -> Forall2 R3 l1 l3.
Proof.
  intros H H12. revert l3. induction H12 as [| x y r1 r2 Hxy _ IH]; intros l3 H23.
  - inversion H23. constructor.
  - inversion H23 as [| ? z ? r3 Hyz Hrest]; subst.
    constructor; [now apply H with y | now apply IH].
Qed.



Lemma NoDup_removelast {A : Type} (l : list A) : NoDup l -> NoDup (removelast l).
Proof.
  intros H. destruct l as [| a rest]; [constructor|].
  rewrite (app_removelast_last a (l := a :: rest)) in H by congruence.
  now apply NoDup_app_remove_r in H.
Qed.

Lemma In_removelast {A : Type} (x : A) (l : list A) :
  In x (removelast l) -> In x l.
Proof.
  intros H. destruct l as [| a rest]; [contradiction|].
  rewrite (app_removelast_last a (l := a :: rest)) by congruence.
  apply in_or_app. now left.
Qed.

Lemma NoDup_snoc {A : Type} (x : A) (l : list A) :
  NoDup l -> ~ In x l -> NoDup (l ++ [x]).
Proof.
  intros Hl Hx. apply NoDup_app; [assumption | repeat constructor; now intros [] |].
  intros a Ha [<- | []]. contradiction.
Qed.

(** An insertion at the LRU end: the line is stored last, the lines before
    it were there already. *)
Lemma insertLru_shape (e : CacheEntry.t) (cs : CacheSet.t) r cs' :
  LruSet.insertLru e cs = Some (r, cs') ->
  exists kept,
    CacheSet.set cs' = kept ++ [CacheEntry.copy e]
    /\ (kept = CacheSet.set cs \/ kept = removelast (CacheSet.set cs)).
Proof.
  unfold LruSet.insertLru.
  destruct (CacheSet.getSize cs <? CacheSet.ways cs).
  - intros [= _ <-]. eexists. split; [reflexivity | now left].
  - destruct (CacheSet.back (CacheSet.set cs)); [|discriminate].
    intros [= _ <-]. eexists. split; [reflexivity | now right].
Qed.

Lemma insertLru_tags (e : CacheEntry.t) (cs : CacheSet.t) r cs' :
  LruSet.insertLru e cs = Some (r, cs') ->
  NoDup (tags cs) -> ~ In (CacheEntry.getTag e) (tags cs) -> NoDup (tags cs').
Proof.
  intros H Hnd Hin. destruct (insertLru_shape e cs r cs' H) as [kept [E Hk]].
  unfold tags in *. rewrite E, map_app. cbn [map]. rewrite getTag_copy.
  destruct Hk as [-> | ->].
  - now apply NoDup_snoc.
  - rewrite map_removelast. apply NoDup_snoc; [now apply NoDup_removelast|].
    intros Hx. apply Hin. now apply In_removelast.
Qed.





End Offers.

Section CandidateBlock.

Variable trigger : CacheEntry.t.
Hypothesis block_bits : 1 <= CacheEntry.b trigger <= 63.


End CandidateBlock.

(** C1: the fields [getIndex] and [getByteOffset] return are one bit wider
    than declared.  At the geometry c = 10, b = 5, s = 1 (4 index bits, 16
    sets) the address 0x200, whose four index bits are zero, decodes to
    index 16, although the three fields still compose to the address; with
    b = 0 the byte offset of address 1 is 1, not zero; and a tag of 64 bits
    (c = s, b = 0) cannot be extracted at all. *)
Theorem decoded_fields_one_bit_too_wide :
  let e := CacheEntry.make 512 false 10 5 1 in
  let z := CacheEntry.make 1 false 4 0 0 in
  let w := CacheEntry.make 1 false 2 0 2 in
  CacheEntry.indexSize e = 4
  /\ (CacheEntry.addr e / 2 ^ CacheEntry.b e) mod 2 ^ CacheEntry.indexSize e = 0
  /\ CacheEntry.getIndex e = Some 16
  /\ CacheEntry.compose e = Some (CacheEntry.addr e)
  /\ CacheEntry.byteOffsetSize z = 0
  /\ CacheEntry.getByteOffset z = Some 1
  /\ CacheEntry.tagSize w = 64
  /\ CacheEntry.getTag w = None.
Proof. repeat split. Qed.

(** C9: for one-byte blocks (b = 0) [setBlockAddress] shifts [1UL] by 64,
    which has no defined result. *)
Theorem setBlockAddress_undefined_at_b0
    (addr_i : Z) (dirty_i : bool) (c_i s_i blockAddress_i : Z) :
  CacheEntry.setBlockAddress blockAddress_i
    (CacheEntry.make addr_i dirty_i c_i 0 s_i) = None.
Proof. reflexivity. Qed.

(** C2: [cache_init] never returns: for the valid example configuration it
    runs to its last statement, which throws. *)
Theorem cache_init_always_throws :
  (forall conf g, returns (cache_init conf g) = false)
  /\ config_ok example_config = true
  /\ exists g, cache_init example_config startup = Raised (c_string done_message) g.
Proof.
  split; [|split].
  - intros conf g. unfold cache_init.
    destruct (U64.shl 1 _); cbn [defined]; [|reflexivity].
    destruct (U64.shl 1 _); cbn [defined]; [|reflexivity].
    destruct (push_sets _ _ _ _ (l1 g)); cbn [defined]; [|reflexivity].
    destruct (push_sets _ _ _ _ _); cbn [defined]; [|reflexivity].
    destruct (VictimSet.init _ _ _); reflexivity.
  - reflexivity.
  - eexists. vm_compute. reflexivity.
Qed.

(** C3: at the example configuration (16 L1 sets, 32 L2 sets) [cache_init]
    pushes all 48 sets into [l1], the L2-sized ones behind the L1-sized
    ones, and leaves [l2] empty. *)
Theorem cache_init_fills_only_l1 :
  exists g,
    cache_init example_config startup = Raised (c_string done_message) g
    /\ L1_NUM_SETS g = 16
    /\ L2_NUM_SETS g = 32
    /\ l1 g = repeat (CacheSet.mk 2 10 5 1 []) 16 ++ repeat (CacheSet.mk 4 12 5 2 []) 32
    /\ l2 g = [].
Proof. eexists. vm_compute. repeat split. Qed.

(** C6: a victim cache configured for 3 blocks gets [ways = 4]: the fourth
    insertion evicts nothing, and the victim cache then holds 4 lines. *)
Theorem victim_cache_of_three_holds_four :
  exists vs0 vs3 r vs4,
    VictimSet.init 3 5 VictimSet.default = Some vs0
    /\ VictimSet.v vs0 = 3
    /\ CacheSet.ways (VictimSet.super vs0) = 4
    /\ victim_run
         [victim_insert (example_line 1); victim_insert (example_line 2);
          victim_insert (example_line 3)] vs0 = Some vs3
    /\ length (VictimSet.entries vs3) = 3%nat
    /\ VictimSet.insert (example_line 4) vs3 = Some (r, vs4)
    /\ CacheEntry.isBlank r = true
    /\ VictimSet.entries vs4
       = [example_line 4; example_line 3; example_line 2; example_line 1].
Proof. do 4 eexists. vm_compute. repeat split. Qed.

(** C8: [popEviction] has no test for an empty buffer.  Where every other
    method that has nothing to return gives back a blank entry, it calls
    [front()] and [pop_front()] on the empty list, which has no defined
    result, although [checkEmpty] reports the buffer empty; that is the
    state every [prefetch] that evicts nothing leaves.  On a buffer that is
    not empty it removes the oldest eviction and returns a copy of it, and
    [checkEmpty] is false. *)
Theorem popEviction_undefined_on_empty_buffer :
  (forall k c b s,
      Prefetcher.checkEmpty (Prefetcher.mk [] k c b s) = true
      /\ Prefetcher.popEviction (Prefetcher.mk [] k c b s) = None)
  /\ (forall first rest k c b s,
         Prefetcher.checkEmpty (Prefetcher.mk (first :: rest) k c b s) = false
         /\ Prefetcher.popEviction (Prefetcher.mk (first :: rest) k c b s)
            = Some (CacheEntry.copy first, Prefetcher.mk rest k c b s))
  /\ (exists cache' p',
         Prefetcher.prefetch (CacheEntry.make 0 false 8 5 1) example_cache
           (example_prefetcher 2) = Normal (cache', p')
         /\ Prefetcher.checkEmpty p' = true
         /\ Prefetcher.popEviction p' = None).
Proof.
  split; [|split].
  - intros k c b s. split; reflexivity.
  - intros first rest k c b s. split; reflexivity.
  - eexists. eexists. vm_compute. repeat split.
Qed.

(** A four-way set and a victim cache for four blocks, each driven through
    insertions beyond its capacity and lookups. *)
Lemma capacity_never_exceeded_witness :
  (exists cs,
      lru_run
        [call_inserMru (example_line 1); call_insertLru (example_line 2);
         call_read 2; call_inserMru (example_line 3); call_writeBack 1;
         call_inserMru (example_line 4); call_inserMru (example_line 5);
         call_retrieve 3; call_seek 4; call_contains 5]
        (CacheSet.mk 4 7 5 2 []) = Some cs
      /\ occupancy cs <= 4)
  /\ (exists vs,
         victim_run
           [victim_insert (example_line 1); victim_insert (example_line 2);
            victim_insert (example_line 3); victim_insert (example_line 4);
            victim_insert (example_line 5); victim_seek 3; victim_retrieve 4;
            victim_contains 5]
           (VictimSet.mk (CacheSet.mk 4 (U64.add 2 5) 5 2 []) 4) = Some vs
         /\ occupancy (VictimSet.super vs) <= 4).
Proof.
  destruct (capacity_never_exceeded 7 5 2
              [call_inserMru (example_line 1); call_insertLru (example_line 2);
               call_read 2; call_inserMru (example_line 3); call_writeBack 1;
               call_inserMru (example_line 4); call_inserMru (example_line 5);
               call_retrieve 3; call_seek 4; call_contains 5]
              4 5
              [victim_insert (example_line 1); victim_insert (example_line 2);
               victim_insert (example_line 3); victim_insert (example_line 4);
               victim_insert (example_line 5); victim_seek 3; victim_retrieve 4;
               victim_contains 5])
    as [[cs0 [cs [E0 [Erun [Hw [_ Hocc]]]]]]
          [vs0 [vs [bits [Eb [Ev0 [Evrun [Hvw [_ Hvocc]]]]]]]]].
  - lia.
  - repeat constructor.
  - split; [lia | discriminate].
  - repeat constructor.
  - vm_compute in E0. injection E0 as <-.
    vm_compute in Eb. injection Eb as <-.
    vm_compute in Ev0. injection Ev0 as <-.
    split.
    + exists cs. split; [exact Erun|]. now rewrite Hw in Hocc.
    + exists vs. split; [exact Evrun|]. now rewrite Hvw in Hvocc.
Defined.

(** * Further properties *)

(** * More on address decoding *)

Section TagBits.

Variable e : CacheEntry.t.
Hypothesis tag_ok : tag_defined e = true.

Lemma tag_shift_wrap :
  U64.add (CacheEntry.indexSize e) (CacheEntry.byteOffsetSize e)
  = U64.sub (CacheEntry.c e) (CacheEntry.s e).
Proof.
  unfold CacheEntry.indexSize, CacheEntry.byteOffsetSize, U64.add, U64.sub, U64.wrap.
  rewrite Zminus_mod_idemp_l, Zplus_mod_idemp_l. f_equal. lia.
Qed.

Lemma tag_bits :
  1 <= U64.sub (CacheEntry.c e) (CacheEntry.s e) <= 63
  /\ CacheEntry.tagSize e = 64 - U64.sub (CacheEntry.c e) (CacheEntry.s e).
Proof.
  pose proof tag_ok as H. unfold tag_defined in H.
  apply andb_true_iff in H as [H1 H2]. apply Z.ltb_lt in H1, H2.
  rewrite tag_shift_wrap in H1.
  pose proof (wrap_in_range (CacheEntry.c e - CacheEntry.s e)) as [Hd0 _].
  fold (U64.sub (CacheEntry.c e) (CacheEntry.s e)) in Hd0.
  set (d := U64.sub (CacheEntry.c e) (CacheEntry.s e)) in *.
  assert (Ht : CacheEntry.tagSize e = (64 - d) mod U64.modulus).
  { unfold CacheEntry.tagSize, CacheEntry.ADDR_WIDTH, d, U64.add, U64.sub, U64.wrap.
    rewrite Zplus_mod_idemp_l, Zminus_mod_idemp_r. f_equal. lia. }
  rewrite Ht, modulus_value in *.
  destruct (Z.eq_dec d 0) as [E | E].
  - rewrite E in H2. cbn in H2. lia.
  - rewrite Z.mod_small in * by lia. lia.
Qed.

Hypothesis addr_range : U64.in_range (CacheEntry.addr e).

(** The tag is exact: the address bits from position [c - s] upwards. *)
Lemma getTag_exact :
  CacheEntry.getTag e
  = Some (Z.shiftr (CacheEntry.addr e) (U64.sub (CacheEntry.c e) (CacheEntry.s e))).
Proof.
  destruct tag_bits as [Hd Ht]. unfold CacheEntry.getTag.
  rewrite tag_shift_wrap, Ht, shiftAndMask_defined by lia. f_equal.
  set (d := U64.sub (CacheEntry.c e) (CacheEntry.s e)) in *.
  rewrite Z.land_ones by lia. apply Z.mod_small.
  rewrite Z.shiftr_div_pow2 by lia.
  destruct addr_range as [H0 H1]. rewrite modulus_value in H1.
  assert (0 < 2 ^ d) by (apply Z.pow_pos_nonneg; lia).
  split; [apply Z.div_pos; lia|].
  apply Z.div_lt_upper_bound; [lia|].
  rewrite <- Z.pow_add_r by lia.
  replace (d + (64 - d + 1)) with 65 by lia.
  change (2 ^ 65) with 36893488147419103232. lia.
Qed.

End TagBits.

(** X1: [operator==] compares tags only.  Two entries of one geometry
    compare equal exactly when their addresses agree from bit [c - s]
    upwards, whatever their index bits, byte offsets and flags; an entry
    compares equal to a number exactly when that number is its address
    shifted down by [c - s]. *)
Theorem equality_is_by_tag (x y : CacheEntry.t) (tag : Z) :
  tag_defined x = true ->
  U64.in_range (CacheEntry.addr x) ->
  U64.in_range (CacheEntry.addr y) ->
  CacheEntry.c y = CacheEntry.c x ->
  CacheEntry.b y = CacheEntry.b x ->
  CacheEntry.s y = CacheEntry.s x ->
  let d := U64.sub (CacheEntry.c x) (CacheEntry.s x) in
  CacheEntry.eq_entry x y
  = Some (Z.shiftr (CacheEntry.addr x) d =? Z.shiftr (CacheEntry.addr y) d)
  /\ CacheEntry.eq_entry y x = CacheEntry.eq_entry x y
  /\ CacheEntry.eq_tag x tag = Some (Z.shiftr (CacheEntry.addr x) d =? tag).
Proof.
  intros Hx Hax Hay Hc Hb Hs d.
  assert (Hy : tag_defined y = true).
  { unfold tag_defined, CacheEntry.indexSize, CacheEntry.tagSize,
      CacheEntry.byteOffsetSize in *. now rewrite Hc, Hb, Hs. }
  unfold CacheEntry.eq_entry, CacheEntry.eq_tag.
  rewrite (getTag_exact x Hx Hax), (getTag_exact y Hy Hay), Hc, Hs.
  cbn [bind]. fold d. repeat split. now rewrite Z.eqb_sym.
Qed.

(** Two lines of the 1 KiB two-way geometry, 0x0400 and 0x05e5, in
    different sets and with different flags: equal, both have tag 2. *)
Lemma equality_is_by_tag_witness :
  CacheEntry.eq_entry (CacheEntry.make 1024 false 10 5 1)
    (CacheEntry.setPrefetched true (CacheEntry.make 1509 true 10 5 1))
  = Some true.
Proof.
  refine (proj1 (equality_is_by_tag (CacheEntry.make 1024 false 10 5 1)
                   (CacheEntry.setPrefetched true (CacheEntry.make 1509 true 10 5 1))
                   2 eq_refl _ _ eq_refl eq_refl eq_refl));
    (split; [cbn; lia | reflexivity]).
Defined.

(** X2: what [getIndex] and [getByteOffset] return.  The index is the
    [c - s - b] index bits of the address plus, one position higher, the
    lowest tag bit; the byte offset is the low [b] bits plus, one position
    higher, the lowest bit of the block address.  So the index selects one of
    the [2^(c-s-b)] sets exactly for the addresses whose bit [c - s] is 0. *)
Theorem index_carries_lowest_tag_bit (e : CacheEntry.t) :
  0 <= CacheEntry.b e ->
  CacheEntry.s e + CacheEntry.b e <= CacheEntry.c e ->
  CacheEntry.s e < CacheEntry.c e < CacheEntry.s e + 64 ->
  let a := CacheEntry.addr e in
  let b := CacheEntry.b e in
  let d := CacheEntry.c e - CacheEntry.s e in
  exists index,
    CacheEntry.getIndex e = Some index
    /\ index = (a / 2 ^ b) mod 2 ^ (d - b) + 2 ^ (d - b) * ((a / 2 ^ d) mod 2)
    /\ (index < 2 ^ (d - b) <-> (a / 2 ^ d) mod 2 = 0)
    /\ CacheEntry.getByteOffset e
       = Some (a mod 2 ^ b + 2 ^ b * ((a / 2 ^ b) mod 2)).
Proof.
  intros Hb Hg Hd a b d.
  assert (Hpb : 0 < 2 ^ b) by (apply Z.pow_pos_nonneg; unfold b; lia).
  assert (Hpi : 0 < 2 ^ (d - b)) by (apply Z.pow_pos_nonneg; unfold b, d; lia).
  assert (Eidx : CacheEntry.getIndex e
                 = Some ((a / 2 ^ b) mod 2 ^ (d - b)
                         + 2 ^ (d - b) * ((a / 2 ^ d) mod 2))).
  { unfold CacheEntry.getIndex, CacheEntry.byteOffsetSize.
    rewrite (indexSize_value e Hb Hg Hd). fold b. fold d.
    replace (CacheEntry.c e - CacheEntry.s e - b) with (d - b) by (unfold d; lia).
    rewrite shiftAndMask_defined by (unfold b, d; lia). f_equal. fold a.
    rewrite Z.land_ones, Z.shiftr_div_pow2 by (unfold b, d; lia).
    rewrite Z.pow_add_r, Z.pow_1_r by (unfold b, d; lia).
    rewrite Z.rem_mul_r by lia. do 3 f_equal.
    rewrite Z.div_div by lia. rewrite <- Z.pow_add_r by (unfold b, d; lia).
    do 2 f_equal. lia. }
  eexists. split; [exact Eidx|]. split; [reflexivity|]. split.
  - pose proof (Z.mod_pos_bound (a / 2 ^ b) (2 ^ (d - b)) Hpi).
    pose proof (Z.mod_pos_bound (a / 2 ^ d) 2 eq_refl). split; nia.
  - unfold CacheEntry.getByteOffset, CacheEntry.byteOffsetSize. fold b. fold a.
    rewrite shiftAndMask_defined by (unfold b, d in *; lia). f_equal.
    rewrite Z.shiftr_0_r, Z.land_ones by (unfold b; lia).
    rewrite Z.pow_add_r, Z.pow_1_r by (unfold b; lia).
    now rewrite Z.rem_mul_r by lia.
Qed.

(** Address 0x3a0 in the 1 KiB two-way geometry of 32-byte blocks: index
    bits 13, bit 9 set, so [getIndex] returns 29. *)
Lemma index_carries_lowest_tag_bit_witness :
  CacheEntry.getIndex (CacheEntry.make 928 false 10 5 1) = Some (13 + 16 * 1).
Proof.
  destruct (index_carries_lowest_tag_bit (CacheEntry.make 928 false 10 5 1))
    as [index [E [-> _]]]; cbn; try lia.
  exact E.
Defined.

(** X3: for block sizes from 2 to 2^63 bytes the block address is exact and
    [setBlockAddress] is its inverse: writing back the block address an entry
    has changes nothing, and after writing a block address of at most
    [64 - b] bits the entry has that block address, its old low [b] address
    bits and its old flags and geometry. *)
Theorem block_address_round_trip (e : CacheEntry.t) (blk : Z) :
  1 <= CacheEntry.b e <= 63 ->
  U64.in_range (CacheEntry.addr e) ->
  0 <= blk < 2 ^ (64 - CacheEntry.b e) ->
  CacheEntry.getBlockAddress e
  = Some (Z.shiftr (CacheEntry.addr e) (CacheEntry.b e))
  /\ CacheEntry.setBlockAddress (Z.shiftr (CacheEntry.addr e) (CacheEntry.b e)) e
     = Some e
  /\ exists e',
       CacheEntry.setBlockAddress blk e = Some e'
       /\ CacheEntry.getBlockAddress e' = Some blk
       /\ CacheEntry.addr e' mod 2 ^ CacheEntry.b e
          = CacheEntry.addr e mod 2 ^ CacheEntry.b e
       /\ U64.in_range (CacheEntry.addr e')
       /\ e' = CacheEntry.setAddr (CacheEntry.addr e') e.
Proof.
  intros Hb Ha Hblk. set (b := CacheEntry.b e) in *.
  assert (Hbit : forall v n, 0 <= n ->
            Z.testbit (Z.lor (U64.wrap (Z.shiftl v b))
                         (Z.land (CacheEntry.addr e) (Z.ones b))) n
            = if n <? b then Z.testbit (CacheEntry.addr e) n
              else (n <? 64) && Z.testbit v (n - b)).
  { intros v n Hn.
    rewrite Z.lor_spec, wrap_testbit, Z.shiftl_spec, Z.land_spec,
      Z.testbit_ones_nonneg by lia.
    destruct (Z.ltb_spec n b).
    - rewrite (Z.testbit_neg_r _ (n - b)) by lia.
      now rewrite andb_false_r, andb_true_r.
    - now rewrite andb_false_r, orb_false_r. }
  split; [now apply start_block|]. split.
  - rewrite setBlockAddress_defined by assumption. fold b.
    destruct e as [a dt c b' s bl pf]. unfold CacheEntry.setAddr. cbn in *.
    do 2 f_equal. apply Z.bits_inj'. intros n Hn. rewrite Hbit by lia.
    destruct (Z.ltb_spec n b'); [reflexivity|].
    rewrite Z.shiftr_spec by lia. replace (n - b' + b') with n by lia.
    destruct (Z.ltb_spec n 64); [reflexivity|].
    symmetry. now apply in_range_testbit.
  - rewrite setBlockAddress_defined by assumption. fold b.
    set (a' := Z.lor (U64.wrap (Z.shiftl blk b))
                 (Z.land (CacheEntry.addr e) (Z.ones b))).
    assert (Hr : U64.in_range a').
    { replace a' with (U64.wrap a'); [apply wrap_in_range|].
      apply Z.bits_inj'. intros n Hn. unfold a'.
      rewrite wrap_testbit, Hbit by lia.
      destruct (Z.ltb_spec n 64); [reflexivity|].
      destruct (Z.ltb_spec n b); [lia | reflexivity]. }
    eexists. split; [reflexivity|]. cbn [CacheEntry.setAddr CacheEntry.addr].
    split; [|split; [|split; [exact Hr | reflexivity]]].
    + rewrite (start_block (CacheEntry.setAddr a' e)) by assumption.
      cbn [CacheEntry.setAddr CacheEntry.addr CacheEntry.b]. fold b. f_equal.
      apply Z.bits_inj'. intros n Hn. rewrite Z.shiftr_spec by lia.
      unfold a'. rewrite Hbit by lia.
      destruct (Z.ltb_spec (n + b) b); [lia|].
      replace (n + b - b) with n by lia.
      destruct (Z.ltb_spec (n + b) 64); [reflexivity|].
      cbn [andb]. symmetry.
      destruct (Z.eq_dec blk 0) as [-> | Hne]; [apply Z.bits_0|].
      apply Z.bits_above_log2; [lia|].
      assert (Z.log2 blk < 64 - b) by (apply Z.log2_lt_pow2; lia). lia.
    + rewrite <- !Z.land_ones by lia.
      apply Z.bits_inj'. intros n Hn. rewrite !Z.land_spec. unfold a'.
      rewrite Hbit, Z.testbit_ones_nonneg by lia.
      destruct (Z.ltb_spec n b); [reflexivity | now rewrite !andb_false_r].
Qed.

(** Block 3 written into the entry at address 0x3a5 of 32-byte blocks. *)
Lemma block_address_round_trip_witness :
  exists e',
    CacheEntry.setBlockAddress 3 (CacheEntry.make 933 true 10 5 1) = Some e'
    /\ CacheEntry.getBlockAddress e' = Some 3
    /\ CacheEntry.addr e' mod 2 ^ 5 = 933 mod 2 ^ 5.
Proof.
  destruct (block_address_round_trip (CacheEntry.make 933 true 10 5 1) 3)
    as [_ [_ [e' [E [G [L _]]]]]].
  - cbn; lia.
  - split; [cbn; lia | reflexivity].
  - cbn; lia.
  - exists e'. split; [exact E|]. split; [exact G | exact L].
Defined.

(** * Lookups in a set *)

Section Lookups.

Lemma has_tag_true (tag : Z) (y : CacheEntry.t) :
  has_tag tag y = true <-> CacheEntry.getTag y = Some tag.
Proof.
  unfold has_tag. destruct (CacheEntry.getTag y) as [t|].
  - rewrite Z.eqb_eq. split; congruence.
  - split; discriminate.
Qed.

Lemma has_tag_false (tag : Z) (y : CacheEntry.t) :
  has_tag tag y = false <-> CacheEntry.getTag y <> Some tag.
Proof.
  rewrite <- has_tag_true. destruct (has_tag tag y); split; congruence.
Qed.

Lemma same_tag_has_tag (tag : Z) (x y : CacheEntry.t) :
  CacheEntry.getTag x = Some tag -> same_tag y x = has_tag tag y.
Proof. intros Hx. unfold same_tag, has_tag. now rewrite Hx. Qed.

Lemma others_absent (tag : Z) (l : list CacheEntry.t) :
  Forall (fun y => CacheEntry.getTag y <> Some tag) l -> others tag l = l.
Proof.
  induction 1 as [| y rest Hy _ IH]; [reflexivity|].
  cbn [others filter]. apply has_tag_false in Hy. rewrite Hy. cbn [negb].
  f_equal. exact IH.
Qed.

Lemma others_clean (tag : Z) (l : list CacheEntry.t) :
  Forall (fun y => CacheEntry.getTag y <> Some tag) (others tag l).
Proof.
  apply Forall_forall. intros y Hy. apply filter_In in Hy as [_ Hy].
  apply has_tag_false. now destruct (has_tag tag y).
Qed.

Lemma others_without (tag : Z) (x : CacheEntry.t) (l : list CacheEntry.t) :
  CacheEntry.getTag x = Some tag -> without x l = others tag l.
Proof.
  intros Hx. unfold without, others. apply filter_ext.
  intros y. now rewrite (same_tag_has_tag tag x y Hx).
Qed.

Lemma others_hit (tag : Z) before x after :
  CacheEntry.getTag x = Some tag ->
  Forall (fun y => CacheEntry.getTag y <> Some tag) before ->
  others tag (before ++ x :: after) = before ++ without x after.
Proof.
  intros Hx Hb. unfold others. rewrite filter_app. cbn [filter].
  fold (others tag before). fold (others tag after).
  rewrite (others_absent tag before Hb), (others_without tag x after Hx).
  apply has_tag_true in Hx. now rewrite Hx.
Qed.

Lemma find_none (tag : Z) (l : list CacheEntry.t) :
  Forall (fun e => tag_defined e = true) l ->
  Forall (fun y => CacheEntry.getTag y <> Some tag) l ->
  CacheSet.find tag l = Some None.
Proof.
  intros Hd Ha. destruct (find_defined tag l Hd) as [[[[before x] after] |] [E F]];
    [|exact E].
  destruct F as [-> [Hx _]]. apply Forall_app in Ha as [_ Ha].
  inversion Ha; subst. contradiction.
Qed.

(** Either no line has the tag, or there is a first one. *)
Lemma lookup_cases (cs : CacheSet.t) (tag : Z) :
  set_inv cs ->
  (CacheSet.find tag (CacheSet.set cs) = Some None
   /\ Forall (fun y => CacheEntry.getTag y <> Some tag) (CacheSet.set cs))
  \/ (exists before x after,
        CacheSet.find tag (CacheSet.set cs) = Some (Some (before, x, after))
        /\ found tag (CacheSet.set cs) (Some (before, x, after))
        /\ stored x /\ tag_defined x = true).
Proof.
  intros Hinv. pose proof Hinv as [_ [_ [Hd Hs]]].
  destruct (find_defined tag _ Hd) as [[[[before x] after] |] [E F]].
  - right. exists before, x, after. split; [exact E|]. split; [exact F|].
    destruct F as [Eset _]. rewrite Eset in Hd, Hs.
    apply Forall_app in Hd as [_ Hd], Hs as [_ Hs].
    inversion Hd; inversion Hs; now subst.
  - left. now split.
Qed.

Lemma stored_not_blank (x : CacheEntry.t) : stored x -> CacheEntry.isBlank x = false.
Proof. now intros [H _]. Qed.

Lemma step_inv (call : lru_call) (cs cs' : CacheSet.t) :
  set_inv cs -> call_defined call = true -> lru_step call cs = Some cs' ->
  set_inv cs' /\ CacheSet.ways cs' = CacheSet.ways cs.
Proof.
  intros Hinv Hc E. destruct (lru_step_inv call cs Hinv Hc) as [cs1 [E1 [H1 [H2 _]]]].
  assert (cs1 = cs') by congruence. subst. now split.
Qed.

(** After a hit moved a line of tag [tag] to the head, looking the tag up
    again finds that line and changes nothing. *)
Lemma head_lookup (cs' : CacheSet.t) (tag : Z) (m : CacheEntry.t) rest :
  set_inv cs' -> CacheSet.set cs' = m :: rest ->
  CacheEntry.getTag m = Some tag ->
  CacheSet.seek tag cs' = Some (m, cs')
  /\ CacheSet.contains tag cs' = Some true
  /\ LruSet.read tag cs'
     = Some (m, CacheSet.with_set (m :: others tag rest) cs').
Proof.
  intros Hinv Eset Hm.
  assert (Hit : CacheSet.find tag (CacheSet.set cs') = Some (Some ([], m, rest))).
  { rewrite Eset. apply (find_first tag [] rest m); [constructor | constructor | exact Hm]. }
  assert (Hpos : found tag (CacheSet.set cs') (Some ([], m, rest))).
  { split; [exact Eset | split; [exact Hm | constructor]]. }
  split; [exact (seek_hit cs' tag Hinv [] rest m Hit Hpos)|].
  split; [exact (contains_hit cs' tag [] rest m Hit)|].
  rewrite (read_hit cs' tag Hinv [] rest m Hit Hpos). cbn [app].
  now rewrite (others_without tag m rest Hm).
Qed.

End Lookups.

Lemma seek_cases (cs : CacheSet.t) (tag : Z) :
  set_inv cs ->
  exists r,
    CacheSet.seek tag cs = Some (r, cs)
    /\ CacheSet.contains tag cs = Some (negb (CacheEntry.isBlank r))
    /\ (CacheEntry.isBlank r = false ->
        exists before after,
          CacheSet.set cs = before ++ r :: after
          /\ CacheEntry.getTag r = Some tag
          /\ Forall (fun y => CacheEntry.getTag y <> Some tag) before)
    /\ (CacheEntry.isBlank r = true ->
        Forall (fun y => CacheEntry.getTag y <> Some tag) (CacheSet.set cs)).
Proof.
  intros Hinv.
  destruct (lookup_cases cs tag Hinv)
    as [[E Ha] | [before [x [after [E [F [Hs Hd]]]]]]].
  - exists CacheEntry.default. destruct (lookup_miss cs tag E) as [_ [_ [_ [-> ->]]]].
    repeat split; [discriminate | intros _; exact Ha].
  - exists x. rewrite (seek_hit cs tag Hinv before after x E F),
      (contains_hit cs tag before after x E), (stored_not_blank x Hs).
    repeat split; [|discriminate].
    intros _. exists before, after. exact F.
Qed.

(** X4: [seek] and [contains] never change the set, and they agree:
    [contains] answers true exactly when [seek] returns a line, which is then
    the first stored line with the tag; when [seek] returns a blank entry no
    stored line has the tag. *)
Theorem seek_agrees_with_contains (cs : CacheSet.t) (tag : Z) :
  set_inv cs ->
  exists r,
    CacheSet.seek tag cs = Some (r, cs)
    /\ CacheSet.contains tag cs = Some (negb (CacheEntry.isBlank r))
    /\ (CacheEntry.isBlank r = false ->
        exists before after,
          CacheSet.set cs = before ++ r :: after
          /\ CacheEntry.getTag r = Some tag
          /\ Forall (fun y => CacheEntry.getTag y <> Some tag) before)
    /\ (CacheEntry.isBlank r = true ->
        Forall (fun y => CacheEntry.getTag y <> Some tag) (CacheSet.set cs)).
Proof. exact (seek_cases cs tag). Qed.

Lemma seek_agrees_with_contains_witness :
  CacheSet.contains 3
    (CacheSet.mk 4 7 5 2 [example_line 1; example_line 3; example_line 2])
  = Some true.
Proof.
  destruct (seek_agrees_with_contains
              (CacheSet.mk 4 7 5 2 [example_line 1; example_line 3; example_line 2]) 3)
    as [r [Es [Ec _]]].
  - unfold set_inv, within_capacity, stored. cbn.
    repeat split; try lia; repeat constructor.
  - vm_compute in Es. injection Es as <-. exact Ec.
Defined.

Lemma retrieve_cases (cs : CacheSet.t) (tag : Z) :
  set_inv cs ->
  exists r cs',
    CacheSet.retrieve tag cs = Some (r, cs')
    /\ cs' = CacheSet.with_set (others tag (CacheSet.set cs)) cs
    /\ set_inv cs'
    /\ CacheSet.contains tag cs' = Some false
    /\ CacheSet.contains tag cs = Some (negb (CacheEntry.isBlank r))
    /\ (CacheEntry.isBlank r = false ->
        exists before after,
          CacheSet.set cs = before ++ r :: after
          /\ CacheEntry.getTag r = Some tag
          /\ Forall (fun y => CacheEntry.getTag y <> Some tag) before)
    /\ (CacheEntry.isBlank r = true ->
        cs' = cs
        /\ Forall (fun y => CacheEntry.getTag y <> Some tag) (CacheSet.set cs)).
Proof.
  intros Hinv.
  assert (Hc : forall cs', set_inv cs' ->
             CacheSet.set cs' = others tag (CacheSet.set cs) ->
             CacheSet.contains tag cs' = Some false).
  { intros cs' Hinv' Eset.
    apply (lookup_miss cs' tag). rewrite Eset. apply find_none; [|apply others_clean].
    destruct Hinv' as [_ [_ [Hd _]]]. now rewrite <- Eset. }
  destruct (lookup_cases cs tag Hinv)
    as [[E Ha] | [before [x [after [E [F [Hs Hd]]]]]]].
  - destruct (lookup_miss cs tag E) as [_ [_ [Er [_ Ec]]]].
    assert (Eid : CacheSet.with_set (others tag (CacheSet.set cs)) cs = cs).
    { rewrite (others_absent tag _ Ha). now destruct cs. }
    exists CacheEntry.default, cs. split; [exact Er|]. split; [now rewrite Eid|].
    split; [exact Hinv|]. split; [exact Ec|]. split; [exact Ec|].
    split; [discriminate | intros _; now split].
  - pose proof (retrieve_hit cs tag Hinv before after x E F) as Er.
    destruct (step_inv (call_retrieve tag) cs _ Hinv eq_refl
                ltac:(cbn [lru_step]; rewrite Er; reflexivity)) as [Hinv' _].
    pose proof F as [Eset [Hx Hb]].
    assert (Eo : others tag (CacheSet.set cs) = before ++ without x after)
      by (rewrite Eset; now apply others_hit).
    eexists. eexists. split; [exact Er|]. rewrite Eo.
    split; [reflexivity|]. split; [exact Hinv'|].
    split; [apply (Hc _ Hinv'); now rewrite Eo|].
    rewrite (contains_hit cs tag before after x E), (stored_not_blank x Hs).
    split; [reflexivity|]. split; [|discriminate].
    intros _. exists before, after. exact F.
Qed.

(** X5: [retrieve] erases every stored line of the tag and keeps the others
    in order, so the tag is not contained afterwards; it returns the first
    line of the tag, the one no line of the tag precedes, or a blank entry
    when no line has the tag, and then the set is unchanged. *)
Theorem retrieve_erases_the_tag (cs : CacheSet.t) (tag : Z) :
  set_inv cs ->
  exists r cs',
    CacheSet.retrieve tag cs = Some (r, cs')
    /\ cs' = CacheSet.with_set (others tag (CacheSet.set cs)) cs
    /\ set_inv cs'
    /\ CacheSet.contains tag cs' = Some false
    /\ CacheSet.contains tag cs = Some (negb (CacheEntry.isBlank r))
    /\ (CacheEntry.isBlank r = false ->
        exists before after,
          CacheSet.set cs = before ++ r :: after
          /\ CacheEntry.getTag r = Some tag
          /\ Forall (fun y => CacheEntry.getTag y <> Some tag) before)
    /\ (CacheEntry.isBlank r = true ->
        cs' = cs
        /\ Forall (fun y => CacheEntry.getTag y <> Some tag) (CacheSet.set cs)).
Proof. exact (retrieve_cases cs tag). Qed.

(** A set with two lines of tag 3: the first of them, at address 0x60, is
    returned, and both are erased. *)
Lemma retrieve_erases_the_tag_witness :
  exists cs',
    CacheSet.retrieve 3
      (CacheSet.mk 4 7 5 2
         [example_line 1; example_line 3; example_line 2;
          CacheEntry.make 103 true 7 5 2])
    = Some (example_line 3, cs')
    /\ CacheSet.set cs' = [example_line 1; example_line 2]
    /\ CacheSet.contains 3 cs' = Some false.
Proof.
  destruct (retrieve_erases_the_tag
              (CacheSet.mk 4 7 5 2
                 [example_line 1; example_line 3; example_line 2;
                  CacheEntry.make 103 true 7 5 2]) 3)
    as [r [cs' [Er [Ecs [_ [Ec _]]]]]].
  - unfold set_inv, within_capacity, stored. cbn.
    repeat split; try lia; repeat constructor.
  - vm_compute in Er. injection Er as <- <-.
    eexists. split; [reflexivity|]. split; [reflexivity | exact Ec].
Defined.

(** X6: a line inserted by [inserMru] is found again under its tag: the set
    contains the tag, and [seek] and [read] return the stored copy of the
    line (the line without its prefetched mark). *)
Theorem inserted_line_is_found (cs : CacheSet.t) (e : CacheEntry.t) (tag : Z) :
  set_inv cs ->
  CacheEntry.getTag e = Some tag ->
  tag_defined e = true ->
  exists r cs' cs'',
    LruSet.inserMru e cs = Some (r, cs')
    /\ CacheSet.contains tag cs' = Some true
    /\ CacheSet.seek tag cs' = Some (CacheEntry.copy e, cs')
    /\ LruSet.read tag cs' = Some (CacheEntry.copy e, cs'')
    /\ hd_error (CacheSet.set cs'') = Some (CacheEntry.copy e).
Proof.
  intros Hinv Ht Hd.
  destruct (lru_step_inv (call_inserMru e) cs Hinv Hd) as [cs' [E [Hinv' _]]].
  cbn [lru_step] in E.
  destruct (LruSet.inserMru e cs) as [[r cs1]|] eqn:Ei; cbn [bind] in E; [|discriminate].
  injection E as ->.
  assert (Eset : exists rest, CacheSet.set cs' = CacheEntry.copy e :: rest).
  { unfold LruSet.inserMru in Ei.
    destruct (CacheSet.getSize cs <? CacheSet.ways cs).
    - injection Ei as _ <-. eexists. reflexivity.
    - destruct (CacheSet.back (CacheSet.set cs)); [|discriminate].
      injection Ei as _ <-. eexists. reflexivity. }
  destruct Eset as [rest Eset].
  destruct (head_lookup cs' tag (CacheEntry.copy e) rest Hinv' Eset Ht)
    as [Es [Ec Er]].
  exists r, cs'. eexists. split; [reflexivity|]. split; [exact Ec|].
  split; [exact Es|]. split; [exact Er | reflexivity].
Qed.

Lemma inserted_line_is_found_witness :
  exists r cs',
    LruSet.inserMru (CacheEntry.setPrefetched true (example_line 4))
      (CacheSet.mk 4 7 5 2 [example_line 1; example_line 3; example_line 2])
    = Some (r, cs')
    /\ CacheSet.seek 4 cs' = Some (example_line 4, cs').
Proof.
  destruct (inserted_line_is_found
              (CacheSet.mk 4 7 5 2 [example_line 1; example_line 3; example_line 2])
              (CacheEntry.setPrefetched true (example_line 4)) 4)
    as [r [cs' [cs'' [Ei [_ [Es _]]]]]].
  - unfold set_inv, within_capacity, stored. cbn.
    repeat split; try lia; repeat constructor.
  - reflexivity.
  - reflexivity.
  - exists r, cs'. split; [exact Ei | exact Es].
Defined.

(** X7: a victim-cache hit is final.  A line inserted into a [VictimSet] is
    returned by [retrieve] under its tag, and after that the victim set does
    not contain the tag any more. *)
Theorem victim_hit_removes_the_line (vs : VictimSet.t) (e : CacheEntry.t) (tag : Z) :
  set_inv (VictimSet.super vs) ->
  CacheEntry.getTag e = Some tag ->
  tag_defined e = true ->
  exists r vs' vs'',
    VictimSet.insert e vs = Some (r, vs')
    /\ VictimSet.contains tag vs' = Some true
    /\ VictimSet.retrieve tag vs' = Some (CacheEntry.copy e, vs'')
    /\ VictimSet.contains tag vs'' = Some false
    /\ VictimSet.entries vs'' = others tag (tl (VictimSet.entries vs')).
Proof.
  intros Hinv Ht Hd.
  destruct (lru_step_inv (call_inserMru e) _ Hinv Hd) as [cs' [E [Hinv' _]]].
  cbn [lru_step] in E.
  destruct (LruSet.inserMru e (VictimSet.super vs)) as [[r cs1]|] eqn:Ei;
    cbn [bind] in E; [|discriminate].
  injection E as ->.
  assert (Eset : exists rest, CacheSet.set cs' = CacheEntry.copy e :: rest).
  { unfold LruSet.inserMru in Ei.
    destruct (CacheSet.getSize _ <? CacheSet.ways _).
    - injection Ei as _ <-. eexists. reflexivity.
    - destruct (CacheSet.back _); [|discriminate].
      injection Ei as _ <-. eexists. reflexivity. }
  destruct Eset as [rest Eset].
  destruct (head_lookup cs' tag (CacheEntry.copy e) rest Hinv' Eset Ht)
    as [_ [Ec _]].
  destruct (retrieve_cases cs' tag Hinv')
    as [r2 [cs'' [Er [Ecs [_ [Ec2 [Ec1 _]]]]]]].
  assert (Hit : CacheSet.find tag (CacheSet.set cs') = Some (Some ([], CacheEntry.copy e, rest))).
  { rewrite Eset. apply (find_first tag [] rest); [constructor | constructor | exact Ht]. }
  assert (Hpos : found tag (CacheSet.set cs') (Some ([], CacheEntry.copy e, rest))).
  { split; [exact Eset | split; [exact Ht | constructor]]. }
  rewrite (retrieve_hit cs' tag Hinv' [] rest _ Hit Hpos) in Er.
  injection Er as _ <-.
  exists r, (VictimSet.mk cs' (VictimSet.v vs)).
  eexists (VictimSet.mk _ (VictimSet.v vs)).
  split; [rewrite victim_insert_inserMru; unfold VictimSet.lift; now rewrite Ei|].
  split; [exact Ec|].
  split; [unfold VictimSet.retrieve, VictimSet.lift; cbn [VictimSet.super];
          now rewrite (retrieve_hit cs' tag Hinv' [] rest _ Hit Hpos)|].
  split; [exact Ec2|].
  unfold VictimSet.entries. cbn [VictimSet.super]. rewrite Eset.
  cbn [CacheSet.with_set CacheSet.set app tl].
  now apply others_without.
Qed.

Lemma victim_hit_removes_the_line_witness :
  exists r vs' vs'',
    VictimSet.insert (example_line 4)
      (VictimSet.mk (CacheSet.mk 2 6 5 1 [example_line 1; example_line 3]) 2)
    = Some (r, vs')
    /\ VictimSet.retrieve 4 vs' = Some (example_line 4, vs'')
    /\ VictimSet.entries vs'' = [example_line 1].
Proof.
  destruct (victim_hit_removes_the_line
              (VictimSet.mk (CacheSet.mk 2 6 5 1 [example_line 1; example_line 3]) 2)
              (example_line 4) 4)
    as [r [vs' [vs'' [Ei [_ [Er [_ Ee]]]]]]].
  - unfold set_inv, within_capacity, stored. cbn.
    repeat split; try lia; repeat constructor.
  - reflexivity.
  - reflexivity.
  - exists r, vs', vs''. split; [exact Ei|]. split; [exact Er|].
    vm_compute in Ei. injection Ei as _ <-. exact Ee.
Defined.

Lemma read_cases (cs : CacheSet.t) (tag : Z) :
  set_inv cs ->
  exists r cs',
    LruSet.read tag cs = Some (r, cs')
    /\ CacheSet.contains tag cs = Some (negb (CacheEntry.isBlank r))
    /\ (CacheEntry.isBlank r = true ->
        cs' = cs
        /\ Forall (fun y => CacheEntry.getTag y <> Some tag) (CacheSet.set cs))
    /\ (CacheEntry.isBlank r = false ->
        (exists before after,
            CacheSet.set cs = before ++ r :: after
            /\ CacheEntry.getTag r = Some tag
            /\ Forall (fun y => CacheEntry.getTag y <> Some tag) before)
        /\ cs' = CacheSet.with_set (r :: others tag (CacheSet.set cs)) cs
        /\ LruSet.read tag cs' = Some (r, cs')
        /\ CacheSet.seek tag cs' = Some (r, cs')).
Proof.
  intros Hinv.
  destruct (lookup_cases cs tag Hinv)
    as [[E Ha] | [before [x [after [E [F [Hs Hd]]]]]]].
  - destruct (lookup_miss cs tag E) as [Er [_ [_ [_ Ec]]]].
    exists CacheEntry.default, cs. split; [exact Er|]. split; [exact Ec|].
    split; [intros _; now split | discriminate].
  - pose proof (read_hit cs tag Hinv before after x E F) as Er.
    destruct (step_inv (call_read tag) cs _ Hinv eq_refl
                ltac:(cbn [lru_step]; rewrite Er; reflexivity)) as [Hinv' _].
    pose proof F as [Eset [Hx Hb]].
    assert (Eo : before ++ without x after = others tag (CacheSet.set cs))
      by (rewrite Eset; symmetry; now apply others_hit).
    rewrite Eo in *.
    eexists. eexists. split; [exact Er|].
    rewrite (contains_hit cs tag before after x E), (stored_not_blank x Hs).
    split; [reflexivity|]. split; [discriminate|]. intros _.
    destruct (head_lookup _ tag x _ Hinv' eq_refl Hx) as [Es [_ Er2]].
    split; [exists before, after; exact F|].
    split; [reflexivity|]. split; [|exact Es].
    rewrite Er2. cbn [CacheSet.with_set CacheSet.ways CacheSet.c CacheSet.b CacheSet.s].
    now rewrite (others_absent tag _ (others_clean tag _)).
Qed.

Lemma writeBack_cases (cs : CacheSet.t) (tag : Z) :
  set_inv cs ->
  exists r cs',
    LruSet.writeBack tag cs = Some (r, cs')
    /\ CacheSet.contains tag cs = Some (negb (CacheEntry.isBlank r))
    /\ (CacheEntry.isBlank r = true ->
        cs' = cs
        /\ Forall (fun y => CacheEntry.getTag y <> Some tag) (CacheSet.set cs))
    /\ (CacheEntry.isBlank r = false ->
        CacheEntry.isDirty r = true
        /\ (exists before x after,
               CacheSet.set cs = before ++ x :: after
               /\ CacheEntry.getTag x = Some tag
               /\ Forall (fun y => CacheEntry.getTag y <> Some tag) before
               /\ r = CacheEntry.setDirty true x)
        /\ CacheEntry.getTag r = Some tag
        /\ cs' = CacheSet.with_set (r :: others tag (CacheSet.set cs)) cs
        /\ CacheSet.seek tag cs' = Some (r, cs')
        /\ LruSet.read tag cs' = Some (r, cs')).
Proof.
  intros Hinv.
  destruct (lookup_cases cs tag Hinv)
    as [[E Ha] | [before [x [after [E [F [Hs Hd]]]]]]].
  - destruct (lookup_miss cs tag E) as [_ [Ew [_ [_ Ec]]]].
    exists CacheEntry.default, cs. split; [exact Ew|]. split; [exact Ec|].
    split; [intros _; now split | discriminate].
  - pose proof (writeBack_hit cs tag Hinv before after x E F) as Ew.
    destruct (step_inv (call_writeBack tag) cs _ Hinv eq_refl
                ltac:(cbn [lru_step]; rewrite Ew; reflexivity)) as [Hinv' _].
    pose proof F as [Eset [Hx Hb]].
    assert (Eo : before ++ without x after = others tag (CacheSet.set cs))
      by (rewrite Eset; symmetry; now apply others_hit).
    rewrite Eo in *.
    assert (Hnb : CacheEntry.isBlank (CacheEntry.setDirty true x) = false)
      by (destruct Hs as [Hs _]; exact Hs).
    eexists. eexists. split; [exact Ew|].
    rewrite (contains_hit cs tag before after x E), Hnb.
    split; [reflexivity|]. split; [discriminate|]. intros _.
    destruct (head_lookup _ tag (CacheEntry.setDirty true x) _ Hinv' eq_refl Hx)
      as [Es [_ Er2]].
    split; [reflexivity|].
    split; [exists before, x, after; destruct F as [F1 [F2 F3]]; repeat split; assumption|].
    split; [exact Hx|]. split; [reflexivity|]. split; [exact Es|].
    rewrite Er2. cbn [CacheSet.with_set CacheSet.ways CacheSet.c CacheSet.b CacheSet.s].
    now rewrite (others_absent tag _ (others_clean tag _)).
Qed.

(** X8: [read] on a miss returns a blank entry and changes nothing.  On a
    hit it returns the first line of the tag, the one no line of the tag
    precedes, puts it at the head and erases every other line of the tag,
    keeping the remaining lines in order; a second [read] of the tag returns
    the same line and changes nothing more. *)
Theorem read_is_idempotent (cs : CacheSet.t) (tag : Z) :
  set_inv cs ->
  exists r cs',
    LruSet.read tag cs = Some (r, cs')
    /\ CacheSet.contains tag cs = Some (negb (CacheEntry.isBlank r))
    /\ (CacheEntry.isBlank r = true ->
        cs' = cs
        /\ Forall (fun y => CacheEntry.getTag y <> Some tag) (CacheSet.set cs))
    /\ (CacheEntry.isBlank r = false ->
        (exists before after,
            CacheSet.set cs = before ++ r :: after
            /\ CacheEntry.getTag r = Some tag
            /\ Forall (fun y => CacheEntry.getTag y <> Some tag) before)
        /\ cs' = CacheSet.with_set (r :: others tag (CacheSet.set cs)) cs
        /\ LruSet.read tag cs' = Some (r, cs')
        /\ CacheSet.seek tag cs' = Some (r, cs')).
Proof. exact (read_cases cs tag). Qed.

(** A set with two lines of tag 3: the first of them, at address 0x60, is
    returned and moved to the head, the other one is erased. *)
Lemma read_is_idempotent_witness :
  exists cs',
    LruSet.read 3
      (CacheSet.mk 4 7 5 2
         [example_line 1; example_line 3; example_line 2;
          CacheEntry.make 103 true 7 5 2])
    = Some (example_line 3, cs')
    /\ CacheSet.set cs' = [example_line 3; example_line 1; example_line 2]
    /\ LruSet.read 3 cs' = Some (example_line 3, cs').
Proof.
  destruct (read_is_idempotent
              (CacheSet.mk 4 7 5 2
                 [example_line 1; example_line 3; example_line 2;
                  CacheEntry.make 103 true 7 5 2]) 3)
    as [r [cs' [Er [_ [_ Hhit]]]]].
  - unfold set_inv, within_capacity, stored. cbn.
    repeat split; try lia; repeat constructor.
  - vm_compute in Er. injection Er as <- <-.
    eexists. split; [reflexivity|]. split; [reflexivity|].
    exact (proj1 (proj2 (proj2 (Hhit eq_refl)))).
Defined.

(** X9: [writeBack] on a hit takes the first line of the tag, the one no
    line of the tag precedes, sets its dirty bit, returns it and stores it
    like that at the head, every other line of the tag erased; the mark
    stays: later [seek] and [read] of the tag return the dirty line.  On a
    miss it returns a blank entry and changes nothing. *)
Theorem writeBack_mark_stays (cs : CacheSet.t) (tag : Z) :
  set_inv cs ->
  exists r cs',
    LruSet.writeBack tag cs = Some (r, cs')
    /\ CacheSet.contains tag cs = Some (negb (CacheEntry.isBlank r))
    /\ (CacheEntry.isBlank r = true ->
        cs' = cs
        /\ Forall (fun y => CacheEntry.getTag y <> Some tag) (CacheSet.set cs))
    /\ (CacheEntry.isBlank r = false ->
        CacheEntry.isDirty r = true
        /\ (exists before x after,
               CacheSet.set cs = before ++ x :: after
               /\ CacheEntry.getTag x = Some tag
               /\ Forall (fun y => CacheEntry.getTag y <> Some tag) before
               /\ r = CacheEntry.setDirty true x)
        /\ CacheEntry.getTag r = Some tag
        /\ cs' = CacheSet.with_set (r :: others tag (CacheSet.set cs)) cs
        /\ CacheSet.seek tag cs' = Some (r, cs')
        /\ LruSet.read tag cs' = Some (r, cs')).
Proof. exact (writeBack_cases cs tag). Qed.

(** A set with two lines of tag 3, both clean: the first of them, at
    address 0x60, comes back dirty and is found dirty afterwards. *)
Lemma writeBack_mark_stays_witness :
  exists cs',
    LruSet.writeBack 3
      (CacheSet.mk 4 7 5 2
         [example_line 1; example_line 3; example_line 2;
          CacheEntry.make 103 false 7 5 2])
    = Some (CacheEntry.setDirty true (example_line 3), cs')
    /\ CacheSet.set cs'
       = [CacheEntry.setDirty true (example_line 3); example_line 1; example_line 2]
    /\ LruSet.read 3 cs' = Some (CacheEntry.setDirty true (example_line 3), cs').
Proof.
  destruct (writeBack_mark_stays
              (CacheSet.mk 4 7 5 2
                 [example_line 1; example_line 3; example_line 2;
                  CacheEntry.make 103 false 7 5 2]) 3)
    as [r [cs' [Ew [_ [_ Hhit]]]]].
  - unfold set_inv, within_capacity, stored. cbn.
    repeat split; try lia; repeat constructor.
  - vm_compute in Ew. injection Ew as <- <-.
    eexists. split; [reflexivity|]. split; [reflexivity|].
    exact (proj2 (proj2 (proj2 (proj2 (proj2 (Hhit eq_refl)))))).
Defined.

Section Duplicates.

(** Erasing the lines of one tag leaves the tags of the others distinct. *)
Lemma others_distinct (tag : Z) (lines : list CacheEntry.t) :
  NoDup (map CacheEntry.getTag lines) ->
  NoDup (map CacheEntry.getTag (others tag lines)).
Proof.
  intros Hnd. induction lines as [| line rest IH]; [exact Hnd|].
  apply NoDup_cons_iff in Hnd as [Hfresh Hrest]. cbn [others filter].
  fold (others tag rest). destruct (has_tag tag line); cbn [negb]; [now apply IH|].
  cbn [map]. apply NoDup_cons; [|now apply IH].
  intros Hold. apply Hfresh. apply in_map_iff in Hold as [y [Ey Hy]].
  apply in_map_iff. exists y. split; [exact Ey|].
  now apply filter_In in Hy as [Hy _].
Qed.

Lemma promoted_tags (tag : Z) (r : CacheEntry.t) (l : list CacheEntry.t) :
  CacheEntry.getTag r = Some tag ->
  NoDup (map CacheEntry.getTag l) ->
  NoDup (map CacheEntry.getTag (r :: others tag l)).
Proof.
  intros Hr Hnd. cbn [map]. constructor; [|now apply others_distinct].
  rewrite Hr. intros Hin. apply in_map_iff in Hin as [y [Ey Hy]].
  pose proof (others_clean tag l) as Hc. rewrite Forall_forall in Hc.
  exact (Hc y Hy Ey).
Qed.

Lemma inserMru_tags (e : CacheEntry.t) (cs : CacheSet.t) r cs' :
  LruSet.inserMru e cs = Some (r, cs') ->
  NoDup (tags cs) -> ~ In (CacheEntry.getTag e) (tags cs) -> NoDup (tags cs').
Proof.
  unfold LruSet.inserMru, tags.
  destruct (CacheSet.getSize cs <? CacheSet.ways cs).
  - intros [= _ <-] Hnd Hin. cbn. now constructor.
  - destruct (CacheSet.back (CacheSet.set cs)); [|discriminate].
    intros [= _ <-] Hnd Hin. cbn. rewrite map_removelast. constructor.
    + intros Hx. apply Hin. now apply In_removelast.
    + now apply NoDup_removelast.
Qed.

End Duplicates.

(** X10: the methods keep a set free of duplicate tags.  [read],
    [writeBack], [retrieve], [seek] and [contains] always do; [insertLru] and
    [inserMru] do when the set does not already hold a line of the new
    line's tag, which is what the note on [inserMru] asks the caller to
    check. *)
Theorem no_duplicate_tags_kept (call : lru_call) (cs : CacheSet.t) :
  set_inv cs ->
  call_defined call = true ->
  NoDup (tags cs) ->
  (forall e, call = call_insertLru e \/ call = call_inserMru e ->
             ~ In (CacheEntry.getTag e) (tags cs)) ->
  exists cs', lru_step call cs = Some cs' /\ NoDup (tags cs').
Proof.
  intros Hinv Hc Hnd Hnew.
  destruct (lru_step_inv call cs Hinv Hc) as [cs' [E _]].
  exists cs'. split; [exact E|].
  destruct call as [e | e | tag | tag | tag | tag | tag]; cbn [lru_step] in E.
  - destruct (LruSet.insertLru e cs) as [[r cs1]|] eqn:Ei; cbn [bind] in E;
      [|discriminate].
    injection E as <-. apply (insertLru_tags e cs r cs1 Ei Hnd). apply Hnew. now left.
  - destruct (LruSet.inserMru e cs) as [[r cs1]|] eqn:Ei; cbn [bind] in E;
      [|discriminate].
    injection E as <-. apply (inserMru_tags e cs r cs1 Ei Hnd). apply Hnew. now right.
  - destruct (read_cases cs tag Hinv) as [r [cs1 [Er [_ [Hm Hh]]]]].
    rewrite Er in E. cbn [bind] in E. injection E as <-.
    destruct (CacheEntry.isBlank r) eqn:Hb.
    + destruct (Hm eq_refl) as [-> _]. exact Hnd.
    + destruct (Hh eq_refl) as [[before [after [_ [Ht _]]]] [-> _]].
      now apply promoted_tags.
  - destruct (writeBack_cases cs tag Hinv) as [r [cs1 [Er [_ [Hm Hh]]]]].
    rewrite Er in E. cbn [bind] in E. injection E as <-.
    destruct (CacheEntry.isBlank r) eqn:Hb.
    + destruct (Hm eq_refl) as [-> _]. exact Hnd.
    + destruct (Hh eq_refl) as [_ [_ [Ht [-> _]]]]. now apply promoted_tags.
  - destruct (retrieve_cases cs tag Hinv) as [r [cs1 [Er [-> _]]]].
    rewrite Er in E. cbn [bind] in E. injection E as <-.
    unfold tags. cbn. now apply others_distinct.
  - destruct (seek_cases cs tag Hinv) as [r [Es _]].
    rewrite Es in E. cbn [bind] in E. now injection E as <-.
  - destruct (CacheSet.contains tag cs); cbn [bind] in E; [|discriminate].
    now injection E as <-.
Qed.

Lemma no_duplicate_tags_kept_witness :
  exists cs',
    lru_step (call_inserMru (example_line 4))
      (CacheSet.mk 4 7 5 2 [example_line 1; example_line 3; example_line 2])
    = Some cs'
    /\ NoDup (tags cs').
Proof.
  apply no_duplicate_tags_kept.
  - unfold set_inv, within_capacity, stored. cbn.
    repeat split; try lia; repeat constructor.
  - reflexivity.
  - repeat constructor; vm_compute; intros H;
      repeat (destruct H as [H | H]; try discriminate); exact H.
  - intros e [H | H]; [discriminate|]. injection H as <-.
    vm_compute. intros H; repeat (destruct H as [H | H]; try discriminate); exact H.
Defined.

(** * The victim set as a queue *)

Section Queue.

Lemma victim_inserts_queue (lines : list CacheEntry.t) :
  forall vs,
    1 <= CacheSet.ways (VictimSet.super vs) ->
    within_capacity (VictimSet.super vs) ->
    Forall stored (VictimSet.entries vs) ->
    let w := Z.to_nat (CacheSet.ways (VictimSet.super vs)) in
    let queue := rev (VictimSet.entries vs) ++ map CacheEntry.copy lines in
    let gone := (length queue - w)%nat in
    exists evicted vs',
      victim_inserts lines vs = Some (evicted, vs')
      /\ evicted = firstn gone queue
      /\ VictimSet.entries vs' = rev (skipn gone queue).
Proof.
  induction lines as [| e rest IH]; intros vs Hw Hc Hs w queue gone.
  - exists [], vs. split; [reflexivity|].
    unfold gone, queue, within_capacity, VictimSet.entries in *. cbn [map].
    rewrite app_nil_r in *. rewrite length_rev.
    replace (length (CacheSet.set (VictimSet.super vs)) - w)%nat with 0%nat
      by (unfold w; lia).
    cbn [firstn skipn]. split; [reflexivity | now rewrite rev_involutive].
  - cbn [victim_inserts]. rewrite victim_insert_inserMru.
    unfold VictimSet.lift, LruSet.inserMru.
    unfold within_capacity, VictimSet.entries in *.
    set (cs := VictimSet.super vs) in *.
    set (E := CacheSet.set cs) in *.
    unfold CacheSet.getSize. fold E.
    change (CacheEntry.copy (CacheEntry.copy e)) with (CacheEntry.copy e).
    destruct (Z.ltb_spec (Z.of_nat (length E)) (CacheSet.ways cs)) as [Hlt | Hge];
      cbn [bind].
    + specialize (IH (VictimSet.mk
                        (CacheSet.with_set (CacheEntry.copy e :: E) cs)
                        (VictimSet.v vs))).
      destruct IH as [later [vs' [Erun [El Ee]]]].
      * exact Hw.
      * unfold within_capacity. cbn. fold E. lia.
      * constructor; [apply copy_stored | exact Hs].
      * rewrite Erun. cbn [bind CacheEntry.isBlank CacheEntry.blank CacheEntry.default].
        exists later, vs'. split; [reflexivity|].
        cbn [VictimSet.super VictimSet.entries CacheSet.with_set CacheSet.ways
               CacheSet.set rev] in El, Ee.
        assert (Eq : (rev E ++ [CacheEntry.copy e]) ++ map CacheEntry.copy rest = queue).
        { unfold queue. cbn [map]. now rewrite <- app_assoc. }
        rewrite Eq in El, Ee. split; assumption.
    + assert (Hne : E <> []).
      { intros Hnil. rewrite Hnil in Hge. cbn in Hge. lia. }
      destruct (back_defined E Hne) as [last [Eb El]].
      rewrite Eb. cbn [bind].
      assert (Hlast : stored last) by exact (back_Forall _ _ _ Hs Eb).
      pose proof (removelast_length E Hne) as Hlen.
      specialize (IH (VictimSet.mk
                        (CacheSet.with_set (CacheEntry.copy e :: removelast E) cs)
                        (VictimSet.v vs))).
      destruct IH as [later [vs' [Erun [Elater Ee]]]].
      * exact Hw.
      * unfold within_capacity. cbn. lia.
      * constructor; [apply copy_stored | now apply removelast_Forall].
      * rewrite Erun. cbn [bind]. rewrite (copy_of_stored last Hlast).
        rewrite (stored_not_blank last Hlast).
        exists (last :: later), vs'. split; [reflexivity|].
        cbn [VictimSet.super VictimSet.entries CacheSet.with_set CacheSet.ways
               CacheSet.set rev] in Elater, Ee.
        assert (Eq : queue = last :: (rev (removelast E) ++ [CacheEntry.copy e])
                                   ++ map CacheEntry.copy rest).
        { unfold queue. rewrite El at 1. rewrite rev_app_distr. cbn [rev app map].
          now rewrite <- app_assoc. }
        assert (Egone : gone = S (length ((rev (removelast E) ++ [CacheEntry.copy e])
                                            ++ map CacheEntry.copy rest) - w)).
        { unfold gone. rewrite Eq. cbn [length].
          rewrite !length_app, length_rev, length_map. cbn [length].
          unfold w. fold cs. lia. }
        rewrite Egone, Eq. cbn [firstn skipn]. split; [now f_equal | exact Ee].
Qed.

Lemma victim_inserts_frame (lines : list CacheEntry.t) :
  forall vs evicted vs',
    victim_inserts lines vs = Some (evicted, vs') ->
    CacheSet.ways (VictimSet.super vs') = CacheSet.ways (VictimSet.super vs)
    /\ VictimSet.v vs' = VictimSet.v vs.
Proof.
  induction lines as [| e rest IH]; intros vs evicted vs' H; cbn [victim_inserts] in H.
  - injection H as _ <-. now split.
  - destruct (VictimSet.insert e vs) as [[r vs1]|] eqn:Ei; cbn [bind] in H;
      [|discriminate].
    destruct (victim_inserts rest vs1) as [[later vs2]|] eqn:Er; cbn [bind] in H;
      [|discriminate].
    injection H as _ <-. destruct (IH _ _ _ Er) as [Hw Hv].
    rewrite Hw, Hv. unfold VictimSet.insert in Ei.
    destruct (CacheSet.getSize _ <? CacheSet.ways _).
    + injection Ei as _ <-. now split.
    + destruct (CacheSet.back _); [|discriminate].
      injection Ei as _ <-. now split.
Qed.

End Queue.

Lemma victim_init_defined (v b : Z) (vs : VictimSet.t) :
  0 < v <= clog2_exact ->
  exists vs',
    VictimSet.init v b vs = Some vs'
    /\ VictimSet.v vs' = v
    /\ VictimSet.entries vs' = VictimSet.entries vs
    /\ CacheSet.ways (VictimSet.super vs') = 2 ^ Z.log2_up v
    /\ v <= CacheSet.ways (VictimSet.super vs') < 2 * v
    /\ (CacheSet.ways (VictimSet.super vs') = v <-> exists n, 0 <= n /\ v = 2 ^ n).
Proof.
  intros Hv.
  assert (Hv63 : 0 < v <= 2 ^ 63) by (unfold clog2_exact in Hv; lia).
  destruct (clog2_defined v Hv63) as [Ec Hbits].
  assert (Hw : U64.shl 1 (Z.log2_up v) = Some (2 ^ Z.log2_up v)).
  { pose proof (new_defined 0 0 (Z.log2_up v) Hbits) as H.
    unfold CacheSet.new in H. destruct (U64.shl 1 (Z.log2_up v)); cbn [bind] in H;
      [|discriminate]. now injection H as ->. }
  eexists. unfold VictimSet.init, CacheSet.init. rewrite Ec. cbn [bind].
  rewrite Hw. cbn [bind]. split; [reflexivity|].
  cbn [VictimSet.v VictimSet.entries VictimSet.super CacheSet.set CacheSet.ways].
  split; [reflexivity|]. split; [reflexivity|]. split; [reflexivity|].
  assert (Hpos : 0 < 2 ^ Z.log2_up v) by (apply Z.pow_pos_nonneg; lia).
  destruct (Z.eq_dec v 1) as [-> | Hne].
  - change (Z.log2_up 1) with 0. cbn. split; [lia|]. split; [|reflexivity].
    intros _. exists 0. now split.
  - pose proof (Z.log2_up_spec v ltac:(lia)) as [Hlo Hhi].
    assert (Hl : 0 < Z.log2_up v) by (apply Z.log2_up_pos; lia).
    assert (Hdouble : 2 ^ Z.log2_up v = 2 * 2 ^ Z.pred (Z.log2_up v)).
    { rewrite <- Z.pow_succ_r by lia. f_equal. lia. }
    split; [lia|]. split.
    + intros E. exists (Z.log2_up v). split; [lia | now symmetry].
    + intros [n [Hn E]]. rewrite E at 1 2. f_equal. now apply Z.log2_up_pow2.
Qed.

(** X11: the victim set is a queue.  After any number of insertions into an
    empty [VictimSet] of [w = ways] slots, the entries that came back are the
    stored copies of the first [n - w] inserted lines in the order of their
    insertion, and the set holds the copies of the last [w] lines, newest
    first; its ways and its [v] are as before. *)
Theorem victim_evicts_in_insertion_order
    (vs0 : VictimSet.t) (lines : list CacheEntry.t) :
  VictimSet.entries vs0 = [] ->
  1 <= CacheSet.ways (VictimSet.super vs0) ->
  exists evicted vs,
    victim_inserts lines vs0 = Some (evicted, vs)
    /\ CacheSet.ways (VictimSet.super vs) = CacheSet.ways (VictimSet.super vs0)
    /\ VictimSet.v vs = VictimSet.v vs0
    /\ let gone :=
         (length lines - Z.to_nat (CacheSet.ways (VictimSet.super vs0)))%nat in
       evicted = map CacheEntry.copy (firstn gone lines)
       /\ VictimSet.entries vs = rev (map CacheEntry.copy (skipn gone lines)).
Proof.
  intros Hempty Hw.
  destruct (victim_inserts_queue lines vs0)
    as [evicted [vs [Erun [Eev Een]]]].
  - exact Hw.
  - unfold within_capacity. unfold VictimSet.entries in Hempty.
    rewrite Hempty. cbn. lia.
  - rewrite Hempty. constructor.
  - exists evicted, vs. split; [exact Erun|].
    split; [exact (proj1 (victim_inserts_frame lines vs0 evicted vs Erun))|].
    split; [exact (proj2 (victim_inserts_frame lines vs0 evicted vs Erun))|].
    rewrite Hempty in Eev, Een. cbn [rev app] in Eev, Een.
    rewrite length_map in Eev, Een.
    rewrite firstn_map in Eev. rewrite skipn_map in Een. now split.
Qed.

(** Five lines into the victim set that [VictimSet(2, 5)] constructs. *)
Lemma victim_evicts_in_insertion_order_witness :
  exists vs0 vs,
    VictimSet.new 2 5 = Some vs0
    /\ victim_inserts
         [example_line 1; example_line 2; example_line 3; example_line 4;
          example_line 5] vs0
       = Some ([example_line 1; example_line 2; example_line 3], vs)
    /\ VictimSet.entries vs = [example_line 5; example_line 4].
Proof.
  destruct (victim_evicts_in_insertion_order
              (VictimSet.mk (CacheSet.mk 2 6 5 1 []) 2)
              [example_line 1; example_line 2; example_line 3; example_line 4;
               example_line 5] eq_refl ltac:(cbn; lia))
    as [evicted [vs [Erun [_ [_ [Eev Een]]]]]].
  exists (VictimSet.mk (CacheSet.mk 2 6 5 1 []) 2), vs.
  split; [reflexivity|].
  split; [rewrite Erun, Eev; reflexivity | exact Een].
Defined.

(** X12: [VictimSet::init] for [v] blocks, [v] up to [2^32], gives the set
    [ways = 2^clog2(v)] slots, the least power of two that is not below [v]:
    never fewer than [v], fewer than [2 v], and exactly [v] only when [v] is
    itself a power of two.  It records [v] and keeps the entries the set
    holds. *)
Theorem victim_capacity_is_rounded_up (v b : Z) (vs : VictimSet.t) :
  0 < v <= clog2_exact ->
  exists vs',
    VictimSet.init v b vs = Some vs'
    /\ VictimSet.v vs' = v
    /\ VictimSet.entries vs' = VictimSet.entries vs
    /\ CacheSet.ways (VictimSet.super vs') = 2 ^ Z.log2_up v
    /\ v <= CacheSet.ways (VictimSet.super vs') < 2 * v
    /\ (CacheSet.ways (VictimSet.super vs') = v <-> exists n, 0 <= n /\ v = 2 ^ n).
Proof. exact (victim_init_defined v b vs). Qed.

Lemma victim_capacity_is_rounded_up_witness :
  exists vs',
    VictimSet.init 5 5 VictimSet.default = Some vs'
    /\ CacheSet.ways (VictimSet.super vs') = 8.
Proof.
  destruct (victim_capacity_is_rounded_up 5 5 VictimSet.default)
    as [vs' [E [_ [_ [Hw _]]]]].
  - split; [lia | discriminate].
  - exists vs'. split; [exact E | exact Hw].
Defined.

(** * Initialisation in general *)

Section Initialisation.

Lemma shl_one (n : Z) : 0 <= n < 64 -> U64.shl 1 n = Some (2 ^ n).
Proof.
  intros Hn. pose proof (new_defined 0 0 n Hn) as H.
  unfold CacheSet.new in H. destruct (U64.shl 1 n); cbn [bind] in H;
    [|discriminate]. now injection H as ->.
Qed.

Lemma shl_large (x n : Z) : 64 <= n -> U64.shl x n = None.
Proof.
  intros Hn. unfold U64.shl, U64.width.
  destruct (Z.ltb_spec n 64); [lia|]. now rewrite andb_false_r.
Qed.

Lemma push_sets_repeat (n : nat) (c b s : Z) (fresh : LruSet.t) :
  LruSet.new c b s = Some fresh ->
  forall vec, push_sets n c b s vec = Some (vec ++ repeat fresh n).
Proof.
  intros Hnew. induction n as [| n IH]; intros vec; cbn [push_sets repeat].
  - now rewrite app_nil_r.
  - rewrite Hnew. cbn [bind]. rewrite IH, <- app_assoc. reflexivity.
Qed.

Lemma sub_nonneg (x y : Z) : 0 <= U64.sub x y.
Proof. apply wrap_in_range. Qed.

End Initialisation.

(** X13: what [cache_init] has built when it throws.  For every
    configuration of at most [2^16] sets per cache, with [s] and [S] below 64
    and [0 < v <= 2^32], it throws after appending to [l1] first [2^(c-s-b)] empty sets of the L1
    geometry and then [2^(C-S-b)] empty sets of the L2 geometry; [l2] and the
    entries of the victim cache are as before; the prefetcher has the L2
    geometry and the victim cache [2^clog2(v)] ways.  Lines and sets already
    there stay, so a second call appends again. *)
Theorem cache_init_state_at_throw (conf : cache_config_t.t) (g : globals) :
  let c := cache_config_t.c conf in
  let s := cache_config_t.s conf in
  let C := cache_config_t.C conf in
  let S := cache_config_t.S conf in
  let b := cache_config_t.b conf in
  let v := cache_config_t.v conf in
  let i1 := U64.sub (U64.sub c s) b in
  let i2 := U64.sub (U64.sub C S) b in
  0 <= s < 64 -> 0 <= S < 64 -> modelled_sets conf -> 0 < v <= clog2_exact ->
  exists g',
    cache_init conf g = Raised (c_string done_message) g'
    /\ L1_NUM_SETS g' = 2 ^ i1
    /\ L2_NUM_SETS g' = 2 ^ i2
    /\ l1 g' = l1 g ++ repeat (CacheSet.mk (2 ^ s) c b s []) (Z.to_nat (2 ^ i1))
                    ++ repeat (CacheSet.mk (2 ^ S) C b S []) (Z.to_nat (2 ^ i2))
    /\ l2 g' = l2 g
    /\ l2Prefetch g'
       = Prefetcher.mk (Prefetcher.evictions (l2Prefetch g))
           (cache_config_t.k conf) C b S
    /\ CacheSet.ways (VictimSet.super (vc g')) = 2 ^ Z.log2_up v
    /\ VictimSet.entries (vc g') = VictimSet.entries (vc g).
Proof.
  intros c s C S b v i1 i2 Hs HS [Hi1 Hi2] Hv.
  fold c s C S b in Hi1, Hi2. fold i1 in Hi1. fold i2 in Hi2.
  destruct (victim_init_defined v b (vc g) Hv)
    as [victim [Ev [_ [Een [Eways _]]]]].
  eexists. unfold cache_init.
  fold c s C S b v. fold i1. fold i2.
  rewrite (shl_one i1) by (split; [apply sub_nonneg | lia]). cbn [defined].
  rewrite (shl_one i2) by (split; [apply sub_nonneg | lia]). cbn [defined].
  rewrite (push_sets_repeat _ c b s _ (new_defined c b s Hs)). cbn [defined].
  rewrite (push_sets_repeat _ C b S _ (new_defined C b S HS)). cbn [defined].
  rewrite Ev. cbn [defined].
  split; [reflexivity|].
  cbn [L1_NUM_SETS L2_NUM_SETS l1 l2 l2Prefetch vc].
  repeat split; try assumption. now rewrite <- app_assoc.
Qed.

Lemma cache_init_state_at_throw_witness :
  exists g,
    cache_init example_config startup = Raised (c_string done_message) g
    /\ length (l1 g) = 48%nat
    /\ l2 g = [].
Proof.
  destruct (cache_init_state_at_throw example_config startup
              ltac:(cbn; lia) ltac:(cbn; lia)
              ltac:(split; vm_compute; discriminate)
              ltac:(split; [reflexivity | discriminate]))
    as [g [E [_ [_ [El1 [El2 _]]]]]].
  exists g. split; [exact E|]. split; [rewrite El1; reflexivity | exact El2].
Defined.

(** X14: a configuration without a victim cache ([v = 0]) cannot be
    initialised: for at most [2^16] sets per cache, [cache_init] has no
    defined behaviour, whatever the rest of the configuration, because
    [clog2(0)] converts minus infinity to an unsigned integer. *)
Theorem cache_init_undefined_without_victim_cache
    (conf : cache_config_t.t) (g : globals) :
  modelled_sets conf -> cache_config_t.v conf = 0 -> cache_init conf g = Undef.
Proof.
  intros _ Hv. unfold cache_init.
  destruct (U64.shl 1 _); cbn [defined]; [|reflexivity].
  destruct (U64.shl 1 _); cbn [defined]; [|reflexivity].
  destruct (push_sets _ _ _ _ (l1 g)); cbn [defined]; [|reflexivity].
  destruct (push_sets _ _ _ _ _); cbn [defined]; [|reflexivity].
  rewrite Hv. reflexivity.
Qed.

Lemma cache_init_undefined_without_victim_cache_witness :
  cache_init (cache_config_t.mk 10 1 12 2 5 0 2) startup = Undef.
Proof.
  refine (cache_init_undefined_without_victim_cache
            (cache_config_t.mk 10 1 12 2 5 0 2) startup _ eq_refl).
  split; vm_compute; discriminate.
Defined.

(** X15: an invalid geometry is not reported.  When [c < s + b] for L1 or
    for L2 (with sizes far below 2^63), the number of index bits wraps
    around to a huge unsigned value and [1UL << ...] has no defined result:
    [cache_init] neither throws nor returns. *)
Theorem cache_init_undefined_for_invalid_geometry
    (conf : cache_config_t.t) (g : globals) :
  let c := cache_config_t.c conf in
  let s := cache_config_t.s conf in
  let C := cache_config_t.C conf in
  let S := cache_config_t.S conf in
  let b := cache_config_t.b conf in
  (0 <= c < s + b /\ s + b < 2 ^ 63) \/ (0 <= C < S + b /\ S + b < 2 ^ 63) ->
  config_ok conf = false /\ cache_init conf g = Undef.
Proof.
  intros c s C S b H.
  assert (Hwrap : forall x y, 0 <= x < y + b -> y + b < 2 ^ 63 ->
             64 <= U64.sub (U64.sub x y) b).
  { intros x y Hx Hy. unfold U64.sub, U64.wrap.
    rewrite Zminus_mod_idemp_l, modulus_value.
    change (2 ^ 63) with 9223372036854775808 in Hy.
    replace (x - y - b) with ((x - y - b + 18446744073709551616)
                              + (-1) * 18446744073709551616) by lia.
    rewrite Z.mod_add by lia. rewrite Z.mod_small; lia. }
  split.
  - unfold config_ok, geometry_ok. fold c s C S b.
    destruct H as [[H _] | [H _]].
    + destruct (Z.leb_spec (s + b) c); [lia | reflexivity].
    + destruct (Z.leb_spec (S + b) C); [lia|]. now rewrite andb_false_r.
  - unfold cache_init. fold c s C S b.
    destruct H as [[H1 H2] | [H1 H2]].
    + now rewrite (shl_large 1 _ (Hwrap c s H1 H2)).
    + destruct (U64.shl 1 (U64.sub (U64.sub c s) b)); cbn [defined]; [|reflexivity].
      now rewrite (shl_large 1 _ (Hwrap C S H1 H2)).
Qed.

Lemma cache_init_undefined_for_invalid_geometry_witness :
  cache_init (cache_config_t.mk 5 1 12 2 5 2 2) startup = Undef.
Proof.
  refine (proj2 (cache_init_undefined_for_invalid_geometry
                   (cache_config_t.mk 5 1 12 2 5 2 2) startup _)).
  left. cbn. lia.
Defined.

(** * More on the prefetcher *)

Section PrefetchBounds.

Lemma insertLru_kept (e : CacheEntry.t) (cs : CacheSet.t) r cs' :
  LruSet.insertLru e cs = Some (r, cs') ->
  kept cs cs' /\ (CacheEntry.isBlank r = false -> stored r).
Proof.
  unfold LruSet.insertLru, kept.
  destruct (CacheSet.getSize cs <? CacheSet.ways cs).
  - intros [= <- <-]. cbn. rewrite length_app. cbn.
    split; [split; [reflexivity | lia] | discriminate].
  - destruct (CacheSet.back (CacheSet.set cs)) as [last|] eqn:Eb; [|discriminate].
    intros [= <- <-]. cbn. rewrite length_app. cbn.
    assert (Hne : CacheSet.set cs <> []) by (intros H; rewrite H in Eb; discriminate).
    pose proof (removelast_length _ Hne).
    split; [split; [reflexivity | lia] | intros _; apply copy_stored].
Qed.

Lemma offer_bounds (line : CacheEntry.t) cache buf cache' buf' :
  PrefetchLoop.offer LruSet.insertLru line (cache, buf) = Normal (cache', buf') ->
  Forall2 kept cache cache'
  /\ exists extra,
       buf' = buf ++ extra /\ (length extra <= 1)%nat /\ Forall stored extra.
Proof.
  assert (Hrefl : forall z, kept z z) by (intros z; split; [reflexivity | lia]).
  unfold PrefetchLoop.offer.
  destruct (CacheEntry.getIndex line) as [index|]; cbn [defined]; [|discriminate].
  destruct (nth_error cache (Z.to_nat index)) as [target|] eqn:En; [|discriminate].
  destruct (CacheEntry.getTag line) as [tag|]; cbn [defined]; [|discriminate].
  destruct (CacheSet.contains tag target) as [[|]|]; cbn [defined]; try discriminate.
  - intros [= <- <-]. split; [now apply Forall2_refl|].
    exists []. rewrite app_nil_r. repeat split; [cbn; lia | constructor].
  - destruct (LruSet.insertLru line target) as [[evicted updated]|] eqn:Ei;
      cbn [defined]; [|discriminate].
    destruct (insertLru_kept _ _ _ _ Ei) as [Hk Hs].
    intros [= <- <-]. split; [now apply assign_Forall2 with target|].
    destruct (CacheEntry.isBlank evicted).
    + exists []. rewrite app_nil_r. repeat split; [cbn; lia | constructor].
    + exists [evicted]. repeat split; [cbn; lia | constructor; auto].
Qed.

Lemma offer_all_bounds (lines : list CacheEntry.t) :
  forall cache buf cache' buf',
    PrefetchLoop.offer_all LruSet.insertLru lines (cache, buf) = Normal (cache', buf') ->
    Forall2 kept cache cache'
    /\ exists extra,
         buf' = buf ++ extra
         /\ (length extra <= length lines)%nat /\ Forall stored extra.
Proof.
  assert (Hrefl : forall z, kept z z) by (intros z; split; [reflexivity | lia]).
  induction lines as [| line rest IH]; intros cache buf cache' buf' H;
    cbn [PrefetchLoop.offer_all] in H.
  - injection H as <- <-. split; [now apply Forall2_refl|].
    exists []. rewrite app_nil_r. repeat split; [cbn; lia | constructor].
  - destruct (PrefetchLoop.offer LruSet.insertLru line (cache, buf))
      as [[cache1 buf1] | e st |] eqn:E1; try discriminate.
    destruct (offer_bounds _ _ _ _ _ E1) as [K1 [x1 [-> [L1 S1]]]].
    destruct (IH _ _ _ _ H) as [K2 [x2 [-> [L2 S2]]]]. split.
    + refine (Forall2_chain _ _ _ _ _ _ _ K1 K2).
      intros x y z [Hxy1 Hxy2] [Hyz1 Hyz2]. split; [congruence | lia].
    + exists (x1 ++ x2). rewrite app_assoc. split; [reflexivity|].
      split; [rewrite length_app; cbn [length]; lia | now apply Forall_app].
Qed.

End PrefetchBounds.

(** X17: what a returning [prefetch] leaves.  The cache has the same number
    of sets, every set has its ways unchanged and no fewer lines than
    before, the prefetcher keeps its parameters, and the buffer holds at most
    [k] evictions, none of them blank or marked prefetched. *)
Theorem prefetch_keeps_the_cache_shape
    (trigger : CacheEntry.t) (cache cache' : list LruSet.t) (p p' : Prefetcher.t) :
  1 <= CacheEntry.b trigger <= 63 ->
  U64.in_range (CacheEntry.addr trigger) ->
  Prefetcher.prefetch trigger cache p = Normal (cache', p') ->
  length cache' = length cache
  /\ Forall2 (fun cs cs' =>
                CacheSet.ways cs' = CacheSet.ways cs
                /\ (length (CacheSet.set cs) <= length (CacheSet.set cs'))%nat)
       cache cache'
  /\ (length (Prefetcher.evictions p') <= Z.to_nat (Prefetcher.k p))%nat
  /\ Forall stored (Prefetcher.evictions p')
  /\ p' = Prefetcher.with_evictions (Prefetcher.evictions p') p.
Proof.
  intros Hb Ha Hret. rewrite (prefetch_refines trigger Hb Ha cache p) in Hret.
  unfold PrefetchLoop.prefetch in Hret.
  destruct (PrefetchLoop.offer_all LruSet.insertLru _ (cache, []))
    as [[cache1 buf1] | e [cache1 buf1] |] eqn:E; cbn [deliver] in Hret;
    try discriminate.
  injection Hret as <- <-.
  destruct (offer_all_bounds _ _ _ _ _ E) as [K [extra [-> [L S]]]].
  unfold PrefetchSpec.candidates in L. rewrite length_map, length_seq in L.
  split; [symmetry; exact (Forall2_length K)|]. split; [exact K|].
  cbn [Prefetcher.with_evictions Prefetcher.evictions app].
  split; [exact L|]. split; [exact S | reflexivity].
Qed.

Lemma prefetch_keeps_the_cache_shape_witness :
  exists cache' p',
    Prefetcher.prefetch (CacheEntry.make 0 false 8 5 1) example_cache
      (example_prefetcher 2) = Normal (cache', p')
    /\ length cache' = 4%nat
    /\ (length (Prefetcher.evictions p') <= 2)%nat.
Proof.
  eexists. eexists. split; [vm_compute; reflexivity|].
  refine ((fun H => conj (proj1 H) (proj1 (proj2 (proj2 H))))
            (prefetch_keeps_the_cache_shape (CacheEntry.make 0 false 8 5 1)
               example_cache _ (example_prefetcher 2) _ _ _ eq_refl)).
  - cbn; lia.
  - split; [cbn; lia | reflexivity].
Defined.

Section PrefetchEdges.

Lemma block_count (e : CacheEntry.t) :
  U64.add (CacheEntry.indexSize e) (CacheEntry.tagSize e)
  = U64.sub 64 (CacheEntry.b e).
Proof.
  unfold CacheEntry.indexSize, CacheEntry.tagSize, CacheEntry.ADDR_WIDTH,
    U64.add, U64.sub, U64.wrap.
  rewrite Zminus_mod_idemp_l, Zplus_mod_idemp_l, Zplus_mod_idemp_l,
    Zplus_mod_idemp_r.
  f_equal. lia.
Qed.

Lemma getIndex_candidate (trigger : CacheEntry.t) (i : Z) :
  0 <= CacheEntry.b trigger < 64 ->
  CacheEntry.indexSize trigger < 64 ->
  exists index, CacheEntry.getIndex (PrefetchSpec.candidate trigger i) = Some index.
Proof.
  intros Hb Hi. unfold CacheEntry.getIndex. eexists.
  apply shiftAndMask_defined; [|exact Hb].
  split; [apply wrap_in_range | exact Hi].
Qed.

End PrefetchEdges.

(** X16: [prefetch] into a cache vector without sets, which is what
    [cache_init] leaves in [l2], throws [std::out_of_range] at the first
    candidate: for [k >= 1] the call leaves by the exception of
    [vector::at], with the buffer emptied and nothing inserted. *)
Theorem prefetch_into_empty_cache_throws (trigger : CacheEntry.t) (p : Prefetcher.t) :
  1 <= CacheEntry.b trigger <= 63 ->
  U64.in_range (CacheEntry.addr trigger) ->
  CacheEntry.indexSize trigger < 64 ->
  1 <= Prefetcher.k p ->
  Prefetcher.prefetch trigger [] p
  = Raised out_of_range ([], Prefetcher.with_evictions [] p).
Proof.
  intros Hb Ha Hi Hk. rewrite (prefetch_refines trigger Hb Ha [] p).
  unfold PrefetchLoop.prefetch, PrefetchSpec.candidates.
  destruct (Z.to_nat (Prefetcher.k p)) as [| n] eqn:En; [lia|].
  cbn [seq map PrefetchLoop.offer_all]. unfold PrefetchLoop.offer.
  destruct (getIndex_candidate trigger (Z.of_nat 1) ltac:(lia) Hi) as [index ->].
  cbn [defined]. now destruct (Z.to_nat index).
Qed.

Lemma prefetch_into_empty_cache_throws_witness :
  exists g,
    cache_init example_config startup = Raised (c_string done_message) g
    /\ Prefetcher.prefetch (CacheEntry.make 0 false 12 5 2) (l2 g) (l2Prefetch g)
       = Raised out_of_range ([], l2Prefetch g).
Proof.
  eexists. split; [vm_compute; reflexivity|].
  refine (prefetch_into_empty_cache_throws (CacheEntry.make 0 false 12 5 2) _ _ _ _ _).
  - cbn; lia.
  - split; [cbn; lia | reflexivity].
  - vm_compute. reflexivity.
  - cbn; lia.
Defined.

(** X18: the edges of [prefetch].  With [k = 0] it only empties the buffer
    and leaves the cache alone.  With one-byte blocks ([b = 0]) it has no
    defined behaviour, for any [k] and any cache, because the block address
    of the trigger is masked with [2UL << 64]. *)
Theorem prefetch_edge_cases
    (trigger : CacheEntry.t) (cache : list LruSet.t) (p : Prefetcher.t) :
  (1 <= CacheEntry.b trigger <= 63 ->
   U64.in_range (CacheEntry.addr trigger) ->
   Prefetcher.k p = 0 ->
   Prefetcher.prefetch trigger cache p
   = Normal (cache, Prefetcher.with_evictions [] p))
  /\ (CacheEntry.b trigger = 0 ->
      Prefetcher.prefetch trigger cache p = Undef).
Proof.
  split.
  - intros Hb Ha Hk. rewrite (prefetch_refines trigger Hb Ha cache p), Hk.
    reflexivity.
  - intros Hb. unfold Prefetcher.prefetch, CacheEntry.getBlockAddress,
      CacheEntry.shiftAndMask, CacheEntry.byteOffsetSize.
    rewrite block_count, Hb. reflexivity.
Qed.

Lemma prefetch_edge_cases_witness :
  Prefetcher.prefetch (CacheEntry.make 0 false 8 5 1) example_cache
    (example_prefetcher 0)
  = Normal (example_cache, Prefetcher.mk [] 0 8 5 1)
  /\ Prefetcher.prefetch (CacheEntry.make 0 false 8 0 1) example_cache
       (example_prefetcher 2) = Undef.
Proof.
  split.
  - refine (proj1 (prefetch_edge_cases (CacheEntry.make 0 false 8 5 1)
                     example_cache (example_prefetcher 0)) _ _ eq_refl).
    + cbn; lia.
    + split; [cbn; lia | reflexivity].
  - exact (proj2 (prefetch_edge_cases (CacheEntry.make 0 false 8 0 1)
                    example_cache (example_prefetcher 2)) eq_refl).
Defined.

(** X19: a line inserted by [insertLru] is the next one to go.  When the set
    is full after the insertion, the next [inserMru] or [insertLru] returns
    the stored copy of that line as its eviction. *)
Theorem lru_inserted_line_is_next_victim
    (cs : CacheSet.t) (e next : CacheEntry.t) :
  set_inv cs ->
  tag_defined e = true ->
  CacheSet.ways cs <= CacheSet.getSize cs + 1 ->
  exists r cs' mru lru,
    LruSet.insertLru e cs = Some (r, cs')
    /\ CacheSet.getSize cs' = CacheSet.ways cs'
    /\ LruSet.inserMru next cs' = Some (CacheEntry.copy e, mru)
    /\ LruSet.insertLru next cs' = Some (CacheEntry.copy e, lru).
Proof.
  intros Hinv Hd Hfull.
  destruct (lru_step_inv (call_insertLru e) cs Hinv Hd) as [cs' [E [Hinv' [Hw _]]]].
  cbn [lru_step] in E.
  destruct (LruSet.insertLru e cs) as [[r cs1]|] eqn:Ei; cbn [bind] in E; [|discriminate].
  injection E as ->.
  destruct (insertLru_shape e cs r cs' Ei) as [keep [Eset Hkeep]].
  assert (Hsize : CacheSet.getSize cs' = CacheSet.ways cs').
  { pose proof Hinv' as [_ [Hc _]].
    unfold within_capacity in Hc.
    destruct (Z.lt_ge_cases (CacheSet.getSize cs) (CacheSet.ways cs)) as [Hlt | Hge].
    - rewrite (insertLru_room cs e Hlt) in Ei. injection Ei as _ <-.
      unfold CacheSet.getSize in *. cbn [CacheSet.with_set CacheSet.set CacheSet.ways] in *.
      rewrite length_app in *. cbn [length] in *. lia.
    - destruct (insertLru_full cs e Hinv Hge) as [last0 [El0 Ei0]].
      rewrite Ei0 in Ei. injection Ei as _ <-.
      pose proof (removelast_length _ (full_nonempty cs Hinv Hge)) as Hlen.
      unfold CacheSet.getSize in *. cbn [CacheSet.with_set CacheSet.set CacheSet.ways] in *.
      rewrite length_app in *. cbn [length] in *. lia. }
  destruct (inserMru_full cs' next Hinv' ltac:(lia)) as [last [El Em]].
  destruct (insertLru_full cs' next Hinv' ltac:(lia)) as [last' [El' Elru]].
  rewrite Eset in El at 1. apply app_inj_tail in El as [Ek <-].
  rewrite Eset in El' at 1. apply app_inj_tail in El' as [_ <-].
  exists r, cs'. eexists. eexists. split; [reflexivity|]. split; [exact Hsize|].
  split; [exact Em | exact Elru].
Qed.

Lemma lru_inserted_line_is_next_victim_witness :
  exists r cs' mru,
    LruSet.insertLru (example_line 4)
      (CacheSet.mk 4 7 5 2 [example_line 1; example_line 3; example_line 2])
    = Some (r, cs')
    /\ LruSet.inserMru (example_line 5) cs' = Some (example_line 4, mru).
Proof.
  destruct (lru_inserted_line_is_next_victim
              (CacheSet.mk 4 7 5 2 [example_line 1; example_line 3; example_line 2])
              (example_line 4) (example_line 5))
    as [r [cs' [mru [lru [Ei [_ [Em _]]]]]]].
  - unfold set_inv, within_capacity, stored. cbn.
    repeat split; try lia; repeat constructor.
  - reflexivity.
  - cbn; lia.
  - exists r, cs', mru. split; [exact Ei | exact Em].
Defined.

Section Draining.

Lemma pop_all_firstn (n : nat) :
  forall p,
    (n <= length (Prefetcher.evictions p))%nat ->
    pop_all n p
    = Some (map CacheEntry.copy (firstn n (Prefetcher.evictions p)),
            Prefetcher.with_evictions (skipn n (Prefetcher.evictions p)) p).
Proof.
  induction n as [| n IH]; intros p Hn.
  - cbn. now destruct p.
  - cbn [pop_all]. unfold Prefetcher.popEviction.
    destruct (Prefetcher.evictions p) as [| first rest] eqn:Ep; [cbn in Hn; lia|].
    cbn [bind]. rewrite IH by (cbn in *; lia). cbn [bind]. reflexivity.
Qed.

Lemma pop_all_too_many (ev : list CacheEntry.t) :
  forall k c b s,
    pop_all (S (length ev)) (Prefetcher.mk ev k c b s) = None.
Proof.
  induction ev as [| first rest IH]; intros k c b s; [reflexivity|].
  change (pop_all (S (length (first :: rest))) (Prefetcher.mk (first :: rest) k c b s))
    with (bind (pop_all (S (length rest)) (Prefetcher.mk rest k c b s))
            (fun '(later, p'') => Some (CacheEntry.copy first :: later, p''))).
  now rewrite IH.
Qed.

End Draining.

(** X20: draining the buffer.  Popping as many times as the buffer holds
    evictions returns copies of them, oldest first (the evictions themselves
    when they are lines evicted from a set), and leaves a buffer for which
    [checkEmpty] is true; popping once more has no defined result. *)
Theorem popping_drains_oldest_first (p : Prefetcher.t) :
  let n := length (Prefetcher.evictions p) in
  pop_all n p
  = Some (map CacheEntry.copy (Prefetcher.evictions p),
          Prefetcher.with_evictions [] p)
  /\ Prefetcher.checkEmpty (Prefetcher.with_evictions [] p) = true
  /\ pop_all (S n) p = None
  /\ (Forall stored (Prefetcher.evictions p) ->
      map CacheEntry.copy (Prefetcher.evictions p) = Prefetcher.evictions p).
Proof.
  intros n. split; [|split; [reflexivity | split]].
  - rewrite pop_all_firstn by (unfold n; lia).
    unfold n. now rewrite firstn_all, skipn_all.
  - unfold n. destruct p as [ev k c b s]. apply pop_all_too_many.
  - intros Hs. induction Hs as [| x l Hx _ IH]; [reflexivity|].
    cbn [map]. now rewrite (copy_of_stored x Hx), IH.
Qed.

Lemma popping_drains_oldest_first_witness :
  pop_all 2 (Prefetcher.mk [example_line 1; example_line 2] 2 7 5 2)
  = Some ([example_line 1; example_line 2], Prefetcher.mk [] 2 7 5 2).
Proof.
  exact (proj1 (popping_drains_oldest_first
                  (Prefetcher.mk [example_line 1; example_line 2] 2 7 5 2))).
Defined.

(** X21: [prefetch] reads nothing of the prefetcher but [k].  The geometry
    given to [Prefetcher::init] and the evictions buffered before the call
    play no part: two prefetchers with the same [k] do the same to the same
    cache and end with the same buffer.  Candidates are decoded with the
    geometry of the trigger entry. *)
Theorem prefetch_reads_only_k
    (trigger : CacheEntry.t) (cache : list LruSet.t) (p q : Prefetcher.t) :
  Prefetcher.k q = Prefetcher.k p ->
  Prefetcher.prefetch trigger cache q
  = match Prefetcher.prefetch trigger cache p with
    | Normal (cache', p') =>
        Normal (cache', Prefetcher.with_evictions (Prefetcher.evictions p') q)
    | Raised e (cache', p') =>
        Raised e (cache', Prefetcher.with_evictions (Prefetcher.evictions p') q)
    | Undef => Undef
    end.
Proof.
  intros Hk. unfold Prefetcher.prefetch. rewrite Hk.
  destruct (CacheEntry.getBlockAddress trigger) as [start|]; cbn [defined];
    [|reflexivity].
  now destruct (Prefetcher.loop _ _) as [f | e f |].
Qed.

Lemma prefetch_reads_only_k_witness :
  Prefetcher.prefetch (CacheEntry.make 0 false 8 5 1) example_cache
    (Prefetcher.mk [] 2 40 9 3)
  = match Prefetcher.prefetch (CacheEntry.make 0 false 8 5 1) example_cache
            (example_prefetcher 2) with
    | Normal (cache', p') =>
        Normal (cache', Prefetcher.mk (Prefetcher.evictions p') 2 40 9 3)
    | Raised e (cache', p') =>
        Raised e (cache', Prefetcher.mk (Prefetcher.evictions p') 2 40 9 3)
    | Undef => Undef
    end.
Proof.
  exact (prefetch_reads_only_k (CacheEntry.make 0 false 8 5 1) example_cache
           (example_prefetcher 2) (Prefetcher.mk [] 2 40 9 3) eq_refl).
Defined.



(** * The prefetcher against its specification *)

Section Level.

Variables c b s : Z.
Hypothesis block_bits : 1 <= b <= 63.
Hypothesis geometry : s + b <= c.
Hypothesis tag_shift : c < s + 64.














End Level.



